(** * Feature-edge extraction (scripts/extract-wireframe.mjs)

    A shallow embedding of the offline wireframe extractor, and the
    properties its specification states about it.

    Conventions of the embedding:
    - a JavaScript number is a binary64 value, Rocq's primitive [float];
      comparisons are the IEEE ones (false as soon as one side is NaN);
    - an element of the index array is a non-negative integer [N], and a
      read that may go past the end of the array is an [option N], with
      [None] for [undefined]; an index parsed back from an edge key is
      an [option Z], with [None] for the NaN of [parseInt];
    - a [Map] or a [Set] is the list of its entries in insertion order,
      the order in which JavaScript iterates it;
    - a thrown exception is the left injection of a sum;
    - a string is held as the bytes of its UTF-8 encoding;
    - the file system is a function from resolved paths to contents, and
      two resolved paths name two files; what the runtime decides out of
      the script's sight (the memory around a pooled [Buffer], whether a
      write goes through) is a parameter of the platform;
    - memory is unbounded: no array or string is too long to be made;
    - [console.log] output is diagnostic and is left out. *)

From Stdlib Require Import ZArith NArith List String Ascii Bool Lia.
From Stdlib Require Import Sorting.Sorted.
From Stdlib Require Import Floats.PrimFloat Floats.FloatOps Floats.SpecFloat.
From Stdlib Require Import Floats.FloatAxioms.
From Stdlib Require Import Numbers.Cyclic.Int63.Uint63.
From Stdlib Require Import Decimal DecimalString DecimalN DecimalFacts.
Import ListNotations.

Local Open Scope string_scope.
Local Open Scope list_scope.

(** ** JavaScript numbers *)

Definition number := float.

Definition Math_PI : number := 0x1.921fb54442d18p+1%float.

Definition Math_sqrt (x : number) : number := PrimFloat.sqrt x.

(** [Math.min] and [Math.max]: NaN if either argument is NaN, and -0 is
    smaller than +0. *)
Definition Math_min (a b : number) : number :=
  if (is_nan a || is_nan b)%bool then PrimFloat.nan
  else if (a <? b)%float then a
  else if (b <? a)%float then b
  else if get_sign a then a else b.

Definition Math_max (a b : number) : number :=
  if (is_nan a || is_nan b)%bool then PrimFloat.nan
  else if (a <? b)%float then b
  else if (b <? a)%float then a
  else if get_sign a then b else a.

(** The number an integer denotes (exact below 2^53). *)
Definition number_of_N (n : N) : number :=
  PrimFloat.of_uint63 (Uint63.of_Z (Z.of_N n)).

(** ** Vector math *)

Definition vec3 : Type := number * number * number.

Definition vx (v : vec3) : number := fst (fst v).
Definition vy (v : vec3) : number := snd (fst v).
Definition vz (v : vec3) : number := snd v.

Definition sub (a b : vec3) : vec3 :=
  (vx a - vx b, vy a - vy b, vz a - vz b)%float.

Definition cross (a b : vec3) : vec3 :=
  (vy a * vz b - vz a * vy b,
   vz a * vx b - vx a * vz b,
   vx a * vy b - vy a * vx b)%float.

Definition dot (a b : vec3) : number :=
  (vx a * vx b + vy a * vy b + vz a * vz b)%float.

Definition vecLength (v : vec3) : number :=
  Math_sqrt (vx v * vx v + vy v * vy v + vz v * vz v)%float.

Definition normalize (v : vec3) : vec3 :=
  let l := vecLength v in
  if (0 <? l)%float then (vx v / l, vy v / l, vz v / l)%float
  else (0, 0, 0)%float.

Definition dist (a b : vec3) : number := vecLength (sub a b).

Definition midpoint (a b : vec3) : vec3 :=
  ((vx a + vx b) / 2, (vy a + vy b) / 2, (vz a + vz b) / 2)%float.

(** ** Spatial zones *)

Module Zone.
Record t : Type := Make {
  name : string;
  xMin : number; xMax : number;
  yMin : number; yMax : number;
  zMin : number; zMax : number;
  threshold : number;
  minLength : number }.
End Zone.

Definition ZONES : list Zone.t :=
  [ Zone.Make "Engine Intakes (Right)" 15 38 8 38 95 150 8 0.5;
    Zone.Make "Engine Intakes (Left)" 60 83 8 38 95 150 10 2;
    Zone.Make "Cockpit / Nose" 35 63 8 38 160 215 10 0x1.999999999999ap-1;
    Zone.Make "Tail / Rudders" 0 98 8 38 19 60 8 8;
    Zone.Make "Right Wing" 0 15 8 38 19 215 10 0x1.999999999999ap-1;
    Zone.Make "Left Wing" 83 98 8 38 19 215 1 0x1.999999999999ap-1;
    Zone.Make "Engine Exhaust Area" 15 83 8 22 20 85 20 2 ]%float.

(** The test of [findZone]'s loop body: [p >= min && p <= max] on each
    axis. *)
Definition in_zone (point : vec3) (z : Zone.t) : bool :=
  ((Zone.xMin z <=? vx point) && (vx point <=? Zone.xMax z) &&
   (Zone.yMin z <=? vy point) && (vy point <=? Zone.yMax z) &&
   (Zone.zMin z <=? vz point) && (vz point <=? Zone.zMax z))%float%bool.

(** [findZone], with the module constant [ZONES] it walks made a
    parameter; [None] is the [null] it returns after the loop. *)
Fixpoint findZone (zones : list Zone.t) (point : vec3) : option Zone.t :=
  match zones with
  | [] => None
  | z :: rest => if in_zone point z then Some z else findZone rest point
  end.

(** ** Strings and numbers in text *)

Definition is_space (c : ascii) : bool :=
  let n := N_of_ascii c in
  ((n =? 9) || (n =? 10) || (n =? 11) || (n =? 12) || (n =? 13) || (n =? 32))%N.

(** Leading white space dropped, as [parseInt] and [parseFloat] do
    first. The white space of JavaScript is TAB, LF, VT, FF, CR, SP and
    the code points U+00A0, U+1680, U+2000 to U+200A, U+2028, U+2029,
    U+202F, U+205F, U+3000 and U+FEFF, which are two or three bytes long
    in UTF-8: C2 A0; E1 9A 80; E2 80 80 to E2 80 8A, E2 80 A8, E2 80 A9,
    E2 80 AF; E2 81 9F; E3 80 80; EF BB BF. *)
Fixpoint trim_start (s : string) : string :=
  match s with
  | String c r =>
      if is_space c then trim_start r
      else
        let n := N_of_ascii c in
        if (n =? 194)%N then
          match r with
          | String c2 r2 => if (N_of_ascii c2 =? 160)%N then trim_start r2 else s
          | EmptyString => s
          end
        else if ((n =? 225) || (n =? 226) || (n =? 227) || (n =? 239))%N then
          match r with
          | String c2 (String c3 r3) =>
              let n2 := N_of_ascii c2 in
              let n3 := N_of_ascii c3 in
              if (((n =? 225) && (n2 =? 154) && (n3 =? 128))
                  || ((n =? 226) && (n2 =? 128)
                      && (((128 <=? n3) && (n3 <=? 138))
                          || (n3 =? 168) || (n3 =? 169) || (n3 =? 175)))
                  || ((n =? 226) && (n2 =? 129) && (n3 =? 159))
                  || ((n =? 227) && (n2 =? 128) && (n3 =? 128))
                  || ((n =? 239) && (n2 =? 187) && (n3 =? 191)))%N%bool
              then trim_start r3 else s
          | _ => s
          end
        else s
  | EmptyString => s
  end.

Definition digit_of_ascii (c : ascii) : option N :=
  let n := N_of_ascii c in
  if ((48 <=? n) && (n <=? 57))%N then Some (n - 48)%N else None.

Definition hex_digit_of_ascii (c : ascii) : option N :=
  let n := N_of_ascii c in
  if ((48 <=? n) && (n <=? 57))%N then Some (n - 48)%N
  else if ((65 <=? n) && (n <=? 70))%N then Some (n - 55)%N
  else if ((97 <=? n) && (n <=? 102))%N then Some (n - 87)%N
  else None.

(** The longest run of digits at the head of [s]: its value on top of
    [acc], how many digits it has, and the text after it. *)
Fixpoint read_digits (digit : ascii -> option N) (radix : N)
    (s : string) (acc : N) (count : nat) : N * nat * string :=
  match s with
  | String c r =>
      match digit c with
      | Some d => read_digits digit radix r (radix * acc + d)%N (S count)
      | None => (acc, count, s)
      end
  | EmptyString => (acc, count, s)
  end.

Definition read_sign (s : string) : bool * string :=
  match s with
  | String "-" r => (true, r)
  | String "+" r => (false, r)
  | _ => (false, s)
  end.

(** [parseInt(s)] with no radix: white space, a sign, [0x] for base 16,
    then the longest run of digits; [None] is NaN. *)
Definition parseInt (s : string) : option Z :=
  let (neg, s1) := read_sign (trim_start s) in
  let '(v, count, _) :=
    match s1 with
    | String "0" (String "x" r) | String "0" (String "X" r) =>
        read_digits hex_digit_of_ascii 16 r 0 0
    | _ => read_digits digit_of_ascii 10 s1 0 0
    end in
  match count with
  | O => None
  | S _ => Some (if neg then - Z.of_N v else Z.of_N v)%Z
  end.

(** The binary64 value nearest to [m * 10 ^ e10], ties to even. A
    negative exponent is a division: the quotient is taken with over a
    thousand bits more than the format keeps and one sticky bit for the
    remainder, which rounds as the exact value does. *)
Definition number_of_decimal (neg : bool) (m : N) (e10 : Z) : number :=
  if (m =? 0)%N then (if neg then PrimFloat.neg_zero else PrimFloat.zero)
  else
    let sf :=
      if (0 <=? e10)%Z
      then binary_normalize prec emax (Z.of_N m * 10 ^ e10) 0 false
      else
        let d := (10 ^ (- e10))%Z in
        let s := (1100 + Z.log2 d + 1)%Z in
        let n := (Z.of_N m * 2 ^ s)%Z in
        let sticky := if (n mod d =? 0)%Z then 0%Z else 1%Z in
        binary_normalize prec emax (2 * (n / d) + sticky) (- s - 1) false in
    let x := SF2Prim sf in
    if neg then (- x)%float else x.

Definition starts_with (p s : string) : bool :=
  String.prefix p s.

(** The exponent part [e], sign, digits at the head of [s], 0 if there is none. *)
Definition read_exponent (s : string) : Z :=
  match s with
  | String c r =>
      if (Ascii.eqb c "e" || Ascii.eqb c "E")%bool then
        let (eneg, r1) := read_sign r in
        let '(ev, ecount, _) := read_digits digit_of_ascii 10 r1 0 0 in
        match ecount with
        | O => 0%Z
        | S _ => if eneg then (- Z.of_N ev)%Z else Z.of_N ev
        end
      else 0%Z
  | EmptyString => 0%Z
  end.

(** [parseFloat(s)]: the longest prefix of the trimmed text that is a
    decimal literal (sign, [Infinity], digits, fraction, exponent), NaN
    when there is none. *)
Definition parseFloat_string (s : string) : number :=
  let (neg, s1) := read_sign (trim_start s) in
  if starts_with "Infinity" s1 then (if neg then PrimFloat.neg_infinity else PrimFloat.infinity)
  else
    let '(ip, ni, r1) := read_digits digit_of_ascii 10 s1 0 0 in
    let '(m, nf, r2) :=
      match r1 with
      | String "." r => read_digits digit_of_ascii 10 r ip 0
      | _ => (ip, O, r1)
      end in
    match (ni + nf)%nat with
    | O => PrimFloat.nan
    | S _ => number_of_decimal neg m (read_exponent r2 - Z.of_nat nf)
    end.

(** [parseFloat] of a value that may be [undefined] (an argument read
    past the end of the list): [undefined] reads as its text, NaN. *)
Definition parseFloat (v : option string) : number :=
  match v with
  | Some s => parseFloat_string s
  | None => PrimFloat.nan
  end.

(** [s.split(c)] for a one-character separator. *)
Fixpoint str_split (c : ascii) (s : string) : list string :=
  match s with
  | EmptyString => [EmptyString]
  | String h r =>
      let parts := str_split c r in
      if Ascii.eqb h c then EmptyString :: parts
      else match parts with
           | p :: ps => String h p :: ps
           | [] => [String h EmptyString]
           end
  end.

(** A number inside a template literal: an index prints as its decimal
    digits, [undefined] as that word. *)
Definition string_of_N (n : N) : string :=
  NilEmpty.string_of_uint (N.to_uint n).

Definition template (v : option N) : string :=
  match v with
  | Some n => string_of_N n
  | None => "undefined"
  end.

(** ** Command line *)

Module Opts.
Record t : Type := Make {
  input : option string;
  output : option string;
  threshold : number;
  minLength : number;
  featureLength : number;
  boundary : bool;
  zones : bool;
  stats : bool }.
Definition set_input v (o : t) :=
  Make v (output o) (threshold o) (minLength o) (featureLength o) (boundary o) (zones o) (stats o).
Definition set_output v (o : t) :=
  Make (input o) v (threshold o) (minLength o) (featureLength o) (boundary o) (zones o) (stats o).
Definition set_threshold v (o : t) :=
  Make (input o) (output o) v (minLength o) (featureLength o) (boundary o) (zones o) (stats o).
Definition set_minLength v (o : t) :=
  Make (input o) (output o) (threshold o) v (featureLength o) (boundary o) (zones o) (stats o).
Definition set_featureLength v (o : t) :=
  Make (input o) (output o) (threshold o) (minLength o) v (boundary o) (zones o) (stats o).
Definition set_boundary v (o : t) :=
  Make (input o) (output o) (threshold o) (minLength o) (featureLength o) v (zones o) (stats o).
Definition set_zones v (o : t) :=
  Make (input o) (output o) (threshold o) (minLength o) (featureLength o) (boundary o) v (stats o).
Definition set_stats v (o : t) :=
  Make (input o) (output o) (threshold o) (minLength o) (featureLength o) (boundary o) (zones o) v.
End Opts.

Definition default_opts : Opts.t :=
  Opts.Make (Some "public/sr71.gltf") (Some "public/sr71-wireframe.json")
    13.75%float 0x1.ccccccccccccdp+0%float 35%float true true false.

(** The loop of [parseArgs]: one option per turn, and [args[++i]] takes
    the next word as its value ([undefined] when the list ends there).
    An unknown word is warned about and skipped. *)
Fixpoint parseArgs_from (args : list string) (opts : Opts.t) : Opts.t :=
  match args with
  | [] => opts
  | a :: rest =>
      let with_value (set : option string -> Opts.t -> Opts.t) :=
        match rest with
        | [] => set None opts
        | v :: rest' => parseArgs_from rest' (set (Some v) opts)
        end in
      if a =? "--input" then with_value Opts.set_input
      else if a =? "--output" then with_value Opts.set_output
      else if a =? "--threshold" then
        with_value (fun v => Opts.set_threshold (parseFloat v))
      else if a =? "--min-length" then
        with_value (fun v => Opts.set_minLength (parseFloat v))
      else if a =? "--feature-length" then
        with_value (fun v => Opts.set_featureLength (parseFloat v))
      else if a =? "--boundary" then parseArgs_from rest (Opts.set_boundary true opts)
      else if a =? "--no-boundary" then parseArgs_from rest (Opts.set_boundary false opts)
      else if a =? "--no-zones" then parseArgs_from rest (Opts.set_zones false opts)
      else if a =? "--stats" then parseArgs_from rest (Opts.set_stats true opts)
      else parseArgs_from rest opts
  end.

(** [parseArgs], on [process.argv.slice(2)]. *)
Definition parseArgs (args : list string) : Opts.t :=
  parseArgs_from args default_opts.

(** ** Exceptions *)

Inductive js_error : Type :=
| TypeError
| RangeError
| SyntaxError
| FsError
| Error (message : string).

Definition result (A : Type) : Type := (js_error + A)%type.

Definition ret {A : Type} (a : A) : result A := inr a.
Definition throw {A : Type} (e : js_error) : result A := inl e.

Definition bind {A B : Type} (r : result A) (k : A -> result B) : result B :=
  match r with
  | inl e => inl e
  | inr a => k a
  end.

Notation "x <- r ;; k" := (bind r (fun x => k))
  (at level 61, r at next level, right associativity).

(** ** The model container *)

(** The parts of the parsed glTF document that the loader reads. A
    property that is absent is [None], JavaScript's [undefined]; a
    numeric property holds a non-negative integer. *)
Module Accessor.
Record t : Type := Make {
  bufferView : option N;
  byteOffset : option N;
  count : option N;
  componentType : option N }.
End Accessor.

Module BufferView.
Record t : Type := Make { byteOffset : option N }.
End BufferView.

Module BufferRef.
Record t : Type := Make { uri : option string }.
End BufferRef.

Module Gltf.
Record t : Type := Make {
  buffers : option (list BufferRef.t);
  accessors : option (list Accessor.t);
  bufferViews : option (list BufferView.t) }.
End Gltf.

(** What [loadGLTF] returns. [vertexCount] is the accessor's [count] as
    read; [triangleCount] is the index count divided by 3, NaN when the
    count is absent. *)
Module Mesh.
Record t : Type := Make {
  positions : list number;
  indices : list N;
  vertexCount : option N;
  triangleCount : number }.
End Mesh.

(** A Node.js [Buffer]: the [ArrayBuffer] under it, as bytes, and where
    the view starts in it. *)
Module NodeBuffer.
Record t : Type := Make {
  buffer : list N;
  byteOffset : N }.
End NodeBuffer.

(** ** The extractor's output *)

Module Stats.
Record t : Type := Make {
  sharp : nat;
  long : nat;
  boundary : nat;
  tooShort : nat;
  coplanar : nat;
  nonManifold : nat }.
End Stats.

Module ZoneStat.
Record t : Type := Make {
  sharp : nat;
  tooShort : nat;
  coplanar : nat }.
End ZoneStat.

Module Meta.
Record t : Type := Make {
  sourceVertices : option N;
  sourceTriangles : number;
  sourceEdges : nat;
  featureEdges : nat;
  stats : Stats.t;
  threshold : number;
  minLength : number;
  featureLength : number;
  zonesEnabled : bool }.
End Meta.

(** An output coordinate is what [getVertex] read, a number or
    [undefined]; an output index is what [vertexMap.get] returned, a
    position in the output vertex list or [undefined]. *)
Module Output.
Record t : Type := Make {
  vertices : list (option number);
  indices : list (option nat);
  meta : Meta.t }.
End Output.

(** ** The file system and the platform *)

(** The file system: the content of the file at a resolved path. *)
Definition world : Type := string -> option string.

(** What the script takes from the JavaScript runtime and Node.js and
    what is left open here:
    - [Math.acos], which the language leaves to the implementation but
      for the arguments out of range, NaN, and 1;
    - the JSON reader and writer, and the path functions;
    - [Buffer_pool content]: the bytes that stand before and after the
      bytes of a file of that content in the [ArrayBuffer] under the
      [Buffer] that [readFileSync] returns for it. Node.js cuts a
      [Buffer] of fewer than 4096 bytes from a shared pool of 8192 bytes,
      at a multiple of 8, and the rest of the pool holds whatever else
      was put there; a larger [Buffer] has an [ArrayBuffer] of its own,
      and there is nothing before or after;
    - [write_fails w path content]: whether [writeFileSync] throws (the
      directory is missing, the file may not be written, the disk is
      full), and what the path holds after it has thrown: nothing, the
      former content, or a part of the new one. [None] is a write that
      goes through. *)
Class Platform : Type := {
  Math_acos : number -> number;
  JSON_parse : string -> option Gltf.t;
  JSON_stringify : Output.t -> string;
  resolve : list string -> string;
  dirname : string -> string;
  Buffer_pool : string -> string * string;
  write_fails : world -> string -> string -> option (option string) }.

Definition readFileSync (w : world) (path : string) : result string :=
  match w path with
  | Some content => ret content
  | None => throw FsError
  end.

(** The file system with [path] holding [content] ([None]: no file). *)
Definition set_file (w : world) (path : string) (content : option string) : world :=
  fun p => if p =? path then content else w p.

(** [writeFileSync(path, content)]: what it threw, if anything, and the
    file system it leaves. *)
Definition writeFileSync `{Platform} (w : world) (path content : string)
    : result unit * world :=
  match write_fails w path content with
  | None => (ret tt, set_file w path (Some content))
  | Some remains => (throw FsError, set_file w path remains)
  end.

Definition bytes_of (content : string) : list N :=
  map N_of_ascii (list_ascii_of_string content).

(** [readFileSync] with no encoding gives a [Buffer] over the bytes of
    the file, which start at [byteOffset] in the [ArrayBuffer] under
    it. *)
Definition Buffer_of_content `{Platform} (content : string) : NodeBuffer.t :=
  let (before, after) := Buffer_pool content in
  NodeBuffer.Make (bytes_of before ++ bytes_of content ++ bytes_of after)
    (N.of_nat (List.length (bytes_of before))).

(** ** Typed arrays *)

(** [ToIndex]: NaN counts as 0, and an integer above 2^53 - 1 is a
    [RangeError]. *)
Definition ToIndex (v : option N) : result N :=
  match v with
  | None => ret 0%N
  | Some n => if (n <=? 2 ^ 53 - 1)%N then ret n else throw RangeError
  end.

Inductive length_arg : Type :=
| LengthUndefined
| LengthNumber (n : option N).

(** [new TypedArray(buffer, byteOffset, length)]: the first byte and the
    number of elements of the view, or the [RangeError] of a view that is
    misaligned or does not fit the buffer. *)
Definition typed_array_view (elementSize byteLength byteOffset : N)
    (length : length_arg) : result (N * N) :=
  offset <- ToIndex (Some byteOffset) ;;
  if negb (offset mod elementSize =? 0)%N then throw RangeError
  else
    match length with
    | LengthUndefined =>
        if negb (byteLength mod elementSize =? 0)%N then throw RangeError
        else if (byteLength <? offset)%N then throw RangeError
        else ret (offset, ((byteLength - offset) / elementSize)%N)
    | LengthNumber n =>
        newLength <- ToIndex n ;;
        if (byteLength <? offset + newLength * elementSize)%N
        then throw RangeError
        else ret (offset, newLength)
    end.

(** The value of bytes in little-endian order. *)
Definition le_value (bytes : list N) : N :=
  fold_right (fun b acc => (b + 256 * acc)%N) 0%N bytes.

(** The number a binary32 bit pattern denotes (each is a binary64 value
    too, so reading a [Float32Array] element is exact). *)
Definition number_of_float32 (w : N) : number :=
  let e := (N.shiftr w 23 mod 256)%N in
  let m := (w mod 2 ^ 23)%N in
  let magnitude :=
    if (e =? 255)%N then (if (m =? 0)%N then PrimFloat.infinity else PrimFloat.nan)
    else if (e =? 0)%N then Z.ldexp (number_of_N m) (-149)
    else Z.ldexp (number_of_N (m + 2 ^ 23)) (Z.of_N e - 150) in
  if N.testbit w 31 then (- magnitude)%float else magnitude.

Fixpoint read_elements {A : Type} (size : nat) (decode : list N -> A)
    (count : nat) (bytes : list N) : list A :=
  match count with
  | O => []
  | S k => decode (firstn size bytes) :: read_elements size decode k (skipn size bytes)
  end.

Definition typed_array {A : Type} (elementSize : N) (decode : list N -> A)
    (buffer : list N) (byteOffset : N) (length : length_arg) : result (list A) :=
  view <- typed_array_view elementSize (N.of_nat (List.length buffer)) byteOffset length ;;
  ret (read_elements (N.to_nat elementSize) decode (N.to_nat (snd view))
         (skipn (N.to_nat (fst view)) buffer)).

Definition Float32Array := typed_array 4 (fun bytes => number_of_float32 (le_value bytes)).
Definition Uint16Array := typed_array 2 le_value.
Definition Uint32Array := typed_array 4 le_value.

(** ** The loader *)

(** [xs[i]] on a value that may be [undefined]: reading a property of
    [undefined] is a [TypeError]; an index that is out of range or is
    itself [undefined] reads [undefined]. *)
Definition element {A : Type} (xs : option (list A)) (i : option N) : result (option A) :=
  match xs with
  | None => throw TypeError
  | Some l =>
      match i with
      | Some n => ret (nth_error l (N.to_nat n))
      | None => ret None
      end
  end.

(** [x.f] on a value that may be [undefined]. *)
Definition property {A B : Type} (x : option A) (f : A -> B) : result B :=
  match x with
  | None => throw TypeError
  | Some a => ret (f a)
  end.

(** [x || 0] on a number that may be [undefined]. *)
Definition or_zero (x : option N) : N :=
  match x with
  | Some n => n
  | None => 0%N
  end.

(** A path argument that is not a string is a [TypeError] of
    [path.resolve]. *)
Definition resolve_args `{Platform} (parts : list (option string)) : result string :=
  if forallb (fun p => match p with Some _ => true | None => false end) parts
  then ret (resolve (flat_map (fun p => match p with Some s => [s] | None => [] end) parts))
  else throw TypeError.

(** The first statements of [loadGLTF]: the directory of the model file
    and the parsed document. *)
Definition read_gltf `{Platform} (w : world) (gltfPath : option string)
    : result (string * Gltf.t) :=
  gltfFile <- resolve_args [gltfPath] ;;
  let gltfDir := dirname gltfFile in
  text <- readFileSync w gltfFile ;;
  match JSON_parse text with
  | Some gltf => ret (gltfDir, gltf)
  | None => throw SyntaxError
  end.

(** The next one: the binary payload the document names. The blocks
    after it read the position accessor and the index accessor. *)
Definition read_buffer `{Platform} (w : world) (gltfDir : string) (gltf : Gltf.t)
    : result NodeBuffer.t :=
  buffer0 <- element (Gltf.buffers gltf) (Some 0%N) ;;
  uri <- property buffer0 BufferRef.uri ;;
  binFile <- resolve_args [Some gltfDir; uri] ;;
  content <- readFileSync w binFile ;;
  ret (Buffer_of_content content).

(** The position block: the [Float32Array] over the payload and the
    accessor's [count]. *)
Definition load_positions (gltf : Gltf.t) (buffer : NodeBuffer.t)
    : result (list number * option N) :=
  posAccessor <- element (Gltf.accessors gltf) (Some 0%N) ;;
  posViewIndex <- property posAccessor Accessor.bufferView ;;
  posView <- element (Gltf.bufferViews gltf) posViewIndex ;;
  posViewOffset <- property posView BufferView.byteOffset ;;
  posAccOffset <- property posAccessor Accessor.byteOffset ;;
  let posOffset := (or_zero posViewOffset + or_zero posAccOffset)%N in
  posCount <- property posAccessor Accessor.count ;;
  positions <- Float32Array (NodeBuffer.buffer buffer)
                 (NodeBuffer.byteOffset buffer + posOffset)%N
                 (LengthNumber (option_map (fun n => n * 3)%N posCount)) ;;
  ret (positions, posCount).

(** The index block, up to the test of the component type: where the
    indices start, the accessor's [count] and its [componentType]. *)
Definition index_accessor (gltf : Gltf.t) : result (N * option N * option N) :=
  idxAccessor <- element (Gltf.accessors gltf) (Some 1%N) ;;
  idxViewIndex <- property idxAccessor Accessor.bufferView ;;
  idxView <- element (Gltf.bufferViews gltf) idxViewIndex ;;
  idxViewOffset <- property idxView BufferView.byteOffset ;;
  idxAccOffset <- property idxAccessor Accessor.byteOffset ;;
  let idxOffset := (or_zero idxViewOffset + or_zero idxAccOffset)%N in
  idxCount <- property idxAccessor Accessor.count ;;
  componentType <- property idxAccessor Accessor.componentType ;;
  ret (idxOffset, idxCount, componentType).

(** The index array: 5123 is [UNSIGNED_SHORT], 5125 [UNSIGNED_INT]. An
    absent [count] is an [undefined] length argument. *)
Definition load_indices (gltf : Gltf.t) (buffer : NodeBuffer.t)
    : result (list N * option N) :=
  acc <- index_accessor gltf ;;
  let '(idxOffset, idxCount, componentType) := acc in
  let idxLength := match idxCount with
                   | Some n => LengthNumber (Some n)
                   | None => LengthUndefined
                   end in
  indices <-
    match componentType with
    | Some 5123%N =>
        Uint16Array (NodeBuffer.buffer buffer)
          (NodeBuffer.byteOffset buffer + idxOffset)%N idxLength
    | Some 5125%N =>
        Uint32Array (NodeBuffer.buffer buffer)
          (NodeBuffer.byteOffset buffer + idxOffset)%N idxLength
    | other =>
        throw (Error ("Unsupported index component type: " ++ template other))
    end ;;
  ret (indices, idxCount).

Definition load_arrays (gltf : Gltf.t) (buffer : NodeBuffer.t) : result Mesh.t :=
  pos <- load_positions gltf buffer ;;
  idx <- load_indices gltf buffer ;;
  ret (Mesh.Make (fst pos) (fst idx) (snd pos)
         (match snd idx with
          | Some n => (number_of_N n / 3)%float
          | None => PrimFloat.nan
          end)).

Definition loadGLTF `{Platform} (w : world) (gltfPath : option string) : result Mesh.t :=
  doc <- read_gltf w gltfPath ;;
  buffer <- read_buffer w (fst doc) (snd doc) ;;
  load_arrays (snd doc) buffer.

(** The resolved paths [loadGLTF] reads in [w]: the model file, and the
    payload file when the document is read and names one. *)
Definition files_read `{Platform} (w : world) (gltfPath : option string) : list string :=
  match resolve_args [gltfPath] with
  | inl _ => []
  | inr gltfFile =>
      gltfFile ::
      match read_gltf w gltfPath with
      | inl _ => []
      | inr doc =>
          match (buffer0 <- element (Gltf.buffers (snd doc)) (Some 0%N) ;;
                 uri <- property buffer0 BufferRef.uri ;;
                 resolve_args [Some (fst doc); uri]) with
          | inl _ => []
          | inr binFile => [binFile]
          end
      end
  end.

(** ** Maps and sets

    A [Map] (or a plain object used as one) is the list of its entries in
    insertion order; setting a key that is present replaces the value
    where it stands. A [Set] is the list of its members in insertion
    order. *)
Section Containers.
Context {K V : Type} (eqb : K -> K -> bool).

Definition Map_has (k : K) (m : list (K * V)) : bool :=
  existsb (fun e => eqb (fst e) k) m.

Fixpoint Map_get (k : K) (m : list (K * V)) : option V :=
  match m with
  | [] => None
  | (k', v) :: rest => if eqb k' k then Some v else Map_get k rest
  end.

Fixpoint Map_set (k : K) (v : V) (m : list (K * V)) : list (K * V) :=
  match m with
  | [] => [(k, v)]
  | (k', v') :: rest =>
      if eqb k' k then (k, v) :: rest else (k', v') :: Map_set k v rest
  end.

Definition Set_add (k : K) (s : list K) : list K :=
  if existsb (fun x => eqb x k) s then s else s ++ [k].

End Containers.

(** ** Edge keys *)

(** [a < b] on values that may be [undefined]: false unless both are
    numbers. *)
Definition js_lt (a b : option N) : bool :=
  match a, b with
  | Some x, Some y => (x <? y)%N
  | _, _ => false
  end.

Definition edgeKey (a b : option N) : string :=
  if js_lt a b then template a ++ "_" ++ template b
  else template b ++ "_" ++ template a.

(** ** Main extraction *)

(** An index as the filter holds it: an integer, or [None] for NaN and
    [undefined]. Two are the same key of a [Set] or [Map] when they are
    equal (NaN is the same key as NaN). *)
Definition index : Type := option Z.

Definition index_eqb (a b : index) : bool :=
  match a, b with
  | Some x, Some y => (x =? y)%Z
  | None, None => true
  | _, _ => false
  end.

Definition index_of_N (i : option N) : index := option_map Z.of_N i.

(** [xs[k]] on a typed array or an array: [undefined] for an index that
    is negative, past the end, or NaN. *)
Definition at_index {A : Type} (xs : list A) (k : index) : option A :=
  match k with
  | Some z => if (z <? 0)%Z then None else nth_error xs (Z.to_nat z)
  | None => None
  end.

(** [undefined] in arithmetic is NaN. *)
Definition to_number (v : option number) : number :=
  match v with
  | Some x => x
  | None => PrimFloat.nan
  end.

(** [getVertex(i)], as the three values read, and as the vector the
    arithmetic sees. *)
Definition getVertex_raw (positions : list number) (i : index)
    : option number * option number * option number :=
  let k := option_map (fun z => z * 3)%Z i in
  (at_index positions k,
   at_index positions (option_map (fun z => z + 1)%Z k),
   at_index positions (option_map (fun z => z + 2)%Z k)).

Definition getVertex (positions : list number) (i : index) : vec3 :=
  let '(x, y, z) := getVertex_raw positions i in
  (to_number x, to_number y, to_number z).

(** The values [f] takes in [for (let f = 0; f < bound; f++)]: the
    integers from 0 below the bound, none for a bound that is NaN, zero
    or negative. (An infinite bound would not end the loop; the loader
    yields none, and it counts as no turn here.) *)
Definition loop_trips (bound : number) : nat :=
  match Prim2SF bound with
  | S754_finite false m e =>
      Z.to_nat (if (0 <=? e)%Z then Z.pos m * 2 ^ e
                else (Z.pos m + 2 ^ (- e) - 1) / 2 ^ (- e))
  | _ => O
  end.

Definition faces_of (mesh : Mesh.t) : list nat :=
  seq 0 (loop_trips (Mesh.triangleCount mesh)).

(** The three indices of face [f], each [undefined] past the end of the
    index array. *)
Definition face_corners (mesh : Mesh.t) (f : nat) : option N * option N * option N :=
  (nth_error (Mesh.indices mesh) (f * 3),
   nth_error (Mesh.indices mesh) (f * 3 + 1),
   nth_error (Mesh.indices mesh) (f * 3 + 2)).

(** Step 1: face normals. *)
Definition face_normal (mesh : Mesh.t) (f : nat) : vec3 :=
  let '(i0, i1, i2) := face_corners mesh f in
  let v0 := getVertex (Mesh.positions mesh) (index_of_N i0) in
  let v1 := getVertex (Mesh.positions mesh) (index_of_N i1) in
  let v2 := getVertex (Mesh.positions mesh) (index_of_N i2) in
  normalize (cross (sub v1 v0) (sub v2 v0)).

Definition faceNormals_of (mesh : Mesh.t) : list vec3 :=
  map (face_normal mesh) (faces_of mesh).

(** Step 2: the edge-to-faces adjacency map. *)
Definition edge_map : Type := list (string * list nat).

Definition face_edges (mesh : Mesh.t) (f : nat) : list string :=
  let '(i0, i1, i2) := face_corners mesh f in
  [edgeKey i0 i1; edgeKey i1 i2; edgeKey i2 i0].

(** [if (!edgeFaces.has(ek)) edgeFaces.set(ek, []); edgeFaces.get(ek).push(f)].
    The array pushed to is the one the map holds, so the push shows in
    the map, at the entry's place. The key has just been set when it
    was missing, so [get] finds it. *)
Definition add_face (f : nat) (edgeFaces : edge_map) (ek : string) : edge_map :=
  let edgeFaces1 :=
    if negb (Map_has String.eqb ek edgeFaces)
    then Map_set String.eqb ek [] edgeFaces
    else edgeFaces in
  match Map_get String.eqb ek edgeFaces1 with
  | Some faces => Map_set String.eqb ek (faces ++ [f]) edgeFaces1
  | None => edgeFaces1
  end.

Definition add_triangle (mesh : Mesh.t) (edgeFaces : edge_map) (f : nat) : edge_map :=
  fold_left (add_face f) (face_edges mesh f) edgeFaces.

Definition edgeFaces_of (mesh : Mesh.t) : edge_map :=
  fold_left (add_triangle mesh) (faces_of mesh) [].

(** Step 3: per-zone filtering. *)

Definition zone_stats : Type := list (string * ZoneStat.t).

Definition default_zone_name : string := "Fuselage (default)".

(** [zoneStats[name] = { sharp: 0, tooShort: 0, coplanar: 0 }]. *)
Definition zoneStats_init (zones : list Zone.t) : zone_stats :=
  Map_set String.eqb default_zone_name (ZoneStat.Make 0 0 0)
    (fold_left (fun zs z => Map_set String.eqb (Zone.name z) (ZoneStat.Make 0 0 0) zs)
       zones []).

(** [zoneStats[name].field++]; the entry is there, [zoneStats_init] made
    one for every zone and for the default (lemma
    [zoneStats_entry_defined] below). *)
Definition zoneStats_bump (bump : ZoneStat.t -> ZoneStat.t) (zoneName : string)
    (zs : zone_stats) : zone_stats :=
  match Map_get String.eqb zoneName zs with
  | Some s => Map_set String.eqb zoneName (bump s) zs
  | None => zs
  end.

Definition zs_sharp (s : ZoneStat.t) : ZoneStat.t :=
  ZoneStat.Make (S (ZoneStat.sharp s)) (ZoneStat.tooShort s) (ZoneStat.coplanar s).
Definition zs_tooShort (s : ZoneStat.t) : ZoneStat.t :=
  ZoneStat.Make (ZoneStat.sharp s) (S (ZoneStat.tooShort s)) (ZoneStat.coplanar s).
Definition zs_coplanar (s : ZoneStat.t) : ZoneStat.t :=
  ZoneStat.Make (ZoneStat.sharp s) (ZoneStat.tooShort s) (S (ZoneStat.coplanar s)).

Definition st_sharp (s : Stats.t) : Stats.t :=
  Stats.Make (S (Stats.sharp s)) (Stats.long s) (Stats.boundary s)
    (Stats.tooShort s) (Stats.coplanar s) (Stats.nonManifold s).
Definition st_long (s : Stats.t) : Stats.t :=
  Stats.Make (Stats.sharp s) (S (Stats.long s)) (Stats.boundary s)
    (Stats.tooShort s) (Stats.coplanar s) (Stats.nonManifold s).
Definition st_boundary (s : Stats.t) : Stats.t :=
  Stats.Make (Stats.sharp s) (Stats.long s) (S (Stats.boundary s))
    (Stats.tooShort s) (Stats.coplanar s) (Stats.nonManifold s).
Definition st_tooShort (s : Stats.t) : Stats.t :=
  Stats.Make (Stats.sharp s) (Stats.long s) (Stats.boundary s)
    (S (Stats.tooShort s)) (Stats.coplanar s) (Stats.nonManifold s).
Definition st_coplanar (s : Stats.t) : Stats.t :=
  Stats.Make (Stats.sharp s) (Stats.long s) (Stats.boundary s)
    (Stats.tooShort s) (S (Stats.coplanar s)) (Stats.nonManifold s).
Definition st_nonManifold (s : Stats.t) : Stats.t :=
  Stats.Make (Stats.sharp s) (Stats.long s) (Stats.boundary s)
    (Stats.tooShort s) (Stats.coplanar s) (S (Stats.nonManifold s)).

(** What the filter loop carries from edge to edge. *)
Module Filter.
Record t : Type := Make {
  featureEdges : list (index * index);
  stats : Stats.t;
  zoneStats : zone_stats }.
End Filter.

Definition filter_init (zones : list Zone.t) : Filter.t :=
  Filter.Make [] (Stats.Make 0 0 0 0 0 0) (zoneStats_init zones).

(** [parseInt] of a part of [ek.split("_")]; a part that is missing is
    [undefined], which reads as NaN. *)
Definition parseInt_part (parts : list string) (k : nat) : index :=
  match nth_error parts k with
  | Some s => parseInt s
  | None => None
  end.

Definition edge_ends (ek : string) : index * index :=
  let parts := str_split "_" ek in
  (parseInt_part parts 0, parseInt_part parts 1).

Definition useZones_of (zones : list Zone.t) (opts : Opts.t) : bool :=
  (Opts.zones opts && (0 <? List.length zones))%bool%nat.

Definition radians (degrees : number) : number :=
  (degrees * Math_PI / 180)%float.

(** The two-face branch of the filter: the normals of the two faces, the
    cosine of the angle between them and the angle. A face id comes from
    the adjacency map and is below the number of face normals (lemma
    [edgeFaces_faces_in_range] below), so the default of the reads is
    never taken. *)
Definition face_normal_at (faceNormals : list vec3) (faces : list nat) (k : nat) : vec3 :=
  nth (nth k faces O) faceNormals (PrimFloat.nan, PrimFloat.nan, PrimFloat.nan).

Definition cos_angle (faceNormals : list vec3) (faces : list nat) : number :=
  let n1 := face_normal_at faceNormals faces 0 in
  let n2 := face_normal_at faceNormals faces 1 in
  dot n1 n2.

Definition dihedral_angle `{Platform} (faceNormals : list vec3) (faces : list nat) : number :=
  let cosAngle := cos_angle faceNormals faces in
  Math_acos (Math_max (-1)%float (Math_min 1%float cosAngle)).

(** The body of the loop over the adjacency map, for one entry. *)
Definition filter_edge `{Platform} (zones : list Zone.t) (opts : Opts.t)
    (positions : list number) (faceNormals : list vec3)
    (st : Filter.t) (entry : string * list nat) : Filter.t :=
  let (ek, faces) := entry in
  let (a, b) := edge_ends ek in
  let va := getVertex positions a in
  let vb := getVertex positions b in
  let edgeLen := dist va vb in
  let mid := midpoint va vb in
  let zone := if useZones_of zones opts then findZone zones mid else None in
  let zoneName := match zone with Some z => Zone.name z | None => default_zone_name end in
  let localThreshold :=
    match zone with Some z => Zone.threshold z | None => Opts.threshold opts end in
  let localMinLength :=
    match zone with Some z => Zone.minLength z | None => Opts.minLength opts end in
  let localThresholdRad := radians localThreshold in
  let featureEdges := Filter.featureEdges st in
  let stats := Filter.stats st in
  let zoneStats := Filter.zoneStats st in
  if (edgeLen <? localMinLength)%float then
    Filter.Make featureEdges (st_tooShort stats)
      (zoneStats_bump zs_tooShort zoneName zoneStats)
  else if (List.length faces =? 1)%nat then
    if Opts.boundary opts
    then Filter.Make (featureEdges ++ [(a, b)]) (st_boundary stats) zoneStats
    else st
  else if (List.length faces =? 2)%nat then
    let angle := dihedral_angle faceNormals faces in
    if (localThresholdRad <? angle)%float then
      Filter.Make (featureEdges ++ [(a, b)]) (st_sharp stats)
        (zoneStats_bump zs_sharp zoneName zoneStats)
    else if (Opts.featureLength opts <? edgeLen)%float then
      Filter.Make (featureEdges ++ [(a, b)]) (st_long stats) zoneStats
    else
      Filter.Make featureEdges (st_coplanar stats)
        (zoneStats_bump zs_coplanar zoneName zoneStats)
  else
    Filter.Make (featureEdges ++ [(a, b)]) (st_nonManifold stats) zoneStats.

Definition filter_edges `{Platform} (zones : list Zone.t) (opts : Opts.t)
    (positions : list number) (faceNormals : list vec3) (edgeFaces : edge_map)
    : Filter.t :=
  fold_left (filter_edge zones opts positions faceNormals) edgeFaces
    (filter_init zones).

(** Step 4: the compact output. *)

Definition usedVertices_of (featureEdges : list (index * index)) : list index :=
  fold_left (fun used e => Set_add index_eqb (snd e) (Set_add index_eqb (fst e) used))
    featureEdges [].

(** The loop over [usedVertices]: the vertex map, the output vertices and
    the next output index. *)
Module Compact.
Record t : Type := Make {
  vertexMap : list (index * nat);
  outVertices : list (option number);
  idx : nat }.
End Compact.

Definition compact_vertex (positions : list number) (c : Compact.t) (v : index) : Compact.t :=
  let '(x, y, z) := getVertex_raw positions v in
  Compact.Make (Map_set index_eqb v (Compact.idx c) (Compact.vertexMap c))
    (Compact.outVertices c ++ [x; y; z])
    (S (Compact.idx c)).

Definition compact_vertices (positions : list number) (usedVertices : list index) : Compact.t :=
  fold_left (compact_vertex positions) usedVertices (Compact.Make [] [] 0).

Definition outIndices_of (vertexMap : list (index * nat))
    (featureEdges : list (index * index)) : list (option nat) :=
  fold_left
    (fun out e => out ++ [Map_get index_eqb (fst e) vertexMap;
                          Map_get index_eqb (snd e) vertexMap])
    featureEdges [].

(** The extraction proper, on the loaded mesh. *)
Definition extract_mesh `{Platform} (zones : list Zone.t) (mesh : Mesh.t)
    (opts : Opts.t) : Output.t :=
  let positions := Mesh.positions mesh in
  let faceNormals := faceNormals_of mesh in
  let edgeFaces := edgeFaces_of mesh in
  let useZones := useZones_of zones opts in
  let filtered := filter_edges zones opts positions faceNormals edgeFaces in
  let featureEdges := Filter.featureEdges filtered in
  let usedVertices := usedVertices_of featureEdges in
  let compact := compact_vertices positions usedVertices in
  let outIndices := outIndices_of (Compact.vertexMap compact) featureEdges in
  Output.Make (Compact.outVertices compact) outIndices
    (Meta.Make (Mesh.vertexCount mesh) (Mesh.triangleCount mesh)
       (List.length edgeFaces) (List.length featureEdges)
       (Filter.stats filtered)
       (Opts.threshold opts) (Opts.minLength opts) (Opts.featureLength opts)
       useZones).

Definition extractFeatureEdges_in `{Platform} (zones : list Zone.t) (w : world)
    (gltfPath : option string) (opts : Opts.t) : result Output.t :=
  mesh <- loadGLTF w gltfPath ;;
  ret (extract_mesh zones mesh opts).

Definition extractFeatureEdges `{Platform} : world -> option string -> Opts.t -> result Output.t :=
  extractFeatureEdges_in ZONES.

(** ** Run

    The top level of the script: what it returned or threw, and the file
    system it leaves. The output file is written after the extraction
    has returned, and the write may throw. *)
Definition run `{Platform} (args : list string) (w : world) : result Output.t * world :=
  let opts := parseArgs args in
  match extractFeatureEdges w (Opts.input opts) opts with
  | inl e => (inl e, w)
  | inr output =>
      match resolve_args [Opts.output opts] with
      | inl e => (inl e, w)
      | inr path =>
          let (written, w') := writeFileSync w path (JSON_stringify output) in
          (_ <- written ;; ret output, w')
      end
  end.

(** ** The filter's quantities, by name

    The values [filter_edge] binds for an entry of the adjacency map,
    as functions of the entry, for the statements below. *)
Section Quantities.
Context `{Platform}.
Variables (zones : list Zone.t) (opts : Opts.t) (positions : list number).

Definition edge_length (ek : string) : number :=
  dist (getVertex positions (fst (edge_ends ek))) (getVertex positions (snd (edge_ends ek))).

Definition edge_midpoint (ek : string) : vec3 :=
  midpoint (getVertex positions (fst (edge_ends ek))) (getVertex positions (snd (edge_ends ek))).

(** The zone of an edge: the first zone holding its midpoint when zone
    filtering is on, none otherwise. *)
Definition edge_zone (ek : string) : option Zone.t :=
  if useZones_of zones opts then findZone zones (edge_midpoint ek) else None.

Definition effective_threshold (ek : string) : number :=
  match edge_zone ek with
  | Some z => Zone.threshold z
  | None => Opts.threshold opts
  end.

Definition effective_minLength (ek : string) : number :=
  match edge_zone ek with
  | Some z => Zone.minLength z
  | None => Opts.minLength opts
  end.

Definition effective_zoneName (ek : string) : string :=
  match edge_zone ek with
  | Some z => Zone.name z
  | None => default_zone_name
  end.

(** [edgeLen < localMinLength] *)
Definition too_short (ek : string) : bool :=
  (edge_length ek <? effective_minLength ek)%float.

(** [angle > localThresholdRad] *)
Definition sharper (faceNormals : list vec3) (entry : string * list nat) : bool :=
  (radians (effective_threshold (fst entry)) <? dihedral_angle faceNormals (snd entry))%float.

(** [edgeLen > opts.featureLength] *)
Definition longer (ek : string) : bool :=
  (Opts.featureLength opts <? edge_length ek)%float.

(** Whether the loop body pushes the entry's edge onto [featureEdges]. *)
Definition kept (faceNormals : list vec3) (entry : string * list nat) : bool :=
  if too_short (fst entry) then false
  else if (List.length (snd entry) =? 1)%nat then Opts.boundary opts
  else if (List.length (snd entry) =? 2)%nat
       then (sharper faceNormals entry || longer (fst entry))%bool
  else true.

End Quantities.

(** ** Classification of an edge

    The branch of the loop body an entry of the adjacency map takes, as
    section 4.5 of the specification names the categories, and the
    number of entries of a category. *)
Inductive verdict : Type :=
| TooShort
| BoundaryKept
| BoundaryDropped
| Sharp
| Long
| Coplanar
| NonManifold.

Definition verdict_eqb (u v : verdict) : bool :=
  match u, v with
  | TooShort, TooShort | BoundaryKept, BoundaryKept
  | BoundaryDropped, BoundaryDropped | Sharp, Sharp | Long, Long
  | Coplanar, Coplanar | NonManifold, NonManifold => true
  | _, _ => false
  end.

Section Classification.
Context `{Platform}.
Variables (zones : list Zone.t) (opts : Opts.t) (positions : list number)
          (faceNormals : list vec3).

Definition verdict_of (entry : string * list nat) : verdict :=
  if too_short zones opts positions (fst entry) then TooShort
  else if (List.length (snd entry) =? 1)%nat then
    if Opts.boundary opts then BoundaryKept else BoundaryDropped
  else if (List.length (snd entry) =? 2)%nat then
    if sharper zones opts positions faceNormals entry then Sharp
    else if longer opts positions (fst entry) then Long
    else Coplanar
  else NonManifold.

Definition count_verdict (v : verdict) (edgeFaces : edge_map) : nat :=
  List.length (filter (fun entry => verdict_eqb (verdict_of entry) v) edgeFaces).

End Classification.

(** The kept edges of a mesh: [featureEdges] when the filter loop ends. *)
Definition kept_edges `{Platform} (zones : list Zone.t) (mesh : Mesh.t)
    (opts : Opts.t) : list (index * index) :=
  Filter.featureEdges
    (filter_edges zones opts (Mesh.positions mesh) (faceNormals_of mesh)
       (edgeFaces_of mesh)).

Definition final_stats `{Platform} (zones : list Zone.t) (mesh : Mesh.t)
    (opts : Opts.t) : Stats.t :=
  Filter.stats
    (filter_edges zones opts (Mesh.positions mesh) (faceNormals_of mesh)
       (edgeFaces_of mesh)).

(** ** Specification-side definitions

    What the statements below compare the code with, written from the
    words of the specification. *)

(** The text of the key whose parts are [x] and [y], in this order. *)
Definition key_text (x y : option N) : string :=
  template x ++ "_" ++ template y.

(** The pushes of the adjacency builder in the order it makes them: for
    each face in turn, its three edges in winding order. *)
Definition pushes_of (mesh : Mesh.t) (faces : list nat) : list (nat * string) :=
  flat_map (fun f => map (pair f) (face_edges mesh f)) faces.

(** The faces pushed under the key [ek], in discovery order. *)
Definition pushed_under (ek : string) (pushes : list (nat * string)) : list nat :=
  map fst (filter (fun p => snd p =? ek) pushes).

(** The edge filter of section 4.5 of the specification for one edge of
    the adjacency map, with the angle threshold (in degrees), the
    minimum length and the zone name that its step 2 resolved given as
    [threshold], [minLength] and [zoneName]: the hard floor first, then
    the classification by the number of adjacent faces (an entry of the
    adjacency map has one at least). Kept edges are accumulated and the
    categories tallied, globally and, for the three categories a zone
    records, under the zone name. *)
Definition spec_filter_step `{Platform} (threshold minLength : number)
    (zoneName : string) (opts : Opts.t) (positions : list number)
    (faceNormals : list vec3) (st : Filter.t) (entry : string * list nat) : Filter.t :=
  let ends := edge_ends (fst entry) in
  let faces := snd entry in
  let len := dist (getVertex positions (fst ends)) (getVertex positions (snd ends)) in
  let accumulated := Filter.featureEdges st ++ [ends] in
  if (len <? minLength)%float then
    Filter.Make (Filter.featureEdges st) (st_tooShort (Filter.stats st))
      (zoneStats_bump zs_tooShort zoneName (Filter.zoneStats st))
  else
    match List.length faces with
    | 1 =>
        if Opts.boundary opts
        then Filter.Make accumulated (st_boundary (Filter.stats st)) (Filter.zoneStats st)
        else st
    | 2 =>
        if (radians threshold <? dihedral_angle faceNormals faces)%float then
          Filter.Make accumulated (st_sharp (Filter.stats st))
            (zoneStats_bump zs_sharp zoneName (Filter.zoneStats st))
        else if (Opts.featureLength opts <? len)%float then
          Filter.Make accumulated (st_long (Filter.stats st)) (Filter.zoneStats st)
        else
          Filter.Make (Filter.featureEdges st) (st_coplanar (Filter.stats st))
            (zoneStats_bump zs_coplanar zoneName (Filter.zoneStats st))
    | _ => Filter.Make accumulated (st_nonManifold (Filter.stats st)) (Filter.zoneStats st)
    end.

(** The total the kept categories add up to. *)
Definition kept_total (s : Stats.t) : nat :=
  Stats.sharp s + Stats.long s + Stats.boundary s + Stats.nonManifold s.

(** Accessor [k] of the document with the buffer view it names, when
    the accessor list, the view list, the accessor, its [bufferView] and
    the view are all there. *)
Definition accessor_view (gltf : Gltf.t) (k : nat) : option (Accessor.t * BufferView.t) :=
  match Gltf.accessors gltf, Gltf.bufferViews gltf with
  | Some accessors, Some views =>
      match nth_error accessors k with
      | Some acc =>
          match Accessor.bufferView acc with
          | Some i =>
              match nth_error views (N.to_nat i) with
              | Some view => Some (acc, view)
              | None => None
              end
          | None => None
          end
      | None => None
      end
  | _, _ => None
  end.


(** The declared index component type is neither of the recognized
    widths. *)
Definition unsupported_type (componentType : option N) : Prop :=
  componentType <> Some 5123%N /\ componentType <> Some 5125%N.




(** ** Auxiliary definitions

    Notions the proofs below are stated with. *)

(** A text of decimal digits only. *)
Fixpoint all_digits (s : string) : bool :=
  match s with
  | EmptyString => true
  | String c r => match digit_of_ascii c with Some _ => all_digits r | None => false end
  end.

(** The value of a decimal numeral read after the digits that gave
    [acc]. *)
Fixpoint uint_value (d : uint) (acc : N) : N :=
  match d with
  | Nil => acc
  | D0 l => uint_value l (10 * acc + 0)
  | D1 l => uint_value l (10 * acc + 1)
  | D2 l => uint_value l (10 * acc + 2)
  | D3 l => uint_value l (10 * acc + 3)
  | D4 l => uint_value l (10 * acc + 4)
  | D5 l => uint_value l (10 * acc + 5)
  | D6 l => uint_value l (10 * acc + 6)
  | D7 l => uint_value l (10 * acc + 7)
  | D8 l => uint_value l (10 * acc + 8)
  | D9 l => uint_value l (10 * acc + 9)
  end%N.

(** A text with no underscore in it. *)
Fixpoint no_underscore (s : string) : bool :=
  match s with
  | EmptyString => true
  | String c r => (negb (Ascii.eqb c "_") && no_underscore r)%bool
  end.

(** A key the adjacency builder can make. *)
Definition well_formed_key (ek : string) : Prop :=
  exists x y, ek = key_text x y.

(** The keys of a map, in insertion order. *)
Definition keys {K V : Type} (m : list (K * V)) : list K := map fst m.

(** One push of the adjacency builder. *)
Definition push (edgeFaces : edge_map) (p : nat * string) : edge_map :=
  add_face (fst p) edgeFaces (snd p).

(** Whether the branch of a verdict pushes the edge. *)
Definition pushes_edge (v : verdict) : bool :=
  match v with
  | BoundaryKept | Sharp | Long | NonManifold => true
  | TooShort | BoundaryDropped | Coplanar => false
  end.

(** The counter a verdict increments. *)
Definition counter (v : verdict) (s : Stats.t) : nat :=
  match v with
  | TooShort => Stats.tooShort s
  | BoundaryKept => Stats.boundary s
  | BoundaryDropped => 0
  | Sharp => Stats.sharp s
  | Long => Stats.long s
  | Coplanar => Stats.coplanar s
  | NonManifold => Stats.nonManifold s
  end.

(** The names the per-zone statistics are kept under. *)
Definition zone_names (zones : list Zone.t) : list string :=
  default_zone_name :: map Zone.name zones.

(** ** Auxiliary definitions, continued

    Notions the further properties are stated with. *)

(** A binary64 value that is not below zero: a zero, a positive value or NaN. *)
Definition not_negative (x : spec_float) : Prop :=
  match x with
  | S754_infinity true | S754_finite true _ _ => False
  | _ => True
  end.

(** A vector with a NaN coordinate. *)
Definition has_nan (v : vec3) : Prop :=
  vx v = PrimFloat.nan \/ vy v = PrimFloat.nan \/ vz v = PrimFloat.nan.

(** An index that does not name three values of the position array:
    NaN, negative, or with its third coordinate past the end. *)
Definition outside (positions : list number) (i : index) : Prop :=
  match i with
  | None => True
  | Some z => (z < 0 \/ Z.of_nat (List.length positions) <= z * 3 + 2)%Z
  end.

(** The number of face ids an adjacency map holds, over all its entries. *)
Definition total_faces (m : edge_map) : nat :=
  list_sum (map (fun e => List.length (snd e)) m).

(** A field of the per-zone statistics, added up over the zones. *)
Definition zone_total (field : ZoneStat.t -> nat) (zs : zone_stats) : nat :=
  list_sum (map (fun e => field (snd e)) zs).

(** Output vertex [i]: the three entries of the output vertex list at
    [3 i], [3 i + 1] and [3 i + 2], when they are there. *)
Definition output_vertex (vertices : list (option number)) (i : nat)
    : option (option number * option number * option number) :=
  match nth_error vertices (3 * i), nth_error vertices (3 * i + 1),
        nth_error vertices (3 * i + 2) with
  | Some x, Some y, Some z => Some (x, y, z)
  | _, _, _ => None
  end.

(** Segment [k] of an output: the coordinates of the two output
    vertices that entries [2 k] and [2 k + 1] of its index list name. *)
Definition output_segment (out : Output.t) (k : nat)
    : option ((option number * option number * option number)
              * (option number * option number * option number)) :=
  match nth_error (Output.indices out) (2 * k),
        nth_error (Output.indices out) (2 * k + 1) with
  | Some (Some i), Some (Some j) =>
      match output_vertex (Output.vertices out) i,
            output_vertex (Output.vertices out) j with
      | Some a, Some b => Some (a, b)
      | _, _ => None
      end
  | _, _ => None
  end.

(** The coordinates of the two ends of an edge, as the position array
    reads them. *)
Definition end_coordinates (positions : list number) (e : index * index) :=
  (getVertex_raw positions (fst e), getVertex_raw positions (snd e)).

(** The edge with ends [e] is included in the output of the extraction:
    it is edge number [k] of those the filter kept, for some [k], and
    segment [k] of the returned output is made of the coordinates of its
    two ends. *)
Definition included `{Platform} (zones : list Zone.t) (mesh : Mesh.t) (opts : Opts.t)
    (e : index * index) : Prop :=
  exists k,
    nth_error (kept_edges zones mesh opts) k = Some e
    /\ output_segment (extract_mesh zones mesh opts) k
       = Some (end_coordinates (Mesh.positions mesh) e).

(** The endpoints of a list of edges, in the order the output index
    list has them. *)
Definition endpoints (edges : list (index * index)) : list index :=
  flat_map (fun e => [fst e; snd e]) edges.

(** The three values of a vertex as the compaction loop pushes them. *)
Definition coordinates (positions : list number) (v : index) : list (option number) :=
  let '(x, y, z) := getVertex_raw positions v in [x; y; z].

(** The members of a [Set] filled from a list, in insertion order, on
    top of the members [acc]. *)
Definition first_uses (acc l : list index) : list index :=
  fold_left (fun used v => Set_add index_eqb v used) l acc.

(** Where the view of accessor [acc] over [view] starts in the
    [ArrayBuffer] under [buffer]. *)
Definition view_start (buffer : NodeBuffer.t) (acc : Accessor.t) (view : BufferView.t) : N :=
  (NodeBuffer.byteOffset buffer
   + (or_zero (BufferView.byteOffset view) + or_zero (Accessor.byteOffset acc)))%N.

(** The options of [parseArgs] that take the next word as their value. *)
Definition takes_value (a : string) : bool :=
  ((a =? "--input") || (a =? "--output") || (a =? "--threshold")
   || (a =? "--min-length") || (a =? "--feature-length"))%bool.

(** Whether the loop of [parseArgs] ends on an option that takes a
    value, with no word left for it. *)
Fixpoint dangling (args : list string) : bool :=
  match args with
  | [] => false
  | a :: rest =>
      if takes_value a
      then match rest with
           | [] => true
           | _ :: rest' => dangling rest'
           end
      else dangling rest
  end.

(** ** Reference data

    A platform to evaluate the model on. [Math.acos] is the routine of
    fdlibm ([e_acos.c]), which V8 uses: exact at 1 and -1, a rational
    approximation on each of three ranges of the argument. The JSON
    reader and writer and the path functions are stand-ins that suffice
    to run the examples. A file of 1 to 4095 bytes is read into the
    start of a fresh pool of 8192 bytes, whose other bytes are [filler]
    over and over; an empty file and a longer one have an [ArrayBuffer]
    of their own. Every write goes through but those under [nodir/],
    which leave the file system as it was. *)

Definition acos_ratio (z : number) : number :=
  let p := (z * (0x1.5555555555555p-3 + z * (-0x1.4d61203eb6f7dp-2 +
            z * (0x1.9c1550e884455p-3 + z * (-0x1.48228b5688f3bp-5 +
            z * (0x1.9efe07501b288p-11 + z * 0x1.23de10dfdf709p-15))))))%float in
  let q := (1 + z * (-0x1.33a271c8a2d4bp+1 + z * (0x1.02ae59c598ac8p+1 +
            z * (-0x1.6066c1b8d0159p-1 + z * 0x1.3b8c5b12e9282p-4))))%float in
  (p / q)%float.

(** [SET_LOW_WORD(x, 0)]: the low 32 bits of the representation of [x]
    cleared. *)
Definition clear_low_word (x : number) : number :=
  match Prim2SF x with
  | S754_finite s m e =>
      match (Z.pos m / 2 ^ 32 * 2 ^ 32)%Z with
      | Z.pos m' => SF2Prim (S754_finite s m' e)
      | _ => SF2Prim (S754_zero s)
      end
  | _ => x
  end.

Definition acos_ref (x : number) : number :=
  let pio2_hi := 0x1.921fb54442d18p+0%float in
  let pio2_lo := 0x1.1a62633145c07p-54%float in
  if PrimFloat.is_nan x then PrimFloat.nan
  else if (1 <=? PrimFloat.abs x)%float then
    if (x =? 1)%float then 0%float
    else if (x =? -1)%float then (Math_PI + 2 * pio2_lo)%float
    else PrimFloat.nan
  else if (PrimFloat.abs x <? 0.5)%float then
    if (PrimFloat.abs x <? 0x1.00001p-57)%float then (pio2_hi + pio2_lo)%float
    else (pio2_hi - (x - (pio2_lo - acos_ratio (x * x) * x)))%float
  else if get_sign x then
    let z := ((1 + x) * 0.5)%float in
    let s := Math_sqrt z in
    let w := (acos_ratio z * s - pio2_lo)%float in
    (Math_PI - 2 * (s + w))%float
  else
    let z := ((1 - x) * 0.5)%float in
    let s := Math_sqrt z in
    let df := clear_low_word s in
    let c := ((z - df * df) / (s + df))%float in
    let w := (acos_ratio z * s + c)%float in
    (2 * (df + w))%float.

(** The bytes a pool of 8192 bytes holds after a file of [size] bytes
    at its start: [filler] over and over. *)
Fixpoint repeat_to (filler : list ascii) (n : nat) (current : list ascii) : list ascii :=
  match n with
  | O => []
  | S k =>
      match current with
      | c :: rest => c :: repeat_to filler k rest
      | [] =>
          match filler with
          | c :: rest => c :: repeat_to filler k rest
          | [] => "000"%char :: repeat_to filler k []
          end
      end
  end.

Definition pool_ref (filler content : string) : string * string :=
  let size := N.of_nat (String.length content) in
  if ((0 <? size) && (size <? 4096))%N
  then ("", string_of_list_ascii
              (repeat_to (list_ascii_of_string filler) (N.to_nat (8192 - size)) []))
  else ("", "").

(** The reference reader knows one document, [doc], whatever the text;
    its pool is filled with [filler]. *)
Definition ref_platform_with (filler : string) (doc : option Gltf.t) : Platform :=
  {| Math_acos := acos_ref;
     JSON_parse := fun _ => doc;
     JSON_stringify := fun _ => "{}";
     resolve := String.concat "/";
     dirname := fun _ => ".";
     Buffer_pool := pool_ref filler;
     write_fails := fun w path _ => if String.prefix "nodir/" path then Some (w path) else None |}.

Definition ref_platform (doc : option Gltf.t) : Platform := ref_platform_with "" doc.

(** A flat unit square split along the diagonal 0-2. *)
Definition square_mesh : Mesh.t :=
  Mesh.Make [0; 0; 0;  1; 0; 0;  1; 1; 0;  0; 1; 0]%float
    [0; 1; 2;  0; 2; 3]%N (Some 4%N) 2%float.


(** Three triangles around the edge 0-1 (a non-manifold edge). *)
Definition fin_mesh : Mesh.t :=
  Mesh.Make [0; 0; 0;  1; 0; 0;  0; 1; 0;  0; -1; 0;  0; 0; 1]%float
    [0; 1; 2;  1; 0; 3;  0; 1; 4]%N (Some 5%N) 3%float.

(** The scenario options of the specification: threshold 10 degrees, no
    length floor, feature length 1000. *)
Definition scenario_opts : Opts.t :=
  Opts.Make (Some "model.gltf") (Some "out.json") 10%float 0%float 1000%float
    true true false.

(** The payload of [square_mesh]: twelve binary32 values, then six
    16-bit indices, in little-endian order. *)
Definition square_payload : string :=
  let zero := [0; 0; 0; 0]%N in
  let one := [0; 0; 128; 63]%N in
  string_of_list_ascii (map ascii_of_N
    (zero ++ zero ++ zero ++ one ++ zero ++ zero ++
     one ++ one ++ zero ++ zero ++ one ++ zero ++
     [0; 0; 1; 0; 2; 0; 0; 0; 2; 0; 3; 0]%N)).

(** A document for that payload: positions at byte 0, indices at byte 48
    with component type [componentType], and the position [count]
    given. *)
Definition square_doc (posCount componentType : option N) : Gltf.t :=
  Gltf.Make (Some [BufferRef.Make (Some "model.bin")])
    (Some [Accessor.Make (Some 0%N) None posCount (Some 5126%N);
           Accessor.Make (Some 1%N) None (Some 6%N) componentType])
    (Some [BufferView.Make None; BufferView.Make (Some 48%N)]).


(** A file system with the model, its payload and nothing else. *)
Definition square_world : world :=
  fun path =>
    if path =? "model.gltf" then Some "{}"
    else if path =? "./model.bin" then Some square_payload
    else None.

(** The reference platform with no document to read. *)
Definition ref : Platform := ref_platform None.


(** Documents for [square_payload]: a well-formed one, one whose index
    component type is 5121 ([UNSIGNED_BYTE]), and one whose position
    accessor has no [count]. *)
Definition good_doc : Gltf.t := square_doc (Some 4%N) (Some 5123%N).
Definition unsupported_doc : Gltf.t := square_doc (Some 4%N) (Some 5121%N).


(** A unit cube, two triangles a side, wound counter-clockwise seen from
    outside; vertex [x + 2 y + 4 z] is at (x, y, z). *)
Definition cube_mesh : Mesh.t :=
  Mesh.Make
    [0; 0; 0;  1; 0; 0;  0; 1; 0;  1; 1; 0;
     0; 0; 1;  1; 0; 1;  0; 1; 1;  1; 1; 1]%float
    [0; 2; 3;  0; 3; 1;  4; 5; 7;  4; 7; 6;
     0; 1; 5;  0; 5; 4;  2; 6; 7;  2; 7; 3;
     0; 4; 6;  0; 6; 2;  1; 3; 7;  1; 7; 5]%N
    (Some 8%N) 12%float.

(** One zone over the whole cube, with the threshold given. *)
Definition cube_zone (threshold : number) : list Zone.t :=
  [Zone.Make "Cube" 0 1 0 1 0 1 threshold 0]%float.

(** The payload of [square_mesh] laid out over 4096 bytes, a size at
    which the file read has an [ArrayBuffer] of its own: the twelve
    binary32 values, zero bytes, and the six 16-bit indices in the last
    twelve bytes. *)
Definition padded_payload : string :=
  (substring 0 48 square_payload
   ++ string_of_list_ascii (repeat "000"%char (N.to_nat 4036))
   ++ substring 48 12 square_payload)%string.

Definition padded_world : world :=
  fun path =>
    if path =? "model.gltf" then Some "{}"
    else if path =? "./model.bin" then Some padded_payload
    else None.

(** A document for that payload: positions at byte 0 with the [count]
    given, 16-bit indices at byte 4084 with the [count] given. *)
Definition padded_doc (posCount idxCount : option N) : Gltf.t :=
  Gltf.Make (Some [BufferRef.Make (Some "model.bin")])
    (Some [Accessor.Make (Some 0%N) None posCount (Some 5126%N);
           Accessor.Make (Some 1%N) None idxCount (Some 5123%N)])
    (Some [BufferView.Make None; BufferView.Make (Some 4084%N)]).

(** A document for [padded_payload] whose index accessor has no
    [count], and the mesh it loads: the index array takes the rest of
    the [ArrayBuffer], here the rest of the payload, and the triangle
    count is NaN. *)
Definition uncounted_doc : Gltf.t := padded_doc (Some 4%N) None.

Definition uncounted_mesh : Mesh.t :=
  Mesh.Make [0; 0; 0;  1; 0; 0;  1; 1; 0;  0; 1; 0]%float
    [0; 1; 2;  0; 2; 3]%N (Some 4%N) PrimFloat.nan.

(** The same for the short payload of [square_world], which is read
    into the pool. *)
Definition uncounted_short_doc : Gltf.t :=
  Gltf.Make (Some [BufferRef.Make (Some "model.bin")])
    (Some [Accessor.Make (Some 0%N) None (Some 4%N) (Some 5126%N);
           Accessor.Make (Some 1%N) None None (Some 5123%N)])
    (Some [BufferView.Make None; BufferView.Make (Some 48%N)]).

(** Documents whose position accessor counts more vertices than the
    payload holds: 100 over the 60 bytes of [square_payload], 1000 over
    the 4096 bytes of [padded_payload]. *)
Definition overlong_doc : Gltf.t := square_doc (Some 100%N) (Some 5123%N).
Definition overlong_padded_doc : Gltf.t := padded_doc (Some 1000%N) (Some 6%N).

(** A document for [square_payload] whose index accessor counts nine
    indices, three more than the payload holds. *)
Definition nine_doc : Gltf.t :=
  Gltf.Make (Some [BufferRef.Make (Some "model.bin")])
    (Some [Accessor.Make (Some 0%N) None (Some 4%N) (Some 5126%N);
           Accessor.Make (Some 1%N) None (Some 9%N) (Some 5123%N)])
    (Some [BufferView.Make None; BufferView.Make (Some 48%N)]).




(** Another platform: its arc cosine is that of the reference on the
    numbers from -1 to 1 and on NaN, and 0 elsewhere; its pool is filled
    with the bytes 1 and 0 in turn; its serializer writes another text;
    every write fails and leaves no file. *)
Definition other_platform (doc : option Gltf.t) : Platform :=
  {| Math_acos := fun x =>
       if (PrimFloat.is_nan x || ((-1 <=? x)%float && (x <=? 1)%float))%bool
       then acos_ref x else 0%float;
     JSON_parse := fun _ => doc;
     JSON_stringify := fun _ => "[]";
     resolve := String.concat "/";
     dirname := fun _ => ".";
     Buffer_pool := pool_ref (String "001"%char (String "000"%char EmptyString));
     write_fails := fun _ _ _ => Some None |}.

(** * Properties *)

(** ** Facts on binary64 comparisons *)

Lemma SFcompare_antisym (a b : spec_float) :
  SFcompare b a = option_map CompOpp (SFcompare a b).
Proof.
  destruct a as [sa|sa| |sa ma ea], b as [sb|sb| |sb mb eb]; try reflexivity;
    try (destruct sa; reflexivity); try (destruct sb; reflexivity);
    try (destruct sa, sb; reflexivity).
  unfold SFcompare.
  rewrite (Z.compare_antisym eb ea).
  change (Pos.compare_cont Eq mb ma) with (Pos.compare mb ma).
  change (Pos.compare_cont Eq ma mb) with (Pos.compare ma mb).
  rewrite (Pos.compare_antisym mb ma).
  destruct sa, sb, (eb ?= ea)%Z, (mb ?= ma)%positive; reflexivity.
Qed.

(** A length that is at least the floor is not below it. *)
Lemma at_least_not_below (x y : number) :
  (y <=? x)%float = true -> (x <? y)%float = false.
Proof.
  rewrite FloatAxioms.leb_spec, FloatAxioms.ltb_spec. unfold SFleb, SFltb.
  rewrite (SFcompare_antisym (Prim2SF y) (Prim2SF x)).
  destruct (SFcompare (Prim2SF y) (Prim2SF x)) as [[]|]; simpl; congruence.
Qed.

Lemma ltb_nan_l (x : number) : (PrimFloat.nan <? x)%float = false.
Proof. rewrite FloatAxioms.ltb_spec. reflexivity. Qed.

Lemma ltb_nan_r (x : number) : (x <? PrimFloat.nan)%float = false.
Proof. rewrite FloatAxioms.ltb_spec. unfold SFltb. rewrite SFcompare_antisym. reflexivity. Qed.


Lemma leb_refl_left (x y : number) : (x <=? y)%float = true -> (x <=? x)%float = true.
Proof.
  rewrite !FloatAxioms.leb_spec. unfold SFleb.
  destruct (Prim2SF x) as [s|s| |s m e], (Prim2SF y) as [s'|s'| |s' m' e'];
    try discriminate; intros _; try reflexivity;
    try (destruct s; reflexivity);
    unfold SFcompare; rewrite Z.compare_refl;
    change (Pos.compare_cont Eq m m) with (Pos.compare m m);
    rewrite Pos.compare_refl; destruct s; reflexivity.
Qed.

Lemma leb_refl_right (x y : number) : (x <=? y)%float = true -> (y <=? y)%float = true.
Proof.
  rewrite !FloatAxioms.leb_spec. unfold SFleb.
  destruct (Prim2SF x) as [s|s| |s m e], (Prim2SF y) as [s'|s'| |s' m' e'];
    try discriminate; intros _; try reflexivity;
    try (destruct s'; reflexivity);
    unfold SFcompare; rewrite Z.compare_refl;
    change (Pos.compare_cont Eq m' m') with (Pos.compare m' m');
    rewrite Pos.compare_refl; destruct s'; reflexivity.
Qed.

(** ** Facts on keys *)

Lemma uint_value_pos (d : uint) (p : positive) :
  uint_value d (Npos p) = Npos (Pos.of_uint_acc d p).
Proof.
  revert p; induction d; intro p; cbn [uint_value Pos.of_uint_acc];
    try reflexivity; rewrite <- IHd; f_equal; lia.
Qed.

Lemma uint_value_zero (d : uint) : uint_value d 0 = N.of_uint d.
Proof.
  induction d; cbn [uint_value N.of_uint Pos.of_uint];
    try reflexivity; try assumption;
    rewrite <- uint_value_pos; reflexivity.
Qed.

Lemma all_digits_uint (d : uint) : all_digits (NilEmpty.string_of_uint d) = true.
Proof. induction d; simpl; auto. Qed.

Lemma read_digits_uint (d : uint) (r : string) (acc : N) (count : nat) :
  read_digits digit_of_ascii 10 (NilEmpty.string_of_uint d ++ r)%string acc count =
  read_digits digit_of_ascii 10 r (uint_value d acc) (Decimal.nb_digits d + count).
Proof.
  revert acc count; induction d; intros acc count; simpl; try reflexivity;
    rewrite IHd; f_equal; lia.
Qed.

Lemma read_digits_all (s : string) (acc : N) (count : nat) :
  all_digits s = true ->
  exists v, read_digits digit_of_ascii 10 s acc count
            = (v, (String.length s + count)%nat, EmptyString).
Proof.
  revert acc count; induction s as [|c r IH]; intros acc count Hd.
  - exists acc. reflexivity.
  - cbn [all_digits] in Hd. cbn [read_digits String.length].
    destruct (digit_of_ascii c) as [d|]; [|discriminate].
    destruct (IH (10 * acc + d)%N (S count) Hd) as [v Hv].
    exists v. rewrite Hv. f_equal. f_equal. lia.
Qed.

Lemma append_empty_r (s : string) : (s ++ "")%string = s.
Proof. induction s; simpl; congruence. Qed.

Lemma append_assoc (s1 s2 s3 : string) :
  ((s1 ++ s2) ++ s3 = s1 ++ (s2 ++ s3))%string.
Proof. induction s1; simpl; congruence. Qed.

Lemma string_of_N_digits (n : N) : all_digits (string_of_N n) = true.
Proof. apply all_digits_uint. Qed.

Lemma string_of_N_value (n : N) :
  read_digits digit_of_ascii 10 (string_of_N n) 0 0 =
  (n, Decimal.nb_digits (N.to_uint n), EmptyString).
Proof.
  unfold string_of_N.
  rewrite <- (append_empty_r (NilEmpty.string_of_uint (N.to_uint n))).
  rewrite read_digits_uint. cbn [read_digits].
  rewrite uint_value_zero, DecimalN.Unsigned.of_to. f_equal. f_equal. lia.
Qed.

Lemma string_of_N_nonempty (n : N) : exists c r, string_of_N n = String c r.
Proof.
  unfold string_of_N.
  assert (Hnil : N.to_uint n <> Nil).
  { destruct n; [discriminate | apply DecimalPos.Unsigned.to_uint_nonnil]. }
  destruct (N.to_uint n); try contradiction; simpl; eauto.
Qed.

Lemma digit_cases (c : ascii) (d : N) :
  digit_of_ascii c = Some d ->
  In c ["0"; "1"; "2"; "3"; "4"; "5"; "6"; "7"; "8"; "9"]%char.
Proof.
  destruct c as [[] [] [] [] [] [] [] []]; vm_compute; intro Hd;
    try discriminate; tauto.
Qed.

Lemma parseInt_digits (s : string) (v : N) (k : nat) (rest : string) :
  all_digits s = true ->
  read_digits digit_of_ascii 10 s 0 0 = (v, S k, rest) ->
  parseInt s = Some (Z.of_N v).
Proof.
  intros Hd Hr. destruct s as [|c r]; [discriminate|].
  cbn [all_digits] in Hd.
  destruct (digit_of_ascii c) as [d|] eqn:Hc; [|discriminate].
  apply digit_cases in Hc. unfold parseInt.
  assert (Hdefault :
    (let (neg, s1) := read_sign (trim_start (String c r)) in
     let '(v, count, _) :=
       match s1 with
       | String "0" (String "x" r) | String "0" (String "X" r) =>
           read_digits hex_digit_of_ascii 16 r 0 0
       | _ => read_digits digit_of_ascii 10 s1 0 0
       end in
     match count with
     | O => None
     | S _ => Some (if neg then - Z.of_N v else Z.of_N v)%Z
     end) =
    (let '(v, count, _) := read_digits digit_of_ascii 10 (String c r) 0 0 in
     match count with O => None | S _ => Some (Z.of_N v) end)).
  { simpl in Hc.
    repeat (destruct Hc as [<- | Hc]; [try reflexivity|]); try contradiction.
    destruct r as [|c2 r2]; [reflexivity|].
    cbn [all_digits] in Hd.
    destruct (digit_of_ascii c2) as [d2|] eqn:Hc2; [|discriminate].
    apply digit_cases in Hc2. simpl in Hc2.
    repeat (destruct Hc2 as [<- | Hc2]; [reflexivity|]); contradiction. }
  rewrite Hdefault, Hr. reflexivity.
Qed.

Lemma parseInt_string_of_N (n : N) : parseInt (string_of_N n) = Some (Z.of_N n).
Proof.
  destruct (string_of_N_nonempty n) as (c & r & Hs).
  pose proof (string_of_N_value n) as Hv.
  pose proof (string_of_N_digits n) as Hd.
  destruct (read_digits_all (string_of_N n) 0 0 Hd) as [v Hv'].
  rewrite Hs in Hd, Hv' |- *. cbn [String.length plus] in Hv'.
  rewrite <- Hs in Hv' at 1. rewrite Hv in Hv'.
  injection Hv' as Hn Hk. rewrite Hk, Hs in Hv.
  eapply parseInt_digits; eassumption.
Qed.

Lemma parseInt_template (i : option N) : parseInt (template i) = index_of_N i.
Proof.
  destruct i as [n|]; [apply parseInt_string_of_N | reflexivity].
Qed.

Lemma str_split_cons (c : ascii) (s : string) :
  exists p ps, str_split c s = p :: ps.
Proof.
  induction s as [|h r (p & ps & IH)]; simpl; eauto.
  rewrite IH. destruct (Ascii.eqb h c); eauto.
Qed.

Lemma str_split_whole (s : string) :
  no_underscore s = true -> str_split "_" s = [s].
Proof.
  induction s as [|h r IH]; simpl; [reflexivity|].
  intros [Hh Hr]%andb_prop. rewrite (IH Hr).
  destruct (Ascii.eqb h "_"); [discriminate | reflexivity].
Qed.

Lemma str_split_at (s1 s2 : string) :
  no_underscore s1 = true ->
  str_split "_" (s1 ++ String "_" s2) = s1 :: str_split "_" s2.
Proof.
  induction s1 as [|h r IH]; simpl; [reflexivity|].
  intros [Hh Hr]%andb_prop. rewrite (IH Hr).
  destruct (Ascii.eqb h "_"); [discriminate | reflexivity].
Qed.

Lemma all_digits_no_underscore (s : string) :
  all_digits s = true -> no_underscore s = true.
Proof.
  induction s as [|c r IH]; simpl; [reflexivity|].
  destruct (digit_of_ascii c) as [d|] eqn:Hc; [|discriminate].
  intro Hr. rewrite (IH Hr), andb_true_r.
  apply digit_cases in Hc. simpl in Hc.
  repeat (destruct Hc as [<- | Hc]; [reflexivity|]); contradiction.
Qed.

Lemma template_no_underscore (i : option N) : no_underscore (template i) = true.
Proof.
  destruct i as [n|]; [|reflexivity].
  apply all_digits_no_underscore, string_of_N_digits.
Qed.

Lemma edge_ends_key_text (x y : option N) :
  edge_ends (key_text x y) = (index_of_N x, index_of_N y).
Proof.
  unfold edge_ends, key_text.
  change (template x ++ "_" ++ template y)%string
    with (template x ++ String "_" (template y))%string.
  rewrite str_split_at by apply template_no_underscore.
  rewrite str_split_whole by apply template_no_underscore.
  unfold parseInt_part; cbn [nth_error].
  now rewrite !parseInt_template.
Qed.

Lemma edgeKey_text (a b : option N) :
  edgeKey a b = if js_lt a b then key_text a b else key_text b a.
Proof. reflexivity. Qed.

Lemma index_of_N_inj (x y : option N) : index_of_N x = index_of_N y -> x = y.
Proof.
  destruct x, y; simpl; intro Heq; try congruence.
  injection Heq as Heq. apply N2Z.inj in Heq. congruence.
Qed.

Lemma key_text_ends_inj (x y x' y' : option N) :
  edge_ends (key_text x y) = edge_ends (key_text x' y') ->
  key_text x y = key_text x' y'.
Proof.
  rewrite !edge_ends_key_text. intro Heq. injection Heq as Hx Hy.
  apply index_of_N_inj in Hx, Hy. now subst.
Qed.

Lemma edgeKey_well_formed (a b : option N) : well_formed_key (edgeKey a b).
Proof.
  rewrite edgeKey_text. destruct (js_lt a b); [exists a, b | exists b, a]; reflexivity.
Qed.

Lemma well_formed_ends_inj (ek ek' : string) :
  well_formed_key ek -> well_formed_key ek' ->
  edge_ends ek = edge_ends ek' -> ek = ek'.
Proof.
  intros (x & y & ->) (x' & y' & ->). apply key_text_ends_inj.
Qed.

(** ** Facts on maps and sets *)

Section MapFacts.
Context {K V : Type} (eqb : K -> K -> bool).
Hypothesis eqb_eq : forall a b, eqb a b = true <-> a = b.

Lemma eqb_refl' (a : K) : eqb a a = true.
Proof. now apply eqb_eq. Qed.

Lemma eqb_false (a b : K) : a <> b -> eqb a b = false.
Proof.
  intro Hne. destruct (eqb a b) eqn:E; [|reflexivity].
  apply eqb_eq in E. contradiction.
Qed.

Lemma Map_has_keys (k : K) (m : list (K * V)) :
  Map_has eqb k m = true <-> In k (keys m).
Proof.
  unfold Map_has, keys. rewrite existsb_exists, in_map_iff. split.
  - intros (e & He & Hk). apply eqb_eq in Hk. eauto.
  - intros (e & Hk & He). exists e. split; [assumption|]. now apply eqb_eq.
Qed.

Lemma Map_get_keys (k : K) (m : list (K * V)) :
  Map_get eqb k m = None <-> ~ In k (keys m).
Proof.
  induction m as [|[k' v] m IH]; simpl; [tauto|].
  destruct (eqb k' k) eqn:E.
  - apply eqb_eq in E. split; [discriminate | tauto].
  - rewrite IH. split; [|tauto].
    intros Hn [Hk|Hk]; [|tauto]. subst. rewrite eqb_refl' in E. discriminate.
Qed.

Lemma Map_get_In (k : K) (v : V) (m : list (K * V)) :
  Map_get eqb k m = Some v -> In (k, v) m.
Proof.
  induction m as [|[k' v'] m IH]; simpl; [discriminate|].
  destruct (eqb k' k) eqn:E.
  - apply eqb_eq in E. intro Hv. left. congruence.
  - auto.
Qed.

Lemma In_Map_get (k : K) (v : V) (m : list (K * V)) :
  NoDup (keys m) -> In (k, v) m -> Map_get eqb k m = Some v.
Proof.
  induction m as [|[k' v'] m IH]; simpl; [tauto|].
  intros Hnd [Heq|Hin].
  - injection Heq as -> ->. now rewrite eqb_refl'.
  - inversion Hnd as [|? ? Hk' Hnd']; subst.
    rewrite eqb_false; [now apply IH|].
    intros ->. apply Hk'. unfold keys. apply in_map_iff. now exists (k, v).
Qed.

Lemma Map_get_set_same (k : K) (v : V) (m : list (K * V)) :
  Map_get eqb k (Map_set eqb k v m) = Some v.
Proof.
  induction m as [|[k' v'] m IH]; simpl.
  - now rewrite eqb_refl'.
  - destruct (eqb k' k) eqn:E; simpl; [now rewrite eqb_refl' | now rewrite E].
Qed.

Lemma Map_get_set_other (k k' : K) (v : V) (m : list (K * V)) :
  k <> k' -> Map_get eqb k' (Map_set eqb k v m) = Map_get eqb k' m.
Proof.
  intro Hne. induction m as [|[k0 v0] m IH]; simpl.
  - now rewrite eqb_false.
  - destruct (eqb k0 k) eqn:E; simpl.
    + apply eqb_eq in E. subst k0. now rewrite !eqb_false.
    + now rewrite IH.
Qed.

Lemma keys_Map_set (k : K) (v : V) (m : list (K * V)) :
  keys (Map_set eqb k v m) = if Map_has eqb k m then keys m else keys m ++ [k].
Proof.
  induction m as [|[k' v'] m IH]; simpl; [reflexivity|].
  destruct (eqb k' k) eqn:E; simpl.
  - apply eqb_eq in E. now subst.
  - rewrite IH. fold (Map_has eqb k m). now destruct (Map_has eqb k m).
Qed.

Lemma NoDup_snoc (k : K) (l : list K) : NoDup l -> ~ In k l -> NoDup (l ++ [k]).
Proof.
  induction l as [|x l IH]; simpl; intros Hnd Hk.
  - constructor; [tauto | constructor].
  - inversion Hnd; subst. constructor.
    + rewrite in_app_iff. simpl. intuition.
    + apply IH; tauto.
Qed.

Lemma NoDup_keys_Map_set (k : K) (v : V) (m : list (K * V)) :
  NoDup (keys m) -> NoDup (keys (Map_set eqb k v m)).
Proof.
  intro Hnd. rewrite keys_Map_set.
  destruct (Map_has eqb k m) eqn:E; [assumption|].
  apply NoDup_snoc; [assumption|].
  rewrite <- Map_has_keys, E. discriminate.
Qed.

Lemma Set_add_In (k x : K) (s : list K) :
  In x (Set_add eqb k s) <-> x = k \/ In x s.
Proof.
  unfold Set_add. destruct (existsb (fun y => eqb y k) s) eqn:E.
  - split; [tauto|]. intros [->|Hin]; [|assumption].
    apply existsb_exists in E. destruct E as (y & Hy & Hk).
    apply eqb_eq in Hk. now subst.
  - rewrite in_app_iff. simpl. intuition.
Qed.

Lemma Set_add_NoDup (k : K) (s : list K) : NoDup s -> NoDup (Set_add eqb k s).
Proof.
  intro Hnd. unfold Set_add.
  destruct (existsb (fun y => eqb y k) s) eqn:E; [assumption|].
  apply NoDup_snoc; [assumption|].
  intro Hin. assert (Ht : existsb (fun y => eqb y k) s = true).
  { apply existsb_exists. exists k. split; [assumption | apply eqb_refl']. }
  congruence.
Qed.

End MapFacts.

Lemma index_eqb_eq (a b : index) : index_eqb a b = true <-> a = b.
Proof.
  destruct a as [x|], b as [y|]; simpl; try (split; congruence).
  rewrite Z.eqb_eq. split; congruence.
Qed.

(** ** The pushes of the adjacency builder *)

Lemma add_triangle_pushes (mesh : Mesh.t) (faces : list nat) (m : edge_map) :
  fold_left (add_triangle mesh) faces m = fold_left push (pushes_of mesh faces) m.
Proof.
  revert m; induction faces as [|f faces IH]; intro m; [reflexivity|].
  cbn [fold_left pushes_of flat_map]. rewrite fold_left_app, IH. reflexivity.
Qed.

Lemma Map_get_add_face (f : nat) (m : edge_map) (ek ek' : string) :
  Map_get String.eqb ek' (add_face f m ek) =
  if ek =? ek'
  then Some (match Map_get String.eqb ek m with Some l => l | None => [] end ++ [f])
  else Map_get String.eqb ek' m.
Proof.
  unfold add_face.
  destruct (Map_has String.eqb ek m) eqn:Hhas; cbn [negb].
  - destruct (Map_get String.eqb ek m) as [l|] eqn:Hget.
    + destruct (String.eqb_spec ek ek') as [->|Hne].
      * apply (Map_get_set_same _ String.eqb_eq).
      * now apply (Map_get_set_other _ String.eqb_eq).
    + apply (Map_get_keys _ String.eqb_eq) in Hget.
      apply (Map_has_keys _ String.eqb_eq) in Hhas. contradiction.
  - rewrite (Map_get_set_same _ String.eqb_eq).
    assert (Hget : Map_get String.eqb ek m = None).
    { apply (Map_get_keys _ String.eqb_eq). rewrite <- (Map_has_keys _ String.eqb_eq).
      congruence. }
    rewrite Hget.
    destruct (String.eqb_spec ek ek') as [->|Hne].
    + apply (Map_get_set_same _ String.eqb_eq).
    + rewrite !(Map_get_set_other _ String.eqb_eq) by assumption.
      reflexivity.
Qed.

Lemma NoDup_keys_add_face (f : nat) (m : edge_map) (ek : string) :
  NoDup (keys m) -> NoDup (keys (add_face f m ek)).
Proof.
  intro Hnd. unfold add_face.
  set (m1 := if negb (Map_has String.eqb ek m) then Map_set String.eqb ek [] m else m).
  assert (Hnd1 : NoDup (keys m1)).
  { subst m1. destruct (negb (Map_has String.eqb ek m)); [|assumption].
    now apply (NoDup_keys_Map_set _ String.eqb_eq). }
  destruct (Map_get String.eqb ek m1); [|assumption].
  now apply (NoDup_keys_Map_set _ String.eqb_eq).
Qed.

Lemma keys_add_face (f : nat) (m : edge_map) (ek : string) :
  keys (add_face f m ek) = if Map_has String.eqb ek m then keys m else keys m ++ [ek].
Proof.
  unfold add_face.
  destruct (Map_has String.eqb ek m) eqn:Hhas; cbn [negb].
  - destruct (Map_get String.eqb ek m); [|reflexivity].
    rewrite (keys_Map_set _ String.eqb_eq), Hhas. reflexivity.
  - rewrite (Map_get_set_same _ String.eqb_eq).
    rewrite !(keys_Map_set _ String.eqb_eq), Hhas.
    assert (Hin : Map_has String.eqb ek (Map_set String.eqb ek [] m) = true).
    { apply (Map_has_keys _ String.eqb_eq).
      rewrite (keys_Map_set _ String.eqb_eq), Hhas, in_app_iff. simpl. tauto. }
    now rewrite Hin.
Qed.

Lemma Map_get_pushes (pushes : list (nat * string)) (m : edge_map) (ek : string) :
  Map_get String.eqb ek (fold_left push pushes m) =
  match Map_get String.eqb ek m, pushed_under ek pushes with
  | None, [] => None
  | None, l => Some l
  | Some l0, l => Some (l0 ++ l)
  end.
Proof.
  revert m; induction pushes as [|[f k] pushes IH]; intro m.
  - simpl. destruct (Map_get String.eqb ek m); [now rewrite List.app_nil_r | reflexivity].
  - cbn [fold_left]. rewrite IH. unfold push at 1. cbn [fst snd].
    rewrite Map_get_add_face. unfold pushed_under. cbn [filter snd].
    destruct (String.eqb_spec k ek) as [->|Hne].
    + cbn [map fst]. destruct (Map_get String.eqb ek m) as [l0|].
      * now rewrite <- List.app_assoc.
      * reflexivity.
    + reflexivity.
Qed.

Lemma NoDup_keys_pushes (pushes : list (nat * string)) (m : edge_map) :
  NoDup (keys m) -> NoDup (keys (fold_left push pushes m)).
Proof.
  revert m; induction pushes as [|p pushes IH]; intros m Hnd; [assumption|].
  apply IH. now apply NoDup_keys_add_face.
Qed.

Lemma keys_pushes (pushes : list (nat * string)) (m : edge_map) (ek : string) :
  In ek (keys (fold_left push pushes m)) <-> In ek (keys m) \/ In ek (map snd pushes).
Proof.
  revert m; induction pushes as [|[f k] pushes IH]; intro m; simpl; [tauto|].
  rewrite IH. unfold push at 1. cbn [fst snd]. rewrite keys_add_face.
  destruct (Map_has String.eqb k m) eqn:Hhas.
  - apply (Map_has_keys _ String.eqb_eq) in Hhas. intuition (subst; auto).
  - rewrite in_app_iff. simpl. tauto.
Qed.

(** ** The filter loop *)

Section FilterFacts.
Context `{Platform}.
Variables (zones : list Zone.t) (opts : Opts.t) (positions : list number)
          (faceNormals : list vec3).

Let step := filter_edge zones opts positions faceNormals.
Let verdict_of' := verdict_of zones opts positions faceNormals.

(** The loop body, by the branch it takes. *)
Lemma filter_edge_verdict (st : Filter.t) (entry : string * list nat) :
  step st entry =
  let zoneName := effective_zoneName zones opts positions (fst entry) in
  let pushed := Filter.featureEdges st ++ [edge_ends (fst entry)] in
  match verdict_of' entry with
  | TooShort =>
      Filter.Make (Filter.featureEdges st) (st_tooShort (Filter.stats st))
        (zoneStats_bump zs_tooShort zoneName (Filter.zoneStats st))
  | BoundaryKept =>
      Filter.Make pushed (st_boundary (Filter.stats st)) (Filter.zoneStats st)
  | BoundaryDropped => st
  | Sharp =>
      Filter.Make pushed (st_sharp (Filter.stats st))
        (zoneStats_bump zs_sharp zoneName (Filter.zoneStats st))
  | Long => Filter.Make pushed (st_long (Filter.stats st)) (Filter.zoneStats st)
  | Coplanar =>
      Filter.Make (Filter.featureEdges st) (st_coplanar (Filter.stats st))
        (zoneStats_bump zs_coplanar zoneName (Filter.zoneStats st))
  | NonManifold =>
      Filter.Make pushed (st_nonManifold (Filter.stats st)) (Filter.zoneStats st)
  end.
Proof.
  destruct entry as [ek faces].
  subst step verdict_of'.
  unfold filter_edge, verdict_of, too_short, sharper, longer, effective_zoneName,
    effective_minLength, effective_threshold, edge_zone, edge_length, edge_midpoint.
  cbn [fst snd].
  destruct (edge_ends ek) as [a b]. cbn [fst snd].
  repeat match goal with |- context [if ?c then _ else _] => destruct c end;
    reflexivity.
Qed.

Lemma kept_verdict (entry : string * list nat) :
  kept zones opts positions faceNormals entry = pushes_edge (verdict_of' entry).
Proof.
  subst verdict_of'. unfold kept, verdict_of.
  repeat match goal with |- context [if ?c then _ else _] => destruct c end;
    reflexivity.
Qed.

Lemma featureEdges_step (st : Filter.t) (entry : string * list nat) :
  Filter.featureEdges (step st entry) =
  Filter.featureEdges st ++
  (if kept zones opts positions faceNormals entry then [edge_ends (fst entry)] else []).
Proof.
  rewrite filter_edge_verdict, kept_verdict.
  destruct (verdict_of' entry); cbn; try reflexivity; now rewrite List.app_nil_r.
Qed.

Lemma featureEdges_fold (edgeFaces : edge_map) (st : Filter.t) :
  Filter.featureEdges (fold_left step edgeFaces st) =
  Filter.featureEdges st ++
  map (fun entry => edge_ends (fst entry))
    (filter (kept zones opts positions faceNormals) edgeFaces).
Proof.
  revert st; induction edgeFaces as [|e l IH]; intro st; cbn [fold_left filter].
  - now rewrite List.app_nil_r.
  - rewrite IH, featureEdges_step.
    destruct (kept zones opts positions faceNormals e); cbn [map].
    + now rewrite <- List.app_assoc.
    + now rewrite List.app_nil_r.
Qed.

Lemma counter_step (v : verdict) (st : Filter.t) (entry : string * list nat) :
  v <> BoundaryDropped ->
  counter v (Filter.stats (step st entry)) =
  counter v (Filter.stats st) + (if verdict_eqb (verdict_of' entry) v then 1 else 0).
Proof.
  intro Hv. rewrite filter_edge_verdict.
  destruct (verdict_of' entry), v; cbn; try lia; contradiction.
Qed.

Lemma counter_fold (v : verdict) (edgeFaces : edge_map) (st : Filter.t) :
  v <> BoundaryDropped ->
  counter v (Filter.stats (fold_left step edgeFaces st)) =
  counter v (Filter.stats st)
  + count_verdict zones opts positions faceNormals v edgeFaces.
Proof.
  intro Hv. unfold count_verdict.
  revert st; induction edgeFaces as [|e l IH]; intro st; cbn [fold_left filter].
  - cbn. lia.
  - rewrite IH, counter_step by assumption. fold verdict_of'.
    destruct (verdict_eqb (verdict_of' e) v); cbn [List.length]; lia.
Qed.

End FilterFacts.

(** ** The adjacency map of a mesh *)

Lemma edgeFaces_of_pushes (mesh : Mesh.t) :
  edgeFaces_of mesh = fold_left push (pushes_of mesh (faces_of mesh)) [].
Proof. apply add_triangle_pushes. Qed.

Lemma edgeFaces_NoDup (mesh : Mesh.t) : NoDup (keys (edgeFaces_of mesh)).
Proof. rewrite edgeFaces_of_pushes. apply NoDup_keys_pushes. constructor. Qed.

Lemma face_edges_well_formed (mesh : Mesh.t) (f : nat) (ek : string) :
  In ek (face_edges mesh f) -> well_formed_key ek.
Proof.
  unfold face_edges. destruct (face_corners mesh f) as [[i0 i1] i2].
  simpl. intros [<-|[<-|[<-|[]]]]; apply edgeKey_well_formed.
Qed.

Lemma pushes_well_formed (mesh : Mesh.t) (faces : list nat) (ek : string) :
  In ek (map snd (pushes_of mesh faces)) -> well_formed_key ek.
Proof.
  unfold pushes_of. rewrite in_map_iff. intros ([f k] & <- & Hin).
  apply in_flat_map in Hin. destruct Hin as (f' & _ & Hin).
  apply in_map_iff in Hin. destruct Hin as (k' & Heq & Hin).
  injection Heq as -> ->. eapply face_edges_well_formed; eassumption.
Qed.

Lemma edgeFaces_well_formed (mesh : Mesh.t) (ek : string) (faces : list nat) :
  In (ek, faces) (edgeFaces_of mesh) -> well_formed_key ek.
Proof.
  intro Hin. apply (pushes_well_formed mesh (faces_of mesh)).
  assert (Hk : In ek (keys (edgeFaces_of mesh))).
  { unfold keys. apply in_map_iff. now exists (ek, faces). }
  rewrite edgeFaces_of_pushes in Hk. apply keys_pushes in Hk.
  destruct Hk as [[]|Hk]. exact Hk.
Qed.

Lemma edgeFaces_get (mesh : Mesh.t) (ek : string) :
  Map_get String.eqb ek (edgeFaces_of mesh) =
  match pushed_under ek (pushes_of mesh (faces_of mesh)) with
  | [] => None
  | l => Some l
  end.
Proof. rewrite edgeFaces_of_pushes, Map_get_pushes. reflexivity. Qed.

Lemma edgeFaces_entry (mesh : Mesh.t) (ek : string) (faces : list nat) :
  In (ek, faces) (edgeFaces_of mesh) ->
  faces = pushed_under ek (pushes_of mesh (faces_of mesh)).
Proof.
  intro Hin.
  apply (In_Map_get _ String.eqb_eq) in Hin; [|apply edgeFaces_NoDup].
  rewrite edgeFaces_get in Hin.
  destruct (pushed_under ek (pushes_of mesh (faces_of mesh))); congruence.
Qed.

Lemma pushed_under_faces (mesh : Mesh.t) (faces : list nat) (ek : string) (f : nat) :
  In f (pushed_under ek (pushes_of mesh faces)) -> In f faces.
Proof.
  unfold pushed_under, pushes_of. rewrite in_map_iff.
  intros ([f' k] & <- & Hin). apply filter_In in Hin. destruct Hin as [Hin _].
  apply in_flat_map in Hin. destruct Hin as (g & Hg & Hin).
  apply in_map_iff in Hin. destruct Hin as (k' & Heq & _).
  injection Heq as -> ->. exact Hg.
Qed.

(** Every face id of the adjacency map has a face normal. *)
Lemma edgeFaces_faces_in_range (mesh : Mesh.t) (ek : string) (faces : list nat) (f : nat) :
  In (ek, faces) (edgeFaces_of mesh) -> In f faces ->
  f < List.length (faceNormals_of mesh).
Proof.
  intros Hin Hf. rewrite (edgeFaces_entry _ _ _ Hin) in Hf.
  apply pushed_under_faces in Hf. unfold faces_of in Hf. apply in_seq in Hf.
  unfold faceNormals_of, faces_of. rewrite length_map, length_seq. lia.
Qed.

(** ** Kept edges *)

Section KeptFacts.
Context `{Platform}.
Variables (zones : list Zone.t) (mesh : Mesh.t) (opts : Opts.t).

Let kept' := kept zones opts (Mesh.positions mesh) (faceNormals_of mesh).

Lemma kept_edges_eq :
  kept_edges zones mesh opts =
  map (fun entry => edge_ends (fst entry)) (filter kept' (edgeFaces_of mesh)).
Proof.
  unfold kept_edges, filter_edges. rewrite featureEdges_fold. reflexivity.
Qed.

Lemma kept_edges_In (ek : string) (faces : list nat) :
  In (ek, faces) (edgeFaces_of mesh) ->
  In (edge_ends ek) (kept_edges zones mesh opts) <-> kept' (ek, faces) = true.
Proof.
  intro Hin. rewrite kept_edges_eq, in_map_iff. split.
  - intros ([ek' faces'] & Hends & Hk). apply filter_In in Hk.
    destruct Hk as [Hin' Hk]. cbn [fst] in Hends.
    assert (ek' = ek) as ->.
    { apply well_formed_ends_inj; eauto using edgeFaces_well_formed. }
    assert (faces' = faces) as ->.
    { pose proof (edgeFaces_NoDup mesh) as Hnd.
      apply (In_Map_get _ String.eqb_eq) in Hin, Hin'; try assumption. congruence. }
    exact Hk.
  - intro Hk. exists (ek, faces). split; [reflexivity|].
    apply filter_In. now split.
Qed.

Lemma final_stats_counter (v : verdict) :
  v <> BoundaryDropped ->
  counter v (final_stats zones mesh opts) =
  count_verdict zones opts (Mesh.positions mesh) (faceNormals_of mesh) v (edgeFaces_of mesh).
Proof.
  intro Hv. unfold final_stats, filter_edges. rewrite counter_fold by assumption.
  destruct v; reflexivity.
Qed.

End KeptFacts.

(** ** The per-zone statistics

    [zoneStats[zoneName]] is defined whenever the loop body reads it. *)

Lemma keys_zoneStats_bump (bump : ZoneStat.t -> ZoneStat.t) (zoneName : string)
    (zs : zone_stats) :
  keys (zoneStats_bump bump zoneName zs) = keys zs.
Proof.
  unfold zoneStats_bump.
  destruct (Map_get String.eqb zoneName zs) as [s|] eqn:Hget; [|reflexivity].
  rewrite (keys_Map_set _ String.eqb_eq).
  assert (Hhas : Map_has String.eqb zoneName zs = true).
  { apply (Map_has_keys _ String.eqb_eq).
    destruct (in_dec string_dec zoneName (keys zs)) as [Hin|Hout]; [exact Hin|].
    apply (Map_get_keys _ String.eqb_eq) in Hout. congruence. }
  now rewrite Hhas.
Qed.

Lemma zoneStats_init_names (zones : list Zone.t) (n : string) :
  In n (zone_names zones) -> In n (keys (zoneStats_init zones)).
Proof.
  unfold zoneStats_init, zone_names.
  assert (Hfold : forall zs0 : zone_stats,
            In n (keys zs0) \/ In n (map Zone.name zones) ->
            In n (keys (fold_left
                          (fun zs z => Map_set String.eqb (Zone.name z) (ZoneStat.Make 0 0 0) zs)
                          zones zs0))).
  { induction zones as [|z l IH]; intros zs0 [Hin|Hin]; cbn [fold_left map] in *.
    - exact Hin.
    - contradiction.
    - apply IH. left. rewrite (keys_Map_set _ String.eqb_eq).
      destruct (Map_has String.eqb (Zone.name z) zs0); [exact Hin|].
      apply in_or_app. now left.
    - apply IH. destruct Hin as [<-|Hin]; [left|now right].
      rewrite (keys_Map_set _ String.eqb_eq).
      destruct (Map_has String.eqb (Zone.name z) zs0) eqn:Hhas.
      + now apply (Map_has_keys _ String.eqb_eq).
      + apply in_or_app. right. now left. }
  intro Hn. rewrite (keys_Map_set _ String.eqb_eq).
  destruct (Map_has String.eqb default_zone_name _) eqn:Hhas.
  - destruct Hn as [<-|Hn]; [now apply (Map_has_keys _ String.eqb_eq)|].
    apply Hfold. now right.
  - apply in_or_app. destruct Hn as [<-|Hn]; [right; now left|].
    left. apply Hfold. now right.
Qed.

Lemma findZone_In (zones : list Zone.t) (point : vec3) (z : Zone.t) :
  findZone zones point = Some z -> In z zones.
Proof.
  induction zones as [|z0 l IH]; cbn [findZone]; [discriminate|].
  destruct (in_zone point z0); [intros [= <-]; now left | right; auto].
Qed.

Lemma effective_zoneName_known (zones : list Zone.t) (opts : Opts.t)
    (positions : list number) (ek : string) :
  In (effective_zoneName zones opts positions ek) (zone_names zones).
Proof.
  unfold effective_zoneName, edge_zone, zone_names.
  destruct (useZones_of zones opts); [|now left].
  destruct (findZone zones (edge_midpoint positions ek)) as [z|] eqn:Hz; [|now left].
  right. apply in_map. eapply findZone_In; eassumption.
Qed.

Section ZoneStatsFacts.
Context `{Platform}.
Variables (zones : list Zone.t) (opts : Opts.t) (positions : list number)
          (faceNormals : list vec3).

Lemma keys_zoneStats_step (st : Filter.t) (entry : string * list nat) :
  keys (Filter.zoneStats (filter_edge zones opts positions faceNormals st entry))
  = keys (Filter.zoneStats st).
Proof.
  rewrite filter_edge_verdict.
  destruct (verdict_of zones opts positions faceNormals entry);
    cbn [Filter.zoneStats]; try reflexivity; apply keys_zoneStats_bump.
Qed.

(** Whatever part of the adjacency map the loop has gone through, the
    statistics of the zone of any edge are there to be incremented. *)
Lemma zoneStats_entry_defined (edgeFaces : edge_map) (ek : string) :
  Map_get String.eqb (effective_zoneName zones opts positions ek)
    (Filter.zoneStats
       (fold_left (filter_edge zones opts positions faceNormals) edgeFaces
          (filter_init zones))) <> None.
Proof.
  assert (Hkeys : forall l st,
            keys (Filter.zoneStats
                    (fold_left (filter_edge zones opts positions faceNormals) l st))
            = keys (Filter.zoneStats st)).
  { induction l as [|e l IH]; intro st; cbn [fold_left]; [reflexivity|].
    now rewrite IH, keys_zoneStats_step. }
  intro Hnone. apply (Map_get_keys _ String.eqb_eq) in Hnone. apply Hnone.
  rewrite Hkeys. cbn [filter_init Filter.zoneStats].
  apply zoneStats_init_names, effective_zoneName_known.
Qed.

End ZoneStatsFacts.

(** ** Verdicts past the length floor *)

Section FilterClaims.
Context `{Platform}.
Variables (zones : list Zone.t) (mesh : Mesh.t) (opts : Opts.t).

Let positions := Mesh.positions mesh.
Let normals := faceNormals_of mesh.

Lemma not_short_verdict (ek : string) (faces : list nat) :
  too_short zones opts positions ek = false ->
  verdict_of zones opts positions normals (ek, faces) =
  if (List.length faces =? 1)%nat then
    if Opts.boundary opts then BoundaryKept else BoundaryDropped
  else if (List.length faces =? 2)%nat then
    if sharper zones opts positions normals (ek, faces) then Sharp
    else if longer opts positions ek then Long
    else Coplanar
  else NonManifold.
Proof. intro Hs. unfold verdict_of. cbn [fst snd]. now rewrite Hs. Qed.



End FilterClaims.

(** ** The compact output *)

Lemma outIndices_flat_map (vertexMap : list (index * nat)) (featureEdges : list (index * index)) :
  outIndices_of vertexMap featureEdges =
  flat_map (fun e => [Map_get index_eqb (fst e) vertexMap;
                      Map_get index_eqb (snd e) vertexMap]) featureEdges.
Proof.
  unfold outIndices_of.
  enough (Hgen : forall acc,
    fold_left (fun out e => out ++ [Map_get index_eqb (fst e) vertexMap;
                                    Map_get index_eqb (snd e) vertexMap])
      featureEdges acc =
    acc ++ flat_map (fun e => [Map_get index_eqb (fst e) vertexMap;
                               Map_get index_eqb (snd e) vertexMap]) featureEdges)
    by apply (Hgen []).
  induction featureEdges as [|e l IH]; intro acc; cbn [fold_left flat_map].
  - now rewrite List.app_nil_r.
  - rewrite IH, <- List.app_assoc. reflexivity.
Qed.

Lemma usedVertices_spec (featureEdges : list (index * index)) :
  NoDup (usedVertices_of featureEdges)
  /\ forall v, In v (usedVertices_of featureEdges) <->
               exists e, In e featureEdges /\ (v = fst e \/ v = snd e).
Proof.
  unfold usedVertices_of.
  enough (Hgen : forall acc, NoDup acc ->
    NoDup (fold_left (fun used e => Set_add index_eqb (snd e) (Set_add index_eqb (fst e) used))
             featureEdges acc)
    /\ forall v,
       In v (fold_left (fun used e => Set_add index_eqb (snd e) (Set_add index_eqb (fst e) used))
               featureEdges acc) <->
       In v acc \/ exists e, In e featureEdges /\ (v = fst e \/ v = snd e)).
  { destruct (Hgen [] (NoDup_nil _)) as [Hnd Hin]. split; [exact Hnd|].
    intro v. rewrite Hin. simpl. tauto. }
  induction featureEdges as [|e l IH]; intros acc Hnd; cbn [fold_left].
  - split; [exact Hnd|]. intro v. split; [tauto|]. intros [Hv|(e & [] & _)]. exact Hv.
  - destruct (IH (Set_add index_eqb (snd e) (Set_add index_eqb (fst e) acc))) as [Hnd' Hin'].
    { now repeat apply (Set_add_NoDup _ index_eqb_eq). }
    split; [exact Hnd'|]. intro v. rewrite Hin'.
    rewrite !(Set_add_In _ index_eqb_eq). split.
    + intros [[->|[->|Hv]]|(e' & He' & Hv)].
      * right. exists e. simpl. tauto.
      * right. exists e. simpl. tauto.
      * now left.
      * right. exists e'. simpl. tauto.
    + intros [Hv|(e' & [<-|He'] & Hv)].
      * tauto.
      * tauto.
      * right. now exists e'.
Qed.

Lemma compact_vertex_fields (positions : list number) (c : Compact.t) (v : index) :
  Compact.vertexMap (compact_vertex positions c v)
    = Map_set index_eqb v (Compact.idx c) (Compact.vertexMap c)
  /\ List.length (Compact.outVertices (compact_vertex positions c v))
    = List.length (Compact.outVertices c) + 3
  /\ Compact.idx (compact_vertex positions c v) = S (Compact.idx c).
Proof.
  unfold compact_vertex. destruct (getVertex_raw positions v) as [[x y] z].
  cbn. rewrite length_app. cbn. repeat split; lia.
Qed.

Lemma Map_set_fresh (v : index) (x : nat) (m : list (index * nat)) :
  Map_has index_eqb v m = false -> Map_set index_eqb v x m = m ++ [(v, x)].
Proof.
  induction m as [|[k y] m IHm]; [reflexivity|].
  cbn. destruct (index_eqb k v); [discriminate|]. intro Hm. now rewrite IHm.
Qed.

Lemma compact_fold (positions : list number) (used : list index) (c : Compact.t) :
  NoDup (keys (Compact.vertexMap c) ++ used) ->
  let c' := fold_left (compact_vertex positions) used c in
  Compact.vertexMap c' = Compact.vertexMap c ++ combine used (seq (Compact.idx c) (List.length used))
  /\ List.length (Compact.outVertices c') = List.length (Compact.outVertices c) + 3 * List.length used
  /\ Compact.idx c' = Compact.idx c + List.length used.
Proof.
  revert c; induction used as [|v l IH]; intros c Hnd; cbn [fold_left].
  - cbn. rewrite List.app_nil_r. repeat split; lia.
  - assert (Hfresh : Map_has index_eqb v (Compact.vertexMap c) = false).
    { destruct (Map_has index_eqb v (Compact.vertexMap c)) eqn:E; [|reflexivity].
      apply (Map_has_keys _ index_eqb_eq) in E.
      apply NoDup_remove_2 in Hnd. exfalso. apply Hnd. apply in_or_app. now left. }
    destruct (compact_vertex_fields positions c v) as (Fm & Fv & Fi).
    rewrite (Map_set_fresh _ _ _ Hfresh) in Fm.
    destruct (IH (compact_vertex positions c v)) as (Hm & Hv & Hi).
    { rewrite Fm. unfold keys. rewrite map_app. cbn [map fst].
      now rewrite <- List.app_assoc. }
    cbn zeta. rewrite Hm, Hv, Hi, Fm, Fv, Fi. cbn [List.length seq combine].
    rewrite <- List.app_assoc. repeat split; cbn; lia.
Qed.

Lemma Map_get_combine (l : list index) (s k : nat) (v : index) :
  NoDup l -> nth_error l k = Some v ->
  Map_get index_eqb v (combine l (seq s (List.length l))) = Some (s + k).
Proof.
  revert s k; induction l as [|x l IH]; intros s k Hnd Hk.
  - destruct k; discriminate.
  - inversion Hnd as [|? ? Hx Hnd']; subst. destruct k as [|k]; cbn in *.
    + injection Hk as ->. rewrite (proj2 (index_eqb_eq v v) eq_refl). f_equal. lia.
    + destruct (index_eqb x v) eqn:E.
      * apply index_eqb_eq in E. subst. apply nth_error_In in Hk. contradiction.
      * rewrite (IH (S s) k) by assumption. f_equal. lia.
Qed.

Section CompactClaims.
Context `{Platform}.
Variables (zones : list Zone.t) (mesh : Mesh.t) (opts : Opts.t).

Let out := extract_mesh zones mesh opts.
Let used := usedVertices_of (kept_edges zones mesh opts).

Lemma compact_of_used :
  let c := compact_vertices (Mesh.positions mesh) used in
  Compact.vertexMap c = combine used (seq 0 (List.length used))
  /\ List.length (Compact.outVertices c) = 3 * List.length used.
Proof.
  destruct (compact_fold (Mesh.positions mesh) used (Compact.Make [] [] 0)) as (Hm & Hv & _).
  { cbn. apply usedVertices_spec. }
  split; [exact Hm | exact Hv].
Qed.

(** C5. Output index validity. The output vertex list holds three
    coordinates a vertex; every entry of the output index list is a
    defined index below the number of output vertices, and every output
    vertex is referenced by an entry of the index list. *)
Theorem output_indices_valid :
  let vertexCount := List.length (Output.vertices out) / 3 in
  List.length (Output.vertices out) = 3 * vertexCount
  /\ (forall x, In x (Output.indices out) -> exists i, x = Some i /\ i < vertexCount)
  /\ (forall i, i < vertexCount -> In (Some i) (Output.indices out)).
Proof.
  destruct compact_of_used as [Hm Hv].
  destruct (usedVertices_spec (kept_edges zones mesh opts)) as [Hnd Hused].
  fold used in Hnd, Hused.
  assert (Hlen : List.length (Output.vertices out) = 3 * List.length used) by exact Hv.
  assert (Hcount : List.length (Output.vertices out) / 3 = List.length used).
  { rewrite Hlen, Nat.mul_comm. apply Nat.div_mul. discriminate. }
  assert (Hidx : Output.indices out =
                 flat_map (fun e => [Map_get index_eqb (fst e) (combine used (seq 0 (List.length used)));
                                     Map_get index_eqb (snd e) (combine used (seq 0 (List.length used)))])
                   (kept_edges zones mesh opts)).
  { subst out. unfold extract_mesh. cbn [Output.indices].
    rewrite outIndices_flat_map. fold (kept_edges zones mesh opts). fold used.
    now rewrite Hm. }
  assert (Hget : forall v, In v used ->
            exists k, k < List.length used /\ nth_error used k = Some v /\
              Map_get index_eqb v (combine used (seq 0 (List.length used))) = Some k).
  { intros v Hv'. apply In_nth_error in Hv'. destruct Hv' as [k Hk].
    exists k. split; [|split; [exact Hk|]].
    - apply nth_error_Some. congruence.
    - now rewrite (Map_get_combine used 0 k v Hnd Hk). }
  cbn zeta. rewrite Hcount. split; [exact Hlen|]. split.
  - intros x Hx. rewrite Hidx in Hx. apply in_flat_map in Hx.
    destruct Hx as (e & He & Hx).
    assert (Hends : In (fst e) used /\ In (snd e) used).
    { split; apply Hused; exists e; tauto. }
    destruct Hends as [Ha Hb].
    destruct (Hget _ Ha) as (ka & Hka & _ & Hga).
    destruct (Hget _ Hb) as (kb & Hkb & _ & Hgb).
    destruct Hx as [<-|[<-|[]]]; eauto.
  - intros i Hi. rewrite Hidx. apply in_flat_map.
    destruct (nth_error used i) as [v|] eqn:Hv'; [|apply nth_error_None in Hv'; lia].
    assert (Hin : In v used) by (eapply nth_error_In; eassumption).
    pose proof (Map_get_combine used 0 i v Hnd Hv') as Hg. cbn in Hg.
    apply Hused in Hin. destruct Hin as (e & He & [->| ->]); exists e; (split; [exact He|]).
    + left. exact Hg.
    + right. left. exact Hg.
Qed.

End CompactClaims.

(** ** Category counts *)

Lemma length_flat_pairs {A B : Type} (f g : A -> B) (l : list A) :
  List.length (flat_map (fun e => [f e; g e]) l) = 2 * List.length l.
Proof. induction l as [|e l IH]; simpl; lia. Qed.

Section CountClaims.
Context `{Platform}.
Variables (zones : list Zone.t) (mesh : Mesh.t) (opts : Opts.t).

Lemma kept_total_step (st : Filter.t) (entry : string * list nat) :
  let st' := filter_edge zones opts (Mesh.positions mesh) (faceNormals_of mesh) st entry in
  List.length (Filter.featureEdges st) = kept_total (Filter.stats st) ->
  List.length (Filter.featureEdges st') = kept_total (Filter.stats st').
Proof.
  cbn zeta. rewrite filter_edge_verdict. unfold kept_total.
  intro Hst.
  destruct (verdict_of _ _ _ _ entry);
    cbn [Filter.featureEdges Filter.stats];
    unfold st_tooShort, st_boundary, st_sharp, st_long, st_coplanar, st_nonManifold;
    cbn [Stats.sharp Stats.long Stats.boundary Stats.nonManifold];
    rewrite ?length_app; cbn [List.length]. all: lia.
Qed.

Lemma kept_total_fold (edgeFaces : edge_map) (st : Filter.t) :
  let st' := fold_left (filter_edge zones opts (Mesh.positions mesh) (faceNormals_of mesh))
               edgeFaces st in
  List.length (Filter.featureEdges st) = kept_total (Filter.stats st) ->
  List.length (Filter.featureEdges st') = kept_total (Filter.stats st').
Proof.
  revert st; induction edgeFaces as [|e l IH]; intros st; cbn [fold_left]; [auto|].
  intro Hst. apply IH. now apply kept_total_step.
Qed.

(** C10. The kept categories partition the output. The number of kept
    edges, the [featureEdges] count of the metadata and half the length
    of the output index list all equal
    [sharp + long + boundary + nonManifold]; and an interior edge that
    is both sharper than the threshold and longer than the feature
    length increments [sharp] alone, and is pushed once. *)
Theorem kept_categories_partition :
  let out := extract_mesh zones mesh opts in
  let s := Meta.stats (Output.meta out) in
  let total := Stats.sharp s + Stats.long s + Stats.boundary s + Stats.nonManifold s in
  List.length (kept_edges zones mesh opts) = total
  /\ Meta.featureEdges (Output.meta out) = total
  /\ List.length (Output.indices out) = 2 * total
  /\ (forall st entry,
        List.length (snd entry) = 2 ->
        too_short zones opts (Mesh.positions mesh) (fst entry) = false ->
        sharper zones opts (Mesh.positions mesh) (faceNormals_of mesh) entry = true ->
        longer opts (Mesh.positions mesh) (fst entry) = true ->
        let st' := filter_edge zones opts (Mesh.positions mesh) (faceNormals_of mesh) st entry in
        Filter.stats st' = st_sharp (Filter.stats st)
        /\ Stats.long (Filter.stats st') = Stats.long (Filter.stats st)
        /\ Filter.featureEdges st' = Filter.featureEdges st ++ [edge_ends (fst entry)]).
Proof.
  cbn zeta.
  assert (Htotal : List.length (kept_edges zones mesh opts)
                   = kept_total (final_stats zones mesh opts)).
  { unfold kept_edges, final_stats, filter_edges. apply kept_total_fold. reflexivity. }
  split; [exact Htotal|]. split; [exact Htotal|]. split.
  - change (Meta.stats (Output.meta (extract_mesh zones mesh opts)))
      with (final_stats zones mesh opts).
    unfold kept_total in Htotal. rewrite <- Htotal.
    change (Output.indices (extract_mesh zones mesh opts))
      with (outIndices_of
              (Compact.vertexMap
                 (compact_vertices (Mesh.positions mesh)
                    (usedVertices_of (kept_edges zones mesh opts))))
              (kept_edges zones mesh opts)).
    rewrite outIndices_flat_map.
    apply length_flat_pairs.
  - intros st [ek faces] Hlen Hfloor Hsharp Hlong. cbn [fst snd] in *.
    rewrite filter_edge_verdict. unfold verdict_of. cbn [fst snd].
    rewrite Hfloor, Hlen, Hsharp. cbn. tauto.
Qed.

End CountClaims.

(** ** Canonical keys and the adjacency builder *)

Lemma pushes_length (mesh : Mesh.t) (faces : list nat) :
  List.length (pushes_of mesh faces) = 3 * List.length faces.
Proof.
  induction faces as [|f l IH]; [reflexivity|].
  cbn [pushes_of flat_map]. rewrite length_app. fold (pushes_of mesh l). rewrite IH.
  unfold face_edges. destruct (face_corners mesh f) as [[i0 i1] i2]. cbn. lia.
Qed.


(** ** The zone classifier *)

Lemma findZone_Some (zones : list Zone.t) (point : vec3) (z : Zone.t) :
  findZone zones point = Some z <->
  exists before after,
    zones = before ++ z :: after
    /\ in_zone point z = true
    /\ Forall (fun z' => in_zone point z' = false) before.
Proof.
  induction zones as [|z0 zones IH]; cbn [findZone].
  - split; [discriminate|]. intros (before & after & Heq & _).
    destruct before; discriminate.
  - destruct (in_zone point z0) eqn:E.
    + split.
      * intros [= <-]. exists [], zones. repeat split; [exact E | constructor].
      * intros (before & after & Heq & Hz & Hb).
        destruct before as [|b before]; cbn in Heq; injection Heq as -> Hrest.
        -- reflexivity.
        -- inversion Hb; subst. congruence.
    + rewrite IH. split.
      * intros (before & after & -> & Hz & Hb).
        exists (z0 :: before), after. repeat split; [exact Hz | now constructor].
      * intros (before & after & Heq & Hz & Hb).
        destruct before as [|b before]; cbn in Heq; injection Heq as -> Hrest.
        -- congruence.
        -- inversion Hb; subst. now exists before, after.
Qed.

Lemma findZone_None (zones : list Zone.t) (point : vec3) :
  findZone zones point = None <-> Forall (fun z => in_zone point z = false) zones.
Proof.
  induction zones as [|z0 zones IH]; cbn [findZone].
  - split; [constructor | reflexivity].
  - destruct (in_zone point z0) eqn:E.
    + split; [discriminate|]. intro Hall. inversion Hall; subst. congruence.
    + rewrite IH. split; [now constructor | intro Hall; now inversion Hall].
Qed.

Section ZoneFallback.
Context `{Platform}.
Variables (zones : list Zone.t) (opts : Opts.t) (positions : list number)
          (faceNormals : list vec3).

(** With no zone for the edge, the loop body does what it does with no
    zone list at all. *)
Lemma filter_edge_no_zone (st : Filter.t) (entry : string * list nat) :
  edge_zone zones opts positions (fst entry) = None ->
  filter_edge zones opts positions faceNormals st entry
  = filter_edge [] opts positions faceNormals st entry.
Proof.
  destruct entry as [ek faces]. unfold edge_zone, edge_midpoint, filter_edge.
  cbn [fst snd]. destruct (edge_ends ek) as [a b]. cbn [fst snd].
  intros ->.
  replace (useZones_of [] opts) with false
    by (unfold useZones_of; cbn; now rewrite andb_false_r).
  reflexivity.
Qed.

(** With a zone for the edge, the loop body keeps and counts as it does
    with no zone list and the zone's threshold and minimum length as the
    global ones. *)
Lemma filter_edge_in_zone (st : Filter.t) (entry : string * list nat) (z : Zone.t) :
  edge_zone zones opts positions (fst entry) = Some z ->
  let zoned := filter_edge zones opts positions faceNormals st entry in
  let global :=
    filter_edge [] (Opts.set_threshold (Zone.threshold z)
                      (Opts.set_minLength (Zone.minLength z) opts))
      positions faceNormals st entry in
  Filter.featureEdges zoned = Filter.featureEdges global
  /\ Filter.stats zoned = Filter.stats global.
Proof.
  destruct entry as [ek faces]. unfold edge_zone, edge_midpoint, filter_edge.
  cbn [fst snd]. destruct (edge_ends ek) as [a b]. cbn [fst snd].
  intros ->.
  replace (useZones_of [] _) with false
    by (unfold useZones_of; cbn; now rewrite andb_false_r).
  cbn [Opts.set_threshold Opts.set_minLength Opts.threshold Opts.minLength
       Opts.featureLength Opts.boundary].
  repeat match goal with |- context [if ?c then _ else _] => destruct c end;
    split; reflexivity.
Qed.

End ZoneFallback.

(** What the loop body does with the threshold, the minimum length and
    the zone name it resolved: the filter of the specification. *)
Lemma filter_edge_spec `{Platform} (zones : list Zone.t) (opts : Opts.t)
    (positions : list number) (faceNormals : list vec3) (st : Filter.t)
    (entry : string * list nat) :
  let ends := edge_ends (fst entry) in
  let mid := midpoint (getVertex positions (fst ends)) (getVertex positions (snd ends)) in
  let zone := if useZones_of zones opts then findZone zones mid else None in
  filter_edge zones opts positions faceNormals st entry
  = spec_filter_step
      (match zone with Some z => Zone.threshold z | None => Opts.threshold opts end)
      (match zone with Some z => Zone.minLength z | None => Opts.minLength opts end)
      (match zone with Some z => Zone.name z | None => default_zone_name end)
      opts positions faceNormals st entry.
Proof.
  destruct entry as [ek faces]. unfold filter_edge, spec_filter_step. cbn [fst snd].
  destruct (edge_ends ek) as [a b]. cbn [fst snd].
  destruct (if useZones_of zones opts
            then findZone zones (midpoint (getVertex positions a) (getVertex positions b))
            else None) as [z|];
    (destruct (_ <? _)%float; [reflexivity|]);
    destruct (List.length faces) as [|[|[|n]]]; reflexivity.
Qed.

(** C4. Zone classifier. [findZone] returns the first zone of the list
    whose box holds the point, bounds included on the three axes, and
    [null] exactly when no box holds it; the corners of a box are inside
    it. When zone filtering is off or no zone holds the midpoint of the
    edge, the loop body of the filter is the filter of the specification
    run with the global threshold and the global minimum length (and the
    default zone's name); when zone filtering is on and a zone holds the
    midpoint, it is that filter run with the zone's threshold, minimum
    length and name. *)
Theorem zone_classifier (zones : list Zone.t) (point : vec3) :
  (forall z,
     findZone zones point = Some z <->
     exists before after,
       zones = before ++ z :: after
       /\ in_zone point z = true
       /\ Forall (fun z' => in_zone point z' = false) before)
  /\ (findZone zones point = None <-> Forall (fun z => in_zone point z = false) zones)
  /\ (forall z,
        in_zone point z = true <->
        (Zone.xMin z <=? vx point)%float = true /\ (vx point <=? Zone.xMax z)%float = true
        /\ (Zone.yMin z <=? vy point)%float = true /\ (vy point <=? Zone.yMax z)%float = true
        /\ (Zone.zMin z <=? vz point)%float = true /\ (vz point <=? Zone.zMax z)%float = true)
  /\ (forall z,
        (Zone.xMin z <=? Zone.xMax z)%float = true ->
        (Zone.yMin z <=? Zone.yMax z)%float = true ->
        (Zone.zMin z <=? Zone.zMax z)%float = true ->
        in_zone (Zone.xMin z, Zone.yMin z, Zone.zMin z) z = true
        /\ in_zone (Zone.xMax z, Zone.yMax z, Zone.zMax z) z = true)
  /\ (forall (P : Platform) opts positions faceNormals st entry,
        let ends := edge_ends (fst entry) in
        let mid :=
          midpoint (getVertex positions (fst ends)) (getVertex positions (snd ends)) in
        (Opts.zones opts = false \/ findZone zones mid = None ->
         filter_edge zones opts positions faceNormals st entry
         = spec_filter_step (Opts.threshold opts) (Opts.minLength opts) default_zone_name
             opts positions faceNormals st entry)
        /\ (forall z,
              Opts.zones opts = true -> findZone zones mid = Some z ->
              filter_edge zones opts positions faceNormals st entry
              = spec_filter_step (Zone.threshold z) (Zone.minLength z) (Zone.name z)
                  opts positions faceNormals st entry)).
Proof.
  split; [|split; [|split; [|split]]].
  - intro z. apply findZone_Some.
  - apply findZone_None.
  - intro z. unfold in_zone. rewrite !andb_true_iff. tauto.
  - intros z Hx Hy Hz. unfold in_zone, vx, vy, vz. cbn [fst snd].
    rewrite Hx, Hy, Hz.
    rewrite (leb_refl_left _ _ Hx), (leb_refl_left _ _ Hy), (leb_refl_left _ _ Hz).
    rewrite (leb_refl_right _ _ Hx), (leb_refl_right _ _ Hy), (leb_refl_right _ _ Hz).
    split; reflexivity.
  - intros P opts positions faceNormals st entry ends mid.
    pose proof (filter_edge_spec zones opts positions faceNormals st entry) as Hspec.
    cbn zeta in Hspec. fold ends in Hspec. fold mid in Hspec. split.
    + intros [Hoff | Hnone]; rewrite Hspec.
      * unfold useZones_of. rewrite Hoff. reflexivity.
      * rewrite Hnone. destruct (useZones_of zones opts); reflexivity.
    + intros z Hon Hz. rewrite Hspec. unfold useZones_of. rewrite Hon, Hz.
      destruct zones as [|z0 l]; [discriminate Hz | reflexivity].
Qed.

(** ** The loader's failures *)

Lemma component_type_match {A : Type} (ct : option N) (a b : A) (c : option N -> A) :
  unsupported_type ct ->
  match ct with
  | Some 5123%N => a
  | Some 5125%N => b
  | other => c other
  end = c ct.
Proof.
  intros [H1 H2]. destruct ct as [[|p]|]; try reflexivity.
  do 13 (try (destruct p as [p|p|]; try reflexivity)); congruence.
Qed.


Lemma index_accessor_absent (gltf : Gltf.t) :
  accessor_view gltf 1 = None -> index_accessor gltf = inl TypeError.
Proof.
  unfold accessor_view, index_accessor, element, property.
  destruct (Gltf.accessors gltf) as [accs|]; [|reflexivity].
  cbn [bind ret]. change (N.to_nat 1) with 1.
  destruct (nth_error accs 1) as [acc|]; [|reflexivity].
  cbn [bind ret].
  destruct (Gltf.bufferViews gltf) as [views|]; [|reflexivity].
  destruct (Accessor.bufferView acc) as [i|]; [|reflexivity].
  cbn [bind ret].
  destruct (nth_error views (N.to_nat i)); [discriminate | reflexivity].
Qed.

Lemma index_accessor_present (gltf : Gltf.t) (acc : Accessor.t) (view : BufferView.t) :
  accessor_view gltf 1 = Some (acc, view) ->
  index_accessor gltf =
  inr ((or_zero (BufferView.byteOffset view) + or_zero (Accessor.byteOffset acc))%N,
       Accessor.count acc, Accessor.componentType acc).
Proof.
  unfold accessor_view, index_accessor, element, property.
  destruct (Gltf.accessors gltf) as [accs|]; [|discriminate].
  destruct (Gltf.bufferViews gltf) as [views|]; [|discriminate].
  cbn [bind ret]. change (N.to_nat 1) with 1.
  destruct (nth_error accs 1) as [acc'|]; [|discriminate].
  cbn [bind ret].
  destruct (Accessor.bufferView acc') as [i|]; [|discriminate].
  cbn [bind ret].
  destruct (nth_error views (N.to_nat i)) as [view'|]; [|discriminate].
  intros [= -> ->]. reflexivity.
Qed.

Lemma ToIndex_error (v : option N) (e : js_error) :
  ToIndex v = inl e -> e = RangeError.
Proof.
  unfold ToIndex, ret, throw. destruct v as [n|]; [|discriminate].
  destruct (n <=? 2 ^ 53 - 1)%N; congruence.
Qed.

Lemma typed_array_view_error (elementSize byteLength byteOffset : N)
    (length : length_arg) (e : js_error) :
  typed_array_view elementSize byteLength byteOffset length = inl e -> e = RangeError.
Proof.
  unfold typed_array_view, bind.
  destruct (ToIndex (Some byteOffset)) as [e0|offset] eqn:E0.
  { intros [= <-]. eapply ToIndex_error; exact E0. }
  destruct (negb (offset mod elementSize =? 0)%N); [unfold throw; congruence|].
  destruct length as [|n].
  - destruct (negb (byteLength mod elementSize =? 0)%N); [unfold throw; congruence|].
    destruct (byteLength <? offset)%N; unfold throw, ret; congruence.
  - destruct (ToIndex n) as [e1|newLength] eqn:E1.
    { intros [= <-]. eapply ToIndex_error; exact E1. }
    destruct (byteLength <? offset + newLength * elementSize)%N;
      unfold throw, ret; congruence.
Qed.

Lemma typed_array_error {A : Type} (elementSize : N) (decode : list N -> A)
    (buffer : list N) (byteOffset : N) (length : length_arg) (e : js_error) :
  typed_array elementSize decode buffer byteOffset length = inl e -> e = RangeError.
Proof.
  unfold typed_array, bind.
  destruct (typed_array_view _ _ _ _) as [e0|view] eqn:E0; [|discriminate].
  intros [= <-]. eapply typed_array_view_error; exact E0.
Qed.

Lemma load_positions_error (gltf : Gltf.t) (buffer : NodeBuffer.t) (e : js_error) :
  load_positions gltf buffer = inl e -> e = TypeError \/ e = RangeError.
Proof.
  unfold load_positions, element, property, bind, ret, throw.
  destruct (Gltf.accessors gltf) as [accs|]; [|intros [= <-]; tauto].
  destruct (nth_error accs (N.to_nat 0)) as [acc|]; [|intros [= <-]; tauto].
  destruct (Gltf.bufferViews gltf) as [views|]; [|intros [= <-]; tauto].
  destruct (Accessor.bufferView acc) as [i|]; [|intros [= <-]; tauto].
  destruct (nth_error views (N.to_nat i)) as [view|]; [|intros [= <-]; tauto].
  destruct (Float32Array _ _ _) as [e0|positions] eqn:E0; [|discriminate].
  intros [= <-]. right. eapply typed_array_error; exact E0.
Qed.

Lemma load_indices_absent (gltf : Gltf.t) (buffer : NodeBuffer.t) :
  accessor_view gltf 1 = None -> load_indices gltf buffer = inl TypeError.
Proof.
  intro Ha. unfold load_indices. now rewrite (index_accessor_absent _ Ha).
Qed.




Section LoaderClaims.
Context `{Platform}.



End LoaderClaims.

(** ** Command-line values *)




Section ConfigurationClaims.
Context `{Platform}.





End ConfigurationClaims.

(** * Further properties of the code *)

(** ** Binary64 arithmetic *)

Lemma SFmul_comm (x y : spec_float) : SFmul prec emax x y = SFmul prec emax y x.
Proof.
  destruct x as [sx|sx| |sx mx ex], y as [sy|sy| |sy my ey]; simpl;
    rewrite ?(xorb_comm sy sx); try reflexivity.
  rewrite (Pos.mul_comm my mx), (Z.add_comm ey ex). reflexivity.
Qed.

Lemma float_mul_comm (x y : number) : (x * y)%float = (y * x)%float.
Proof. apply Prim2SF_inj. rewrite !FloatAxioms.mul_spec. apply SFmul_comm. Qed.

Lemma nan_absorbs (x : number) :
  (PrimFloat.nan + x = PrimFloat.nan /\ x + PrimFloat.nan = PrimFloat.nan
   /\ PrimFloat.nan - x = PrimFloat.nan /\ x - PrimFloat.nan = PrimFloat.nan
   /\ PrimFloat.nan * x = PrimFloat.nan /\ x * PrimFloat.nan = PrimFloat.nan)%float.
Proof.
  repeat split; apply Prim2SF_inj;
    rewrite ?FloatAxioms.add_spec, ?FloatAxioms.sub_spec, ?FloatAxioms.mul_spec;
    change (Prim2SF PrimFloat.nan) with S754_nan;
    destruct (Prim2SF x) as [s|s| |s m e]; try destruct s; reflexivity.
Qed.

Lemma leb_nan_l (x : number) : (PrimFloat.nan <=? x)%float = false.
Proof. rewrite FloatAxioms.leb_spec. reflexivity. Qed.

Lemma leb_nan_r (x : number) : (x <=? PrimFloat.nan)%float = false.
Proof.
  rewrite FloatAxioms.leb_spec. change (Prim2SF PrimFloat.nan) with S754_nan.
  destruct (Prim2SF x) as [s|s| |s m e]; try destruct s; reflexivity.
Qed.

Lemma binary_round_aux_not_negative (mx ex : Z) (lx : location) :
  not_negative (binary_round_aux prec emax false mx ex lx).
Proof.
  unfold binary_round_aux.
  destruct (shr_fexp prec emax mx ex lx) as [mrs' e'].
  destruct (shr_fexp prec emax _ e' loc_Exact) as [mrs'' e''].
  destruct (shr_m mrs''); simpl; trivial.
  destruct (e'' <=? 971)%Z; simpl; trivial.
Qed.

Lemma SFsqrt_not_negative (x : spec_float) : not_negative (SFsqrt prec emax x).
Proof.
  destruct x as [s|s| |s m e]; simpl; trivial.
  - destruct s; simpl; trivial.
  - destruct s; simpl; trivial.
    destruct (SFsqrt_core_binary prec emax (Z.pos m) e) as [[mz ez] lz].
    apply binary_round_aux_not_negative.
Qed.

Lemma sqrt_not_below (x m : number) :
  (m <=? 0)%float = true -> (Math_sqrt x <? m)%float = false.
Proof.
  unfold Math_sqrt. rewrite FloatAxioms.leb_spec, FloatAxioms.ltb_spec, FloatAxioms.sqrt_spec.
  change (Prim2SF 0) with (S754_zero false).
  generalize (SFsqrt_not_negative (Prim2SF x)). unfold SF64sqrt.
  destruct (SFsqrt prec emax (Prim2SF x)) as [s|s| |s k e];
    destruct (Prim2SF m) as [s'|s'| |s' k' e'];
    try destruct s; try destruct s'; simpl; intros; try easy.
Qed.

(** ** Vector products *)

Lemma dot_comm (a b : vec3) : dot a b = dot b a.
Proof.
  unfold dot.
  rewrite (float_mul_comm (vx a)), (float_mul_comm (vy a)), (float_mul_comm (vz a)).
  reflexivity.
Qed.

(** X1. The angle between the two faces of an edge does not depend on
    which of the two faces was found first: the dot product is
    commutative in binary64, so swapping the face list of an entry
    leaves the cosine, the angle and the loop body's result unchanged. *)
Theorem dihedral_angle_symmetric `{Platform} (zones : list Zone.t) (opts : Opts.t)
    (positions : list number) (normals : list vec3) (st : Filter.t)
    (ek : string) (f1 f2 : nat) :
  cos_angle normals [f1; f2] = cos_angle normals [f2; f1]
  /\ dihedral_angle normals [f1; f2] = dihedral_angle normals [f2; f1]
  /\ filter_edge zones opts positions normals st (ek, [f1; f2])
     = filter_edge zones opts positions normals st (ek, [f2; f1]).
Proof.
  assert (Hcos : cos_angle normals [f1; f2] = cos_angle normals [f2; f1]).
  { unfold cos_angle, face_normal_at. simpl. apply dot_comm. }
  assert (Hangle : dihedral_angle normals [f1; f2] = dihedral_angle normals [f2; f1]).
  { unfold dihedral_angle. rewrite Hcos. reflexivity. }
  split; [exact Hcos|]. split; [exact Hangle|].
  unfold filter_edge. rewrite Hangle. reflexivity.
Qed.

(** ** Edge keys, there and back *)

Lemma edge_ends_edgeKey (a b : option N) :
  edge_ends (edgeKey a b) =
  if js_lt a b then (index_of_N a, index_of_N b) else (index_of_N b, index_of_N a).
Proof.
  rewrite edgeKey_text. destruct (js_lt a b); apply edge_ends_key_text.
Qed.

(** X2. Splitting a key at the underscore and parsing the two parts, as
    the filter loop does, gives back the two indices the key was made
    from, the smaller first, whatever the order they were given in. *)
Theorem edge_key_round_trip (a b : N) :
  edge_ends (edgeKey (Some a) (Some b))
  = (Some (Z.of_N (N.min a b)), Some (Z.of_N (N.max a b))).
Proof.
  rewrite edge_ends_edgeKey. unfold js_lt.
  destruct (a <? b)%N eqn:E; simpl.
  - apply N.ltb_lt in E. rewrite N.min_l, N.max_r by lia. reflexivity.
  - apply N.ltb_ge in E. rewrite N.min_r, N.max_l by lia. reflexivity.
Qed.

(** X3. A corner read past the end of the index array is [undefined]:
    the comparison with it is false, so the key is not ordered by value;
    the undefined corner parses back as NaN, and it stands second when
    it was the first argument, first when it was the second. *)
Theorem edge_key_undefined_corner (a : N) (b : option N) :
  edgeKey None b = (template b ++ "_undefined")%string
  /\ edgeKey (Some a) None = ("undefined_" ++ string_of_N a)%string
  /\ edge_ends (edgeKey None b) = (index_of_N b, None)
  /\ edge_ends (edgeKey (Some a) None) = (None, Some (Z.of_N a)).
Proof.
  assert (H1 : edgeKey None b = key_text b None) by reflexivity.
  assert (H2 : edgeKey (Some a) None = key_text None (Some a)) by reflexivity.
  split; [reflexivity|]. split; [reflexivity|]. split.
  - rewrite H1, edge_ends_key_text. reflexivity.
  - rewrite H2, edge_ends_key_text. reflexivity.
Qed.

(** ** Zones *)

(** X4. Zones appended to the list never take a point from an earlier
    zone: the classifier on a concatenation is the classifier on the
    first list, and on the second only when the first has no zone for
    the point. *)
Theorem findZone_app (zones1 zones2 : list Zone.t) (point : vec3) :
  findZone (zones1 ++ zones2) point =
  match findZone zones1 point with
  | Some z => Some z
  | None => findZone zones2 point
  end.
Proof.
  induction zones1 as [|z rest IH]; simpl; [reflexivity|].
  destruct (in_zone point z); [reflexivity | exact IH].
Qed.

Lemma in_zone_nan (point : vec3) (z : Zone.t) :
  has_nan point -> in_zone point z = false.
Proof.
  unfold in_zone. intros [E | [E | E]]; rewrite E, leb_nan_r;
    rewrite ?andb_false_r; reflexivity.
Qed.

Lemma findZone_has_nan (zones : list Zone.t) (point : vec3) :
  has_nan point -> findZone zones point = None.
Proof.
  intro Hnan. induction zones as [|z rest IH]; simpl; [reflexivity|].
  rewrite (in_zone_nan point z Hnan). exact IH.
Qed.

(** X5. A point with a NaN coordinate is in no zone, whatever the zone
    list and whatever the bounds (infinite ones too): every bound test
    on that axis is false, so the classifier returns [null] and the
    filter falls back to the global threshold and minimum length. *)
Theorem nan_point_unzoned (zones : list Zone.t) (opts : Opts.t)
    (positions : list number) (ek : string) (point : vec3) :
  has_nan point ->
  findZone zones point = None
  /\ (edge_midpoint positions ek = point ->
      effective_threshold zones opts positions ek = Opts.threshold opts
      /\ effective_minLength zones opts positions ek = Opts.minLength opts
      /\ effective_zoneName zones opts positions ek = default_zone_name).
Proof.
  intro Hnan. split; [apply findZone_has_nan, Hnan|].
  intro Hmid.
  unfold effective_threshold, effective_minLength, effective_zoneName, edge_zone.
  rewrite Hmid, (findZone_has_nan zones point Hnan).
  destruct (useZones_of zones opts); repeat split.
Qed.

(** ** Vertices outside the position array *)

Lemma getVertex_outside (positions : list number) (i : index) :
  outside positions i -> has_nan (getVertex positions i).
Proof.
  destruct i as [z|]; simpl; intro Hout.
  - right. right. unfold getVertex, getVertex_raw, at_index. simpl.
    destruct (z * 3 + 2 <? 0)%Z eqn:E; [reflexivity|].
    apply Z.ltb_ge in E.
    destruct (nth_error positions (Z.to_nat (z * 3 + 2))) eqn:En; [|reflexivity].
    assert (Hlt : (Z.to_nat (z * 3 + 2) < List.length positions)%nat)
      by (apply nth_error_Some; congruence).
    lia.
  - left. reflexivity.
Qed.

Lemma sub_nan (a b : vec3) : has_nan a \/ has_nan b -> has_nan (sub a b).
Proof.
  destruct (nan_absorbs (vx a)) as (_ & _ & _ & Hxr & _).
  destruct (nan_absorbs (vy a)) as (_ & _ & _ & Hyr & _).
  destruct (nan_absorbs (vz a)) as (_ & _ & _ & Hzr & _).
  destruct (nan_absorbs (vx b)) as (_ & _ & Hxl & _).
  destruct (nan_absorbs (vy b)) as (_ & _ & Hyl & _).
  destruct (nan_absorbs (vz b)) as (_ & _ & Hzl & _).
  unfold has_nan, sub, vx, vy, vz in *. simpl.
  intros [[E | [E | E]] | [E | [E | E]]]; rewrite E; tauto.
Qed.

Lemma midpoint_nan (a b : vec3) : has_nan a \/ has_nan b -> has_nan (midpoint a b).
Proof.
  destruct (nan_absorbs (vx a)) as (_ & Hxr & _).
  destruct (nan_absorbs (vy a)) as (_ & Hyr & _).
  destruct (nan_absorbs (vz a)) as (_ & Hzr & _).
  destruct (nan_absorbs (vx b)) as (Hxl & _).
  destruct (nan_absorbs (vy b)) as (Hyl & _).
  destruct (nan_absorbs (vz b)) as (Hzl & _).
  unfold has_nan, midpoint, vx, vy, vz in *. simpl.
  intros [[E | [E | E]] | [E | [E | E]]]; rewrite E;
    rewrite ?Hxl, ?Hyl, ?Hzl, ?Hxr, ?Hyr, ?Hzr; tauto.
Qed.

Lemma vecLength_nan (v : vec3) : has_nan v -> vecLength v = PrimFloat.nan.
Proof.
  unfold has_nan, vecLength.
  intros [E | [E | E]]; rewrite E;
    change (PrimFloat.nan * PrimFloat.nan)%float with PrimFloat.nan.
  - destruct (nan_absorbs (vy v * vy v)%float) as (-> & _).
    destruct (nan_absorbs (vz v * vz v)%float) as (-> & _). reflexivity.
  - destruct (nan_absorbs (vx v * vx v)%float) as (_ & -> & _).
    destruct (nan_absorbs (vz v * vz v)%float) as (-> & _). reflexivity.
  - destruct (nan_absorbs (vx v * vx v + vy v * vy v)%float) as (_ & -> & _).
    reflexivity.
Qed.

(** X6. An edge with an endpoint outside the position array (a corner
    that was [undefined], or an index at or past the vertex count) has
    NaN for a length and a midpoint with a NaN coordinate: it is in no
    zone, it is never rejected as too short and never kept as long. *)
Theorem edge_outside_positions `{Platform} (zones : list Zone.t) (opts : Opts.t)
    (positions : list number) (ek : string) :
  outside positions (fst (edge_ends ek)) \/ outside positions (snd (edge_ends ek)) ->
  edge_length positions ek = PrimFloat.nan
  /\ edge_zone zones opts positions ek = None
  /\ too_short zones opts positions ek = false
  /\ longer opts positions ek = false.
Proof.
  intro Hout.
  assert (Hnan : has_nan (getVertex positions (fst (edge_ends ek)))
                 \/ has_nan (getVertex positions (snd (edge_ends ek)))).
  { destruct Hout as [Ho | Ho]; [left | right]; apply getVertex_outside, Ho. }
  assert (Hlen : edge_length positions ek = PrimFloat.nan).
  { unfold edge_length, dist. apply vecLength_nan, sub_nan, Hnan. }
  split; [exact Hlen|]. split; [|split].
  - unfold edge_zone, edge_midpoint.
    destruct (useZones_of zones opts); [|reflexivity].
    apply findZone_has_nan, midpoint_nan, Hnan.
  - unfold too_short. rewrite Hlen. apply ltb_nan_l.
  - unfold longer. rewrite Hlen. apply ltb_nan_r.
Qed.

(** ** The length floor *)

Lemma too_short_floor `{Platform} (zones : list Zone.t) (opts : Opts.t)
    (positions : list number) (ek : string) :
  (effective_minLength zones opts positions ek <=? 0)%float = true ->
  too_short zones opts positions ek = false.
Proof. intro Hle. unfold too_short, edge_length, dist, vecLength. apply sqrt_not_below, Hle. Qed.

(** X7. A length is a square root and is never below zero: with zone
    filtering off and a global minimum length of zero or less, no edge
    is rejected as too short, and the counter of short edges stays 0. *)
Theorem no_length_floor `{Platform} (zones : list Zone.t) (mesh : Mesh.t) (opts : Opts.t) :
  Opts.zones opts = false ->
  (Opts.minLength opts <=? 0)%float = true ->
  (forall ek, too_short zones opts (Mesh.positions mesh) ek = false)
  /\ Stats.tooShort (Meta.stats (Output.meta (extract_mesh zones mesh opts))) = 0.
Proof.
  intros Hz Hle.
  assert (Hshort : forall ek, too_short zones opts (Mesh.positions mesh) ek = false).
  { intro ek. apply too_short_floor.
    unfold effective_minLength, edge_zone, useZones_of. rewrite Hz. exact Hle. }
  split; [exact Hshort|].
  change (Stats.tooShort (final_stats zones mesh opts) = 0).
  change (counter TooShort (final_stats zones mesh opts) = 0).
  rewrite final_stats_counter by discriminate.
  unfold count_verdict.
  induction (edgeFaces_of mesh) as [|entry rest IH]; [reflexivity|].
  simpl. unfold verdict_of at 1. rewrite Hshort.
  destruct (List.length (snd entry) =? 1)%nat; [destruct (Opts.boundary opts); exact IH|].
  destruct (List.length (snd entry) =? 2)%nat; [|exact IH].
  destruct (sharper _ _ _ _ _); [exact IH|].
  destruct (longer _ _ _); exact IH.
Qed.

(** ** The adjacency map, counted *)

Lemma total_faces_set_fresh (k : string) (v : list nat) (m : edge_map) :
  Map_get String.eqb k m = None ->
  total_faces (Map_set String.eqb k v m) = total_faces m + List.length v.
Proof.
  unfold total_faces. induction m as [|[k' v'] rest IH]; simpl; intro Hget.
  - lia.
  - destruct (String.eqb k' k); [discriminate|]. simpl. rewrite (IH Hget). lia.
Qed.

Lemma total_faces_set_present (k : string) (v v' : list nat) (m : edge_map) :
  Map_get String.eqb k m = Some v ->
  total_faces (Map_set String.eqb k v' m) + List.length v
  = total_faces m + List.length v'.
Proof.
  unfold total_faces. induction m as [|[k0 v0] rest IH]; simpl; intro Hget.
  - discriminate.
  - destruct (String.eqb k0 k).
    + injection Hget as ->. simpl. lia.
    + simpl. specialize (IH Hget). lia.
Qed.

Lemma total_faces_add_face (f : nat) (m : edge_map) (ek : string) :
  total_faces (add_face f m ek) = S (total_faces m).
Proof.
  unfold add_face.
  destruct (Map_has String.eqb ek m) eqn:Hhas; simpl.
  - destruct (Map_get String.eqb ek m) as [faces|] eqn:Hget.
    + pose proof (total_faces_set_present ek faces (faces ++ [f]) m Hget) as Ht.
      rewrite length_app in Ht. simpl in Ht. lia.
    + apply (Map_has_keys _ String.eqb_eq) in Hhas.
      apply (Map_get_keys _ String.eqb_eq) in Hget. contradiction.
  - assert (Hget : Map_get String.eqb ek m = None).
    { apply (Map_get_keys _ String.eqb_eq). intro Hin.
      apply (Map_has_keys _ String.eqb_eq) in Hin. congruence. }
    rewrite (Map_get_set_same _ String.eqb_eq).
    pose proof (total_faces_set_present ek [] ([] ++ [f]) (Map_set String.eqb ek [] m)
                  (Map_get_set_same _ String.eqb_eq ek [] m)) as Ht.
    rewrite (total_faces_set_fresh ek [] m Hget) in Ht. simpl in Ht. change ([] ++ [f]) with [f]. lia.
Qed.

Lemma total_faces_pushes (pushes : list (nat * string)) (m : edge_map) :
  total_faces (fold_left push pushes m) = total_faces m + List.length pushes.
Proof.
  revert m. induction pushes as [|p rest IH]; intro m; simpl; [lia|].
  rewrite IH. unfold push. rewrite total_faces_add_face. lia.
Qed.

Lemma edgeFaces_nonempty (mesh : Mesh.t) (ek : string) (faces : list nat) :
  In (ek, faces) (edgeFaces_of mesh) -> faces <> [].
Proof.
  intros Hin Hnil.
  apply (In_Map_get _ String.eqb_eq) in Hin; [|apply edgeFaces_NoDup].
  rewrite edgeFaces_get in Hin.
  destruct (pushed_under ek (pushes_of mesh (faces_of mesh))); congruence.
Qed.

(** X8. Every triangle is entered three times in the adjacency map: the
    face lists of the map hold three times as many face ids as there are
    triangles, no list is empty, and the map has at most three entries a
    triangle. *)
Theorem adjacency_totals (mesh : Mesh.t) :
  total_faces (edgeFaces_of mesh) = 3 * List.length (faces_of mesh)
  /\ (forall ek faces, In (ek, faces) (edgeFaces_of mesh) -> faces <> [])
  /\ List.length (edgeFaces_of mesh) <= 3 * List.length (faces_of mesh).
Proof.
  assert (Htotal : total_faces (edgeFaces_of mesh) = 3 * List.length (faces_of mesh)).
  { rewrite edgeFaces_of_pushes, total_faces_pushes, pushes_length. reflexivity. }
  split; [exact Htotal|]. split; [apply edgeFaces_nonempty|].
  rewrite <- Htotal.
  generalize (edgeFaces_nonempty mesh). unfold total_faces.
  generalize (edgeFaces_of mesh) as m.
  induction m as [|[ek faces] rest IH]; simpl; intro Hne; [lia|].
  assert (Hlen : 1 <= List.length faces).
  { destruct faces as [|f faces]; [|simpl; lia].
    exfalso. apply (Hne ek []); [left|]; reflexivity. }
  assert (Hrest : List.length rest <= list_sum (map (fun e => List.length (snd e)) rest)).
  { apply IH. intros ek' faces' Hin. apply (Hne ek' faces'). right. exact Hin. }
  lia.
Qed.

Lemma seq_sorted (n s : nat) : StronglySorted le (seq s n).
Proof.
  revert s. induction n as [|n IH]; intro s; simpl; constructor; [apply IH|].
  apply Forall_forall. intros x Hx. apply in_seq in Hx. lia.
Qed.

Lemma pushed_under_app (ek : string) (l1 l2 : list (nat * string)) :
  pushed_under ek (l1 ++ l2) = pushed_under ek l1 ++ pushed_under ek l2.
Proof. unfold pushed_under. now rewrite filter_app, map_app. Qed.

Lemma pushed_under_sorted (mesh : Mesh.t) (ek : string) (faces : list nat) :
  StronglySorted le faces ->
  StronglySorted le (pushed_under ek (pushes_of mesh faces)).
Proof.
  induction 1 as [|f rest Hsorted IH Hall]; [constructor|].
  change (pushes_of mesh (f :: rest))
    with (map (pair f) (face_edges mesh f) ++ pushes_of mesh rest).
  rewrite pushed_under_app.
  induction (face_edges mesh f) as [|k ks IHk]; [exact IH|].
  cbn [map app]. unfold pushed_under at 1. cbn [filter snd].
  destruct (k =? ek); [|exact IHk].
  cbn [map fst]. constructor; [exact IHk|].
  apply Forall_forall. intros g Hg. apply in_app_or in Hg. destruct Hg as [Hg | Hg].
  - unfold pushed_under in Hg. apply in_map_iff in Hg.
    destruct Hg as ([g' k'] & <- & Hin). apply filter_In in Hin.
    destruct Hin as [Hin _]. apply in_map_iff in Hin.
    destruct Hin as (k0 & Heq & _). injection Heq as <- _. simpl. lia.
  - apply pushed_under_faces in Hg.
    rewrite Forall_forall in Hall. apply Hall, Hg.
Qed.

(** X9. The face list of an entry of the adjacency map is in discovery
    order, which is ascending (a face that meets the edge twice stands
    twice), and each of its ids is below the number of face normals, so
    the two normals the filter reads for a two-face edge are defined. *)
Theorem face_lists_ascending (mesh : Mesh.t) (ek : string) (faces : list nat) :
  In (ek, faces) (edgeFaces_of mesh) ->
  StronglySorted le faces
  /\ Forall (fun f => f < List.length (faceNormals_of mesh)) faces
  /\ (forall k, k < List.length faces ->
        nth_error (faceNormals_of mesh) (nth k faces 0)
        = Some (face_normal mesh (nth k faces 0))).
Proof.
  intro Hin.
  assert (Hrange : Forall (fun f => f < List.length (faceNormals_of mesh)) faces).
  { apply Forall_forall. intros f Hf. exact (edgeFaces_faces_in_range mesh ek faces f Hin Hf). }
  split; [|split; [exact Hrange|]].
  - rewrite (edgeFaces_entry mesh ek faces Hin).
    apply pushed_under_sorted, seq_sorted.
  - intros k Hk. rewrite Forall_forall in Hrange.
    assert (Hf : nth k faces 0 < List.length (faceNormals_of mesh))
      by (apply Hrange, nth_In, Hk).
    unfold faceNormals_of in *. rewrite length_map in Hf.
    rewrite nth_error_map.
    unfold faces_of in *. rewrite length_seq in Hf.
    rewrite nth_error_seq.
    destruct (Nat.ltb_spec (nth k faces 0) (loop_trips (Mesh.triangleCount mesh))); [|lia].
    reflexivity.
Qed.

(** ** The kept edges *)

Lemma NoDup_map_on {A B : Type} (f : A -> B) (l : list A) :
  (forall x y, In x l -> In y l -> f x = f y -> x = y) ->
  NoDup l -> NoDup (map f l).
Proof.
  intros Hinj Hnd. induction Hnd as [|a l Hnotin Hnd IH]; simpl; constructor.
  - intro Hin. apply in_map_iff in Hin. destruct Hin as (x & Heq & Hx).
    assert (x = a) by (apply Hinj; [right; exact Hx | left; reflexivity | exact Heq]).
    subst x. contradiction.
  - apply IH. intros x y Hx Hy. apply Hinj; right; assumption.
Qed.

Lemma edgeFaces_ends_inj (mesh : Mesh.t) (e1 e2 : string * list nat) :
  In e1 (edgeFaces_of mesh) -> In e2 (edgeFaces_of mesh) ->
  edge_ends (fst e1) = edge_ends (fst e2) -> e1 = e2.
Proof.
  destruct e1 as [k1 f1], e2 as [k2 f2]. simpl. intros H1 H2 Hends.
  assert (Hk : k1 = k2).
  { apply well_formed_ends_inj; [| |exact Hends].
    - exact (edgeFaces_well_formed mesh k1 f1 H1).
    - exact (edgeFaces_well_formed mesh k2 f2 H2). }
  subst k2.
  apply (In_Map_get _ String.eqb_eq) in H1; [|apply edgeFaces_NoDup].
  apply (In_Map_get _ String.eqb_eq) in H2; [|apply edgeFaces_NoDup].
  congruence.
Qed.

(** X10. No edge is kept twice: the kept edges, as pairs of endpoint
    indices, are pairwise distinct, and there are no more of them than
    entries in the adjacency map. *)
Theorem kept_edges_distinct `{Platform} (zones : list Zone.t) (mesh : Mesh.t)
    (opts : Opts.t) :
  NoDup (kept_edges zones mesh opts)
  /\ List.length (kept_edges zones mesh opts) <= List.length (edgeFaces_of mesh).
Proof.
  rewrite kept_edges_eq. split.
  - apply NoDup_map_on.
    + intros x y Hx Hy. apply filter_In in Hx, Hy.
      apply (edgeFaces_ends_inj mesh); tauto.
    + apply NoDup_filter. apply (NoDup_map_inv fst). apply edgeFaces_NoDup.
  - rewrite length_map. apply filter_length_le.
Qed.

Lemma face_corners_defined (mesh : Mesh.t) (f : nat) :
  3 * List.length (faces_of mesh) <= List.length (Mesh.indices mesh) ->
  In f (faces_of mesh) ->
  exists i0 i1 i2,
    face_corners mesh f = (Some i0, Some i1, Some i2)
    /\ In i0 (Mesh.indices mesh) /\ In i1 (Mesh.indices mesh) /\ In i2 (Mesh.indices mesh).
Proof.
  intros Hlen Hf. unfold faces_of in *. rewrite length_seq in Hlen.
  apply in_seq in Hf. unfold face_corners.
  destruct (nth_error (Mesh.indices mesh) (f * 3)) as [i0|] eqn:E0;
    [|apply nth_error_None in E0; lia].
  destruct (nth_error (Mesh.indices mesh) (f * 3 + 1)) as [i1|] eqn:E1;
    [|apply nth_error_None in E1; lia].
  destruct (nth_error (Mesh.indices mesh) (f * 3 + 2)) as [i2|] eqn:E2;
    [|apply nth_error_None in E2; lia].
  exists i0, i1, i2. repeat split; eapply nth_error_In; eassumption.
Qed.

Lemma ordered_ends (a b : N) :
  exists x y, edge_ends (edgeKey (Some a) (Some b)) = (Some (Z.of_N x), Some (Z.of_N y))
              /\ (x <= y)%N /\ (x = a \/ x = b) /\ (y = a \/ y = b).
Proof.
  rewrite edge_ends_edgeKey. unfold js_lt.
  destruct (a <? b)%N eqn:E.
  - apply N.ltb_lt in E. exists a, b. simpl. repeat split; try lia; tauto.
  - apply N.ltb_ge in E. exists b, a. simpl. repeat split; try lia; tauto.
Qed.

Lemma indexed_key_ends (mesh : Mesh.t) (ek : string) :
  3 * List.length (faces_of mesh) <= List.length (Mesh.indices mesh) ->
  In ek (keys (edgeFaces_of mesh)) ->
  exists x y, edge_ends ek = (Some (Z.of_N x), Some (Z.of_N y))
              /\ (x <= y)%N /\ In x (Mesh.indices mesh) /\ In y (Mesh.indices mesh).
Proof.
  intros Hlen Hin. rewrite edgeFaces_of_pushes in Hin.
  apply keys_pushes in Hin. destruct Hin as [[] | Hin].
  apply in_map_iff in Hin. destruct Hin as ([f k] & Hk & Hin). simpl in Hk. subst k.
  unfold pushes_of in Hin. apply in_flat_map in Hin. destruct Hin as (g & Hg & Hin).
  apply in_map_iff in Hin. destruct Hin as (k & Heq & Hk). injection Heq as -> ->.
  destruct (face_corners_defined mesh f Hlen Hg) as (i0 & i1 & i2 & Hc & H0 & H1 & H2).
  unfold face_edges in Hk. rewrite Hc in Hk.
  assert (Hpair : forall a b, In a (Mesh.indices mesh) -> In b (Mesh.indices mesh) ->
            exists x y, edge_ends (edgeKey (Some a) (Some b)) = (Some (Z.of_N x), Some (Z.of_N y))
                        /\ (x <= y)%N /\ In x (Mesh.indices mesh) /\ In y (Mesh.indices mesh)).
  { intros a b Ha Hb. destruct (ordered_ends a b) as (x & y & He & Hle & Hx & Hy).
    exists x, y. repeat split; try assumption.
    - destruct Hx; subst; assumption.
    - destruct Hy; subst; assumption. }
  destruct Hk as [<- | [<- | [<- | []]]]; apply Hpair; assumption.
Qed.

(** X11. When the index array holds three indices for every triangle the
    loop visits, both endpoints of every kept edge are numbers, the
    smaller first, and both are elements of the index array: no kept
    edge has a NaN endpoint or an endpoint no triangle uses. *)
Theorem kept_edge_endpoints `{Platform} (zones : list Zone.t) (mesh : Mesh.t)
    (opts : Opts.t) (a b : index) :
  3 * List.length (faces_of mesh) <= List.length (Mesh.indices mesh) ->
  In (a, b) (kept_edges zones mesh opts) ->
  exists x y, a = Some (Z.of_N x) /\ b = Some (Z.of_N y)
              /\ (x <= y)%N /\ In x (Mesh.indices mesh) /\ In y (Mesh.indices mesh).
Proof.
  intros Hlen Hin. rewrite kept_edges_eq in Hin.
  apply in_map_iff in Hin. destruct Hin as ([ek faces] & Hends & Hin).
  apply filter_In in Hin. destruct Hin as [Hin _]. simpl in Hends.
  destruct (indexed_key_ends mesh ek Hlen) as (x & y & He & Hle & Hx & Hy).
  { unfold keys. apply in_map_iff. exists (ek, faces). split; [reflexivity | exact Hin]. }
  exists x, y. rewrite He in Hends. injection Hends as <- <-. repeat split; assumption.
Qed.

(** ** The counters *)

Lemma verdict_partition `{Platform} (zones : list Zone.t) (opts : Opts.t)
    (positions : list number) (normals : list vec3) (edgeFaces : edge_map) :
  let count v := count_verdict zones opts positions normals v edgeFaces in
  count Sharp + count Long + count BoundaryKept + count TooShort + count Coplanar
  + count NonManifold + count BoundaryDropped = List.length edgeFaces.
Proof.
  unfold count_verdict. induction edgeFaces as [|entry rest IH]; [reflexivity|].
  cbn [filter List.length].
  destruct (verdict_of zones opts positions normals entry); cbn [verdict_eqb List.length];
    simpl in IH; lia.
Qed.

Lemma boundary_verdict_absent `{Platform} (zones : list Zone.t) (opts : Opts.t)
    (positions : list number) (normals : list vec3) (edgeFaces : edge_map)
    (v : verdict) (b : bool) :
  Opts.boundary opts = b ->
  v = (if b then BoundaryDropped else BoundaryKept) ->
  count_verdict zones opts positions normals v edgeFaces = 0.
Proof.
  intros Hb' ->. unfold count_verdict.
  induction edgeFaces as [|entry rest IH]; [reflexivity|].
  cbn [filter]. unfold verdict_of at 1. rewrite Hb'.
  destruct (too_short _ _ _ _); [destruct b; exact IH|].
  destruct (List.length (snd entry) =? 1)%nat; [destruct b; exact IH|].
  destruct (List.length (snd entry) =? 2)%nat; [|destruct b; exact IH].
  destruct (sharper _ _ _ _ _); [destruct b; exact IH|].
  destruct (longer _ _ _); destruct b; exact IH.
Qed.

(** X12. Every entry of the adjacency map is counted once: the six
    counters of the statistics and the boundary edges dropped by
    [--no-boundary] (which no counter records) add up to the number of
    source edges; with boundary edges kept the six counters alone do,
    and without them the six fall short by the number of dropped
    boundary edges. *)
Theorem counters_cover_edges `{Platform} (zones : list Zone.t) (mesh : Mesh.t)
    (opts : Opts.t) :
  let out := extract_mesh zones mesh opts in
  let s := Meta.stats (Output.meta out) in
  let counted := Stats.sharp s + Stats.long s + Stats.boundary s + Stats.tooShort s
                 + Stats.coplanar s + Stats.nonManifold s in
  let dropped := count_verdict zones opts (Mesh.positions mesh) (faceNormals_of mesh)
                   BoundaryDropped (edgeFaces_of mesh) in
  counted + dropped = Meta.sourceEdges (Output.meta out)
  /\ (Opts.boundary opts = true -> counted = Meta.sourceEdges (Output.meta out))
  /\ (Opts.boundary opts = false -> Stats.boundary s = 0).
Proof.
  cbn zeta.
  change (Meta.stats (Output.meta (extract_mesh zones mesh opts)))
    with (final_stats zones mesh opts).
  change (Meta.sourceEdges (Output.meta (extract_mesh zones mesh opts)))
    with (List.length (edgeFaces_of mesh)).
  pose proof (verdict_partition zones opts (Mesh.positions mesh) (faceNormals_of mesh)
                (edgeFaces_of mesh)) as Hpart. cbv beta zeta in Hpart.
  pose proof (final_stats_counter zones mesh opts) as Hc.
  assert (Hs : Stats.sharp (final_stats zones mesh opts) = _) by (apply (Hc Sharp); discriminate).
  assert (Hl : Stats.long (final_stats zones mesh opts) = _) by (apply (Hc Long); discriminate).
  assert (Hb : Stats.boundary (final_stats zones mesh opts) = _)
    by (apply (Hc BoundaryKept); discriminate).
  assert (Ht : Stats.tooShort (final_stats zones mesh opts) = _)
    by (apply (Hc TooShort); discriminate).
  assert (Hp : Stats.coplanar (final_stats zones mesh opts) = _)
    by (apply (Hc Coplanar); discriminate).
  assert (Hn : Stats.nonManifold (final_stats zones mesh opts) = _)
    by (apply (Hc NonManifold); discriminate).
  rewrite Hs, Hl, Hb, Ht, Hp, Hn.
  pose proof (boundary_verdict_absent zones opts (Mesh.positions mesh) (faceNormals_of mesh)
                (edgeFaces_of mesh)) as Hnone.
  split; [exact Hpart|]. split; intro Hb'.
  - rewrite (Hnone BoundaryDropped true Hb' eq_refl) in Hpart. lia.
  - exact (Hnone BoundaryKept false Hb' eq_refl).
Qed.

(** ** The per-zone statistics, added up *)

Lemma zone_total_bump (field : ZoneStat.t -> nat) (bump : ZoneStat.t -> ZoneStat.t)
    (d : nat) (name : string) (zs : zone_stats) :
  (forall s, field (bump s) = field s + d) ->
  Map_get String.eqb name zs <> None ->
  zone_total field (zoneStats_bump bump name zs) = zone_total field zs + d.
Proof.
  intro Hf. unfold zoneStats_bump, zone_total.
  destruct (Map_get String.eqb name zs) as [s|] eqn:E; [|congruence]. intros _.
  revert E. induction zs as [|[k v] rest IH]; simpl; [discriminate|].
  destruct (String.eqb k name).
  - intros [= ->]. simpl. rewrite Hf. lia.
  - intro E. simpl. rewrite (IH E). lia.
Qed.

Lemma Map_set_Forall {V : Type} (P : string * V -> Prop) (k : string) (v : V)
    (m : list (string * V)) :
  P (k, v) -> Forall P m -> Forall P (Map_set String.eqb k v m).
Proof.
  intros Hp Hm. induction Hm as [|[k' v'] rest Hhd Htl IH]; simpl.
  - constructor; [exact Hp | constructor].
  - destruct (String.eqb k' k); constructor; assumption.
Qed.

Lemma zone_total_init (field : ZoneStat.t -> nat) (zones : list Zone.t) :
  field (ZoneStat.Make 0 0 0) = 0 -> zone_total field (zoneStats_init zones) = 0.
Proof.
  intro Hzero.
  assert (Hall : Forall (fun e : string * ZoneStat.t => snd e = ZoneStat.Make 0 0 0)
                   (zoneStats_init zones)).
  { unfold zoneStats_init. apply Map_set_Forall; [reflexivity|].
    generalize (@nil (string * ZoneStat.t)) (Forall_nil (fun e : string * ZoneStat.t => snd e = ZoneStat.Make 0 0 0)).
    induction zones as [|z rest IH]; intros zs Hzs; simpl; [exact Hzs|].
    apply IH. apply Map_set_Forall; [reflexivity | exact Hzs]. }
  unfold zone_total. induction Hall as [|e rest He Hrest IH]; simpl; [reflexivity|].
  rewrite He, Hzero, IH. reflexivity.
Qed.

(** X13. The per-zone statistics add up to the global ones: whatever
    part of the adjacency map the loop has gone through, the [sharp],
    [tooShort] and [coplanar] counts summed over all zones (the default
    zone among them) equal the global counters of the same names, and
    the zones the statistics are kept for are those set up before the
    loop. *)
Theorem zone_statistics_total `{Platform} (zones : list Zone.t) (opts : Opts.t)
    (positions : list number) (normals : list vec3) (edgeFaces : edge_map) :
  let st := filter_edges zones opts positions normals edgeFaces in
  keys (Filter.zoneStats st) = keys (zoneStats_init zones)
  /\ zone_total ZoneStat.sharp (Filter.zoneStats st) = Stats.sharp (Filter.stats st)
  /\ zone_total ZoneStat.tooShort (Filter.zoneStats st) = Stats.tooShort (Filter.stats st)
  /\ zone_total ZoneStat.coplanar (Filter.zoneStats st) = Stats.coplanar (Filter.stats st).
Proof.
  cbn zeta. unfold filter_edges.
  induction edgeFaces as [|entry done IH] using rev_ind.
  - cbn [fold_left filter_init Filter.zoneStats Filter.stats].
    rewrite !zone_total_init by reflexivity. repeat split.
  - rewrite fold_left_app. cbn [fold_left].
    pose proof (zoneStats_entry_defined zones opts positions normals done (fst entry))
      as Hdef.
    set (st := fold_left (filter_edge zones opts positions normals) done (filter_init zones))
      in *.
    destruct IH as (Hkeys & Hsharp & Hshort & Hcoplanar).
    rewrite keys_zoneStats_step.
    split; [exact Hkeys|].
    rewrite filter_edge_verdict. cbn zeta.
    destruct (verdict_of zones opts positions normals entry);
      cbn [Filter.zoneStats Filter.stats];
      try (repeat split; assumption).
    + rewrite (zone_total_bump ZoneStat.sharp zs_tooShort 0) by (intros; simpl; lia || exact Hdef).
      rewrite (zone_total_bump ZoneStat.tooShort zs_tooShort 1) by (intros; simpl; lia || exact Hdef).
      rewrite (zone_total_bump ZoneStat.coplanar zs_tooShort 0) by (intros; simpl; lia || exact Hdef).
      simpl. repeat split; lia.
    + rewrite (zone_total_bump ZoneStat.sharp zs_sharp 1) by (intros; simpl; lia || exact Hdef).
      rewrite (zone_total_bump ZoneStat.tooShort zs_sharp 0) by (intros; simpl; lia || exact Hdef).
      rewrite (zone_total_bump ZoneStat.coplanar zs_sharp 0) by (intros; simpl; lia || exact Hdef).
      simpl. repeat split; lia.
    + rewrite (zone_total_bump ZoneStat.sharp zs_coplanar 0) by (intros; simpl; lia || exact Hdef).
      rewrite (zone_total_bump ZoneStat.tooShort zs_coplanar 0) by (intros; simpl; lia || exact Hdef).
      rewrite (zone_total_bump ZoneStat.coplanar zs_coplanar 1) by (intros; simpl; lia || exact Hdef).
      simpl. repeat split; lia.
Qed.

(** ** The compact output, read back *)

Lemma compact_fold_vertices (positions : list number) (used : list index) (c : Compact.t) :
  Compact.outVertices (fold_left (compact_vertex positions) used c)
  = Compact.outVertices c ++ flat_map (coordinates positions) used.
Proof.
  revert c. induction used as [|v l IH]; intro c; cbn [fold_left flat_map].
  - now rewrite List.app_nil_r.
  - rewrite IH. unfold compact_vertex, coordinates.
    destruct (getVertex_raw positions v) as [[x y] z]. cbn [Compact.outVertices].
    now rewrite <- List.app_assoc.
Qed.

Lemma nth_error_coordinates (positions : list number) (used : list index)
    (k : nat) (v : index) :
  nth_error used k = Some v ->
  output_vertex (flat_map (coordinates positions) used) k
  = Some (getVertex_raw positions v).
Proof.
  revert k. induction used as [|u l IH]; intros k Hk; [destruct k; discriminate|].
  unfold output_vertex in *. cbn [flat_map]. unfold coordinates at 1 3 5.
  destruct k as [|k].
  - injection Hk as ->. destruct (getVertex_raw positions v) as [[x y] z]. reflexivity.
  - destruct (getVertex_raw positions u) as [[x y] z].
    replace (3 * S k) with (S (S (S (3 * k)))) by lia.
    cbn [app nth_error Nat.add]. exact (IH k Hk).
Qed.

Lemma outIndices_endpoints (vertexMap : list (index * nat))
    (featureEdges : list (index * index)) :
  outIndices_of vertexMap featureEdges
  = map (fun v => Map_get index_eqb v vertexMap) (endpoints featureEdges).
Proof.
  rewrite outIndices_flat_map. unfold endpoints.
  induction featureEdges as [|e l IH]; [reflexivity|].
  cbn [flat_map app map]. now rewrite IH.
Qed.

Lemma endpoints_nth (edges : list (index * index)) (k : nat) (e : index * index) :
  nth_error edges k = Some e ->
  nth_error (endpoints edges) (2 * k) = Some (fst e)
  /\ nth_error (endpoints edges) (2 * k + 1) = Some (snd e).
Proof.
  revert k. induction edges as [|d l IH]; intros k Hk; [destruct k; discriminate|].
  destruct k as [|k].
  - injection Hk as ->. split; reflexivity.
  - replace (2 * S k) with (S (S (2 * k))) by lia.
    cbn [endpoints flat_map app nth_error Nat.add]. exact (IH k Hk).
Qed.

Lemma endpoints_used (edges : list (index * index)) (v : index) :
  In v (endpoints edges) <-> In v (usedVertices_of edges).
Proof.
  destruct (usedVertices_spec edges) as [_ Hused]. rewrite Hused.
  unfold endpoints. rewrite in_flat_map. split.
  - intros (e & He & [<- | [<- | []]]); exists e; tauto.
  - intros (e & He & [-> | ->]); exists e; simpl; tauto.
Qed.

Section CompactFacts.
Context `{Platform}.
Variables (zones : list Zone.t) (mesh : Mesh.t) (opts : Opts.t).

Let out := extract_mesh zones mesh opts.
Let used := usedVertices_of (kept_edges zones mesh opts).

Lemma output_vertices_eq :
  Output.vertices out = flat_map (coordinates (Mesh.positions mesh)) used.
Proof.
  subst out used. unfold extract_mesh, compact_vertices. cbn [Output.vertices].
  rewrite compact_fold_vertices. reflexivity.
Qed.

Lemma output_indices_eq :
  Output.indices out
  = map (fun v => Map_get index_eqb v (combine used (seq 0 (List.length used))))
      (endpoints (kept_edges zones mesh opts)).
Proof.
  destruct (compact_of_used zones mesh opts) as [Hm _].
  subst out. unfold extract_mesh. cbn [Output.indices].
  rewrite outIndices_endpoints.
  change (map (fun v => Map_get index_eqb v
                 (Compact.vertexMap (compact_vertices (Mesh.positions mesh)
                    (usedVertices_of (kept_edges zones mesh opts)))))
            (endpoints (kept_edges zones mesh opts))
          = map (fun v => Map_get index_eqb v (combine used (seq 0 (List.length used))))
              (endpoints (kept_edges zones mesh opts))).
  rewrite Hm. reflexivity.
Qed.

Lemma used_index (v : index) :
  In v used ->
  exists i, nth_error used i = Some v
            /\ Map_get index_eqb v (combine used (seq 0 (List.length used))) = Some i.
Proof.
  destruct (usedVertices_spec (kept_edges zones mesh opts)) as [Hnd _]. fold used in Hnd.
  intro Hv. apply In_nth_error in Hv. destruct Hv as [i Hi].
  exists i. split; [exact Hi|].
  exact (Map_get_combine used 0 i v Hnd Hi).
Qed.

Lemma output_index_at (p : nat) (v : index) :
  nth_error (endpoints (kept_edges zones mesh opts)) p = Some v ->
  exists i, nth_error used i = Some v /\ nth_error (Output.indices out) p = Some (Some i).
Proof.
  intro Hp.
  destruct (used_index v) as (i & Hi & Hget).
  { apply endpoints_used. eapply nth_error_In. exact Hp. }
  exists i. split; [exact Hi|].
  rewrite output_indices_eq, nth_error_map, Hp. cbn [option_map]. now rewrite Hget.
Qed.

(** X14. The compaction loses no geometry: for the kept edge number [k],
    the entries [2 k] and [2 k + 1] of the output index list are defined
    output indices, and the three output coordinates at each are the
    three values the position array reads for that endpoint of the
    edge. *)
Theorem compaction_round_trip (k : nat) (e : index * index) :
  nth_error (kept_edges zones mesh opts) k = Some e ->
  exists i j,
    nth_error (Output.indices out) (2 * k) = Some (Some i)
    /\ nth_error (Output.indices out) (2 * k + 1) = Some (Some j)
    /\ output_vertex (Output.vertices out) i
        = Some (getVertex_raw (Mesh.positions mesh) (fst e))
    /\ output_vertex (Output.vertices out) j
        = Some (getVertex_raw (Mesh.positions mesh) (snd e)).
Proof.
  intro Hk. destruct (endpoints_nth _ k e Hk) as [Ha Hb].
  destruct (output_index_at _ _ Ha) as (i & Hi & Hpi).
  destruct (output_index_at _ _ Hb) as (j & Hj & Hpj).
  exists i, j. rewrite output_vertices_eq.
  split; [exact Hpi|]. split; [exact Hpj|].
  split; apply nth_error_coordinates; assumption.
Qed.

(** X15. The compaction merges nothing but repeated uses of one source
    vertex: two entries of the output index list are equal exactly when
    the two endpoints they stand for are the same source index, even if
    distinct source vertices have the same coordinates. *)
Theorem compaction_injective (p q : nat) (u v : index) :
  nth_error (endpoints (kept_edges zones mesh opts)) p = Some u ->
  nth_error (endpoints (kept_edges zones mesh opts)) q = Some v ->
  (nth_error (Output.indices out) p = nth_error (Output.indices out) q <-> u = v).
Proof.
  intros Hp Hq.
  destruct (output_index_at _ _ Hp) as (i & Hi & Hpi).
  destruct (output_index_at _ _ Hq) as (j & Hj & Hqj).
  rewrite Hpi, Hqj. split.
  - intros [= ->]. congruence.
  - intros ->. destruct (usedVertices_spec (kept_edges zones mesh opts)) as [Hnd _].
    fold used in Hnd.
    assert (i = j); [|congruence].
    apply (proj1 (NoDup_nth_error used) Hnd).
    + apply nth_error_Some. congruence.
    + congruence.
Qed.

Lemma usedVertices_first_uses (edges : list (index * index)) :
  usedVertices_of edges = first_uses [] (endpoints edges).
Proof.
  unfold usedVertices_of, first_uses. generalize (@nil index) as acc.
  induction edges as [|e l IH]; intro acc; [reflexivity|].
  cbn [fold_left endpoints flat_map app]. apply IH.
Qed.

Lemma first_uses_prefix (l acc : list index) :
  exists suffix, first_uses acc l = acc ++ suffix.
Proof.
  revert acc. induction l as [|x l IH]; intro acc; cbn [first_uses fold_left].
  - exists []. now rewrite List.app_nil_r.
  - destruct (IH (Set_add index_eqb x acc)) as [suffix Hs].
    unfold first_uses in Hs. rewrite Hs. unfold Set_add.
    destruct (existsb _ acc); [now exists suffix|].
    exists (x :: suffix). now rewrite <- List.app_assoc.
Qed.

Lemma first_uses_NoDup (l acc : list index) : NoDup acc -> NoDup (first_uses acc l).
Proof.
  revert acc. induction l as [|x l IH]; intros acc Hnd; [exact Hnd|].
  cbn [first_uses fold_left]. apply IH. now apply (Set_add_NoDup _ index_eqb_eq).
Qed.

Lemma first_uses_order (l acc : list index) (p i : nat) (v : index) :
  NoDup acc ->
  nth_error l p = Some v ->
  nth_error (first_uses acc l) (S i) = Some v ->
  i < List.length acc
  \/ exists q, q < p /\ nth_error l q = nth_error (first_uses acc l) i.
Proof.
  revert acc p. induction l as [|x l IH]; intros acc p Hnd Hp Hi;
    [destruct p; discriminate|].
  assert (Hnd' : NoDup (Set_add index_eqb x acc)) by now apply (Set_add_NoDup _ index_eqb_eq).
  assert (Hlen : List.length (Set_add index_eqb x acc) = List.length acc
                 \/ Set_add index_eqb x acc = acc ++ [x]).
  { unfold Set_add. destruct (existsb _ acc); [left | right]; reflexivity. }
  change (first_uses acc (x :: l)) with (first_uses (Set_add index_eqb x acc) l) in *.
  destruct (first_uses_prefix l (Set_add index_eqb x acc)) as [suffix Hs].
  pose proof (first_uses_NoDup l _ Hnd') as Hndu.
  destruct p as [|p].
  - injection Hp as ->. left.
    assert (Hin : In v (Set_add index_eqb v acc))
      by (apply (Set_add_In _ index_eqb_eq); now left).
    apply In_nth_error in Hin. destruct Hin as [j Hj].
    assert (Hjlt : j < List.length (Set_add index_eqb v acc))
      by (apply nth_error_Some; congruence).
    assert (Hju : nth_error (first_uses (Set_add index_eqb v acc) l) j = Some v).
    { rewrite Hs, nth_error_app1 by exact Hjlt. exact Hj. }
    assert (j = S i).
    { apply (proj1 (NoDup_nth_error _) Hndu); [|congruence].
      apply nth_error_Some. congruence. }
    subst j. destruct Hlen as [Hlen | Hlen]; [lia|].
    rewrite Hlen, length_app in Hjlt. simpl in Hjlt. lia.
  - destruct (IH _ p Hnd' Hp Hi) as [Hlt | (q & Hq & Hnth)].
    + destruct Hlen as [Hlen | Hlen]; [left; lia|].
      rewrite Hlen, length_app in Hlt. simpl in Hlt.
      destruct (Nat.eq_dec i (List.length acc)) as [-> | Hne]; [|left; lia].
      right. exists 0. split; [lia|].
      rewrite Hs, Hlen, <- List.app_assoc, nth_error_app2 by lia.
      rewrite Nat.sub_diag. reflexivity.
    + right. exists (S q). split; [lia | exact Hnth].
Qed.

(** X16. Output indices are handed out in order of first use: an entry
    of the output index list that is not 0 comes after an entry holding
    the index one below, so the first entry is 0 and a new index is
    always the number of distinct endpoints met before. *)
Theorem output_indices_first_use (p i : nat) :
  nth_error (Output.indices out) p = Some (Some (S i)) ->
  exists q, q < p /\ nth_error (Output.indices out) q = Some (Some i).
Proof.
  intro Hp.
  destruct (usedVertices_spec (kept_edges zones mesh opts)) as [Hnd _]. fold used in Hnd.
  destruct (nth_error (endpoints (kept_edges zones mesh opts)) p) as [v|] eqn:Hv.
  2:{ rewrite output_indices_eq, nth_error_map, Hv in Hp. discriminate. }
  destruct (output_index_at p v Hv) as (i' & Hi' & Hpi').
  assert (i' = S i) by congruence. subst i'.
  assert (Hused : used = first_uses [] (endpoints (kept_edges zones mesh opts)))
    by apply usedVertices_first_uses.
  destruct (first_uses_order (endpoints (kept_edges zones mesh opts)) [] p i v
              (NoDup_nil _) Hv) as [Hlt | (q & Hq & Hnth)].
  { rewrite <- Hused. exact Hi'. }
  { simpl in Hlt. lia. }
  rewrite <- Hused in Hnth.
  destruct (nth_error used i) as [u|] eqn:Hu.
  2:{ apply nth_error_None in Hu.
      assert (S i < List.length used) by (apply nth_error_Some; congruence). lia. }
  destruct (output_index_at q u Hnth) as (j & Hj & Hqj).
  assert (j = i).
  { apply (proj1 (NoDup_nth_error used) Hnd); [|congruence].
    apply nth_error_Some. congruence. }
  subst j. exists q. split; [exact Hq | exact Hqj].
Qed.

End CompactFacts.

(** ** Typed arrays and the loader *)

Lemma ToIndex_value (v : option N) (n : N) : ToIndex v = inr n -> n = or_zero v.
Proof.
  unfold ToIndex, ret, throw. destruct v as [m|]; cbn [or_zero].
  - destruct (m <=? 2 ^ 53 - 1)%N; congruence.
  - congruence.
Qed.

Lemma length_read_elements {A : Type} (size : nat) (decode : list N -> A)
    (count : nat) (bytes : list N) :
  List.length (read_elements size decode count bytes) = count.
Proof.
  revert bytes. induction count as [|k IH]; intro bytes; simpl; [reflexivity|].
  now rewrite IH.
Qed.

(** A typed array that is made lies inside the buffer, at a multiple of
    the element size, and has the length asked for (or takes what is
    left of the buffer). *)
Lemma typed_array_success {A : Type} (elementSize : N) (decode : list N -> A)
    (buffer : list N) (byteOffset : N) (length : length_arg) (xs : list A) :
  typed_array elementSize decode buffer byteOffset length = inr xs ->
  (byteOffset mod elementSize = 0)%N
  /\ match length with
     | LengthNumber n =>
         List.length xs = N.to_nat (or_zero n)
         /\ (byteOffset + or_zero n * elementSize <= N.of_nat (List.length buffer))%N
     | LengthUndefined =>
         List.length xs
         = N.to_nat ((N.of_nat (List.length buffer) - byteOffset) / elementSize)
         /\ (byteOffset <= N.of_nat (List.length buffer))%N
     end.
Proof.
  unfold typed_array, typed_array_view, bind.
  destruct (ToIndex (Some byteOffset)) as [e|offset] eqn:Ho; [discriminate|].
  apply ToIndex_value in Ho. simpl in Ho. subst offset.
  destruct (byteOffset mod elementSize =? 0)%N eqn:Hmod; [|discriminate].
  apply N.eqb_eq in Hmod. cbn [negb].
  destruct length as [|n].
  - destruct (N.of_nat (List.length buffer) mod elementSize =? 0)%N; [|discriminate].
    cbn [negb].
    destruct (N.of_nat (List.length buffer) <? byteOffset)%N eqn:Hlt; [discriminate|].
    apply N.ltb_ge in Hlt. unfold ret. intros [= <-].
    rewrite length_read_elements. cbn [snd]. repeat split; assumption.
  - destruct (ToIndex n) as [e|newLength] eqn:Hn; [discriminate|].
    apply ToIndex_value in Hn. subst newLength.
    destruct (N.of_nat (List.length buffer) <? byteOffset + or_zero n * elementSize)%N eqn:Hlt;
      [discriminate|].
    apply N.ltb_ge in Hlt. unfold ret. intros [= <-].
    rewrite length_read_elements. cbn [snd]. repeat split; assumption.
Qed.

Lemma load_positions_success (gltf : Gltf.t) (buffer : NodeBuffer.t)
    (positions : list number) (count : option N) :
  load_positions gltf buffer = inr (positions, count) ->
  exists acc view,
    accessor_view gltf 0 = Some (acc, view)
    /\ count = Accessor.count acc
    /\ (view_start buffer acc view mod 4 = 0)%N
    /\ (view_start buffer acc view + or_zero count * 12
        <= N.of_nat (List.length (NodeBuffer.buffer buffer)))%N
    /\ List.length positions = 3 * N.to_nat (or_zero count).
Proof.
  unfold load_positions, accessor_view, element, property, bind, ret, throw.
  destruct (Gltf.accessors gltf) as [accessors|]; [|discriminate].
  cbn [N.to_nat]. destruct (nth_error accessors 0) as [acc|]; [|discriminate].
  destruct (Gltf.bufferViews gltf) as [views|]; [|discriminate].
  destruct (Accessor.bufferView acc) as [i|]; [|discriminate].
  destruct (nth_error views (N.to_nat i)) as [view|]; [|discriminate].
  destruct (Float32Array _ _ _) as [e|xs] eqn:Harr; [discriminate|].
  intros [= <- <-]. exists acc, view.
  apply typed_array_success in Harr. destruct Harr as (Hmod & Hlen & Hfit).
  unfold view_start. split; [reflexivity|]. split; [reflexivity|].
  split; [exact Hmod|].
  destruct (Accessor.count acc) as [n|]; cbn [option_map or_zero] in *.
  - split; [lia|]. rewrite Hlen. lia.
  - split; [lia|]. rewrite Hlen. reflexivity.
Qed.

Lemma load_indices_success (gltf : Gltf.t) (buffer : NodeBuffer.t)
    (indices : list N) (count : option N) :
  load_indices gltf buffer = inr (indices, count) ->
  exists acc view size,
    accessor_view gltf 1 = Some (acc, view)
    /\ count = Accessor.count acc
    /\ (Accessor.componentType acc = Some 5123%N /\ size = 2%N
        \/ Accessor.componentType acc = Some 5125%N /\ size = 4%N)
    /\ typed_array size le_value (NodeBuffer.buffer buffer) (view_start buffer acc view)
         (match count with
          | Some n => LengthNumber (Some n)
          | None => LengthUndefined
          end) = inr indices.
Proof.
  unfold load_indices. unfold bind at 1.
  destruct (index_accessor gltf) as [e|[[idxOffset idxCount] componentType]] eqn:Hacc;
    [discriminate|].
  destruct (accessor_view gltf 1) as [[acc view]|] eqn:Hview.
  2:{ rewrite (index_accessor_absent gltf Hview) in Hacc. discriminate. }
  rewrite (index_accessor_present gltf acc view Hview) in Hacc.
  injection Hacc as <- <- <-.
  unfold bind, ret, throw, Uint16Array, Uint32Array.
  fold (view_start buffer acc view).
  destruct (Accessor.componentType acc) as [ct|] eqn:Hct; [|discriminate].
  destruct (N.eq_dec ct 5123) as [-> | H16].
  { destruct (typed_array 2 _ _ _ _) as [e|xs] eqn:Harr; [discriminate|].
    intros [= <- <-]. exists acc, view, 2%N.
    split; [reflexivity|]. split; [reflexivity|]. split; [left; split; [exact Hct | reflexivity]|].
    exact Harr. }
  destruct (N.eq_dec ct 5125) as [-> | H32].
  { destruct (typed_array 4 _ _ _ _) as [e|xs] eqn:Harr; [discriminate|].
    intros [= <- <-]. exists acc, view, 4%N.
    split; [reflexivity|]. split; [reflexivity|]. split; [right; split; [exact Hct | reflexivity]|].
    exact Harr. }
  rewrite (component_type_match (Some ct)
             (typed_array 2 le_value (NodeBuffer.buffer buffer) (view_start buffer acc view)
                match Accessor.count acc with
                | Some n => LengthNumber (Some n)
                | None => LengthUndefined
                end)
             (typed_array 4 le_value (NodeBuffer.buffer buffer) (view_start buffer acc view)
                match Accessor.count acc with
                | Some n => LengthNumber (Some n)
                | None => LengthUndefined
                end)
             (fun other => inl (Error ("Unsupported index component type: " ++ template other)))).
  - discriminate.
  - split; congruence.
Qed.

Lemma loadGLTF_success `{Platform} (w : world) (gltfPath : option string) (mesh : Mesh.t) :
  loadGLTF w gltfPath = inr mesh ->
  exists dir gltf buffer pos idx,
    read_gltf w gltfPath = inr (dir, gltf)
    /\ read_buffer w dir gltf = inr buffer
    /\ load_positions gltf buffer = inr (Mesh.positions mesh, pos)
    /\ load_indices gltf buffer = inr (Mesh.indices mesh, idx)
    /\ Mesh.vertexCount mesh = pos
    /\ Mesh.triangleCount mesh = match idx with
                                 | Some n => (number_of_N n / 3)%float
                                 | None => PrimFloat.nan
                                 end.
Proof.
  unfold loadGLTF, load_arrays, bind, ret.
  destruct (read_gltf w gltfPath) as [e|[dir gltf]]; [discriminate|]. cbn [fst snd].
  destruct (read_buffer w dir gltf) as [e|buffer] eqn:Hbuf; [discriminate|].
  destruct (load_positions gltf buffer) as [e|[positions pos]] eqn:Hpos; [discriminate|].
  destruct (load_indices gltf buffer) as [e|[indices idx]] eqn:Hidx; [discriminate|].
  intros [= <-]. exists dir, gltf, buffer, pos, idx. cbn.
  split; [reflexivity|]. split; [exact Hbuf|]. split; [exact Hpos|]. split; [exact Hidx|].
  split; reflexivity.
Qed.

(** X17. A mesh that loads comes from a document whose accessors 0 and 1
    both resolve to a buffer view and whose index component type is 5123
    or 5125; its vertex count is the position accessor's [count] as
    read, its position array holds three values a counted vertex (none
    when the count is absent), and its index array has the index
    accessor's [count] elements when there is one. *)
Theorem loaded_mesh_shape `{Platform} (w : world) (gltfPath : option string)
    (mesh : Mesh.t) :
  loadGLTF w gltfPath = inr mesh ->
  exists dir gltf pa pv ia iv,
    read_gltf w gltfPath = inr (dir, gltf)
    /\ accessor_view gltf 0 = Some (pa, pv)
    /\ accessor_view gltf 1 = Some (ia, iv)
    /\ (Accessor.componentType ia = Some 5123%N \/ Accessor.componentType ia = Some 5125%N)
    /\ Mesh.vertexCount mesh = Accessor.count pa
    /\ List.length (Mesh.positions mesh) = 3 * N.to_nat (or_zero (Accessor.count pa))
    /\ (forall n, Accessor.count ia = Some n ->
          List.length (Mesh.indices mesh) = N.to_nat n
          /\ Mesh.triangleCount mesh = (number_of_N n / 3)%float)
    /\ (Accessor.count ia = None -> Mesh.triangleCount mesh = PrimFloat.nan).
Proof.
  intro Hload.
  destruct (loadGLTF_success w gltfPath mesh Hload)
    as (dir & gltf & buffer & pos & idx & Hdoc & _ & Hpos & Hidx & Hvc & Htc).
  destruct (load_positions_success gltf buffer _ _ Hpos)
    as (pa & pv & Hpv & -> & _ & _ & Hplen).
  destruct (load_indices_success gltf buffer _ _ Hidx)
    as (ia & iv & size & Hiv & -> & Hct & Harr).
  exists dir, gltf, pa, pv, ia, iv.
  split; [exact Hdoc|]. split; [exact Hpv|]. split; [exact Hiv|].
  split; [tauto|]. split; [exact Hvc|]. split; [exact Hplen|]. split.
  - intros n Hn. rewrite Hn in *. split; [|exact Htc].
    apply typed_array_success in Harr. tauto.
  - intro Hn. rewrite Hn in Htc. exact Htc.
Qed.

(** ** Index values *)

Lemma le_value_bound (bytes : list N) :
  Forall (fun b => (b < 256)%N) bytes ->
  (le_value bytes < 256 ^ N.of_nat (List.length bytes))%N.
Proof.
  induction 1 as [|b rest Hb Hrest IH]; [simpl; lia|].
  cbn [le_value fold_right List.length]. fold (le_value rest).
  rewrite Nat2N.inj_succ, N.pow_succ_r'. lia.
Qed.

Lemma Forall_firstn {A : Type} (P : A -> Prop) (n : nat) (l : list A) :
  Forall P l -> Forall P (firstn n l).
Proof.
  intro Hall. revert n. induction Hall as [|x l Hx Hl IH]; intro n.
  - rewrite firstn_nil. constructor.
  - destruct n; simpl; constructor; [exact Hx | apply IH].
Qed.

Lemma Forall_skipn {A : Type} (P : A -> Prop) (n : nat) (l : list A) :
  Forall P l -> Forall P (skipn n l).
Proof.
  intro Hall. revert n. induction Hall as [|x l Hx Hl IH]; intro n.
  - rewrite skipn_nil. constructor.
  - destruct n; simpl; [constructor; assumption | apply IH].
Qed.

Lemma le_value_chunk (size : nat) (bytes : list N) :
  Forall (fun b => (b < 256)%N) bytes ->
  (le_value (firstn size bytes) < 256 ^ N.of_nat size)%N.
Proof.
  intro Hall.
  assert (Hchunk : Forall (fun b => (b < 256)%N) (firstn size bytes))
    by apply Forall_firstn, Hall.
  apply le_value_bound in Hchunk.
  eapply N.lt_le_trans; [exact Hchunk|].
  apply N.pow_le_mono_r; [discriminate|].
  pose proof (length_firstn size bytes). lia.
Qed.

Lemma read_elements_bound (size count : nat) (bytes : list N) :
  Forall (fun b => (b < 256)%N) bytes ->
  Forall (fun i => (i < 256 ^ N.of_nat size)%N) (read_elements size le_value count bytes).
Proof.
  revert bytes. induction count as [|k IH]; intros bytes Hall; simpl; constructor.
  - apply le_value_chunk, Hall.
  - apply IH, Forall_skipn, Hall.
Qed.

Lemma typed_array_bound (size : N) (buffer : list N) (byteOffset : N)
    (length : length_arg) (xs : list N) :
  Forall (fun b => (b < 256)%N) buffer ->
  typed_array size le_value buffer byteOffset length = inr xs ->
  Forall (fun i => (i < 256 ^ size)%N) xs.
Proof.
  intros Hall. unfold typed_array, bind, ret.
  destruct (typed_array_view _ _ _ _) as [e|view]; [discriminate|].
  intros [= <-].
  pose proof (read_elements_bound (N.to_nat size) (N.to_nat (snd view))
                (skipn (N.to_nat (fst view)) buffer) (Forall_skipn _ _ _ Hall)) as Hb.
  rewrite N2Nat.id in Hb. exact Hb.
Qed.

Lemma read_buffer_bytes `{Platform} (w : world) (dir : string) (gltf : Gltf.t)
    (buffer : NodeBuffer.t) :
  read_buffer w dir gltf = inr buffer ->
  Forall (fun b => (b < 256)%N) (NodeBuffer.buffer buffer).
Proof.
  unfold read_buffer, bind, ret.
  destruct (element _ _) as [e|buffer0]; [discriminate|].
  destruct (property _ _) as [e|uri]; [discriminate|].
  destruct (resolve_args _) as [e|binFile]; [discriminate|].
  destruct (readFileSync w binFile) as [e|content]; [discriminate|].
  intros [= <-]. unfold Buffer_of_content.
  destruct (Buffer_pool content) as [before after]. cbn [NodeBuffer.buffer].
  assert (Hbytes : forall t, Forall (fun b => (b < 256)%N) (bytes_of t)).
  { intro t. apply Forall_forall. intros b Hb. apply in_map_iff in Hb.
    destruct Hb as (c & <- & _). apply N_ascii_bounded. }
  repeat (apply Forall_app; split); apply Hbytes.
Qed.

(** X18. The indices of a loaded mesh fit the width the document
    declares: each is below 2^16 when the index component type is 5123,
    and below 2^32 when it is 5125. *)
Theorem loaded_indices_width `{Platform} (w : world) (gltfPath : option string)
    (mesh : Mesh.t) :
  loadGLTF w gltfPath = inr mesh ->
  exists dir gltf ia iv,
    read_gltf w gltfPath = inr (dir, gltf)
    /\ accessor_view gltf 1 = Some (ia, iv)
    /\ (Accessor.componentType ia = Some 5123%N
        /\ Forall (fun i => (i < 2 ^ 16)%N) (Mesh.indices mesh)
        \/ Accessor.componentType ia = Some 5125%N
           /\ Forall (fun i => (i < 2 ^ 32)%N) (Mesh.indices mesh)).
Proof.
  intro Hload.
  destruct (loadGLTF_success w gltfPath mesh Hload)
    as (dir & gltf & buffer & pos & idx & Hdoc & Hbuf & _ & Hidx & _ & _).
  destruct (load_indices_success gltf buffer _ _ Hidx)
    as (ia & iv & size & Hiv & _ & Hct & Harr).
  exists dir, gltf, ia, iv. split; [exact Hdoc|]. split; [exact Hiv|].
  apply typed_array_bound in Harr; [|exact (read_buffer_bytes w dir gltf buffer Hbuf)].
  destruct Hct as [[Hct ->] | [Hct ->]]; [left | right]; (split; [exact Hct | exact Harr]).
Qed.

(** ** What the loader throws *)

Lemma read_gltf_error `{Platform} (w : world) (gltfPath : option string) (e : js_error) :
  read_gltf w gltfPath = inl e ->
  e = TypeError \/ e = SyntaxError
  \/ (e = FsError /\ exists p, In p (files_read w gltfPath) /\ w p = None).
Proof.
  unfold files_read. unfold read_gltf at 1. unfold bind.
  destruct (resolve_args [gltfPath]) as [e'|gltfFile] eqn:Hres.
  { unfold resolve_args in Hres.
    destruct (forallb _ _); [discriminate|]. injection Hres as <-.
    intros [= <-]. now left. }
  unfold readFileSync. destruct (w gltfFile) as [text|] eqn:Hw.
  - cbn. destruct (JSON_parse text); [discriminate|]. intros [= <-]. right. now left.
  - intros [= <-]. right. right. split; [reflexivity|].
    exists gltfFile. split; [left; reflexivity | exact Hw].
Qed.

Lemma read_buffer_error `{Platform} (w : world) (gltfPath : option string)
    (dir : string) (gltf : Gltf.t) (e : js_error) :
  read_gltf w gltfPath = inr (dir, gltf) ->
  read_buffer w dir gltf = inl e ->
  e = TypeError
  \/ (e = FsError /\ exists p, In p (files_read w gltfPath) /\ w p = None).
Proof.
  intro Hdoc. unfold files_read. rewrite Hdoc. cbn [fst snd].
  assert (Hres : exists f, resolve_args [gltfPath] = inr f).
  { unfold read_gltf, bind in Hdoc.
    destruct (resolve_args [gltfPath]) as [e'|f]; [discriminate | now exists f]. }
  destruct Hres as [f ->].
  unfold read_buffer, bind.
  destruct (element (Gltf.buffers gltf) (Some 0%N)) as [e'|buffer0] eqn:Hel.
  { unfold element in Hel. destruct (Gltf.buffers gltf); [discriminate|].
    injection Hel as <-. intros [= <-]. now left. }
  destruct (property buffer0 BufferRef.uri) as [e'|uri] eqn:Hprop.
  { unfold property in Hprop. destruct buffer0; [discriminate|].
    injection Hprop as <-. intros [= <-]. now left. }
  destruct (resolve_args [Some dir; uri]) as [e'|binFile] eqn:Hres.
  { unfold resolve_args in Hres. destruct (forallb _ _); [discriminate|].
    injection Hres as <-. intros [= <-]. now left. }
  unfold readFileSync. destruct (w binFile) eqn:Hw; [discriminate|].
  intros [= <-]. right. split; [reflexivity|].
  exists binFile. split; [right; left; reflexivity | exact Hw].
Qed.

Lemma load_indices_error (gltf : Gltf.t) (buffer : NodeBuffer.t) (e : js_error) :
  load_indices gltf buffer = inl e ->
  e = TypeError \/ e = RangeError
  \/ exists ct, unsupported_type ct
               /\ e = Error ("Unsupported index component type: " ++ template ct).
Proof.
  destruct (accessor_view gltf 1) as [[acc view]|] eqn:Hview.
  2:{ rewrite (load_indices_absent gltf buffer Hview). intros [= <-]. now left. }
  unfold load_indices. rewrite (index_accessor_present gltf acc view Hview).
  unfold bind at 1.
  destruct (Accessor.componentType acc) as [ct|] eqn:Hct.
  2:{ intros [= <-]. right. right. exists None. split; [split; discriminate | reflexivity]. }
  destruct (N.eq_dec ct 5123) as [-> | H16].
  { unfold bind, Uint16Array. destruct (typed_array _ _ _ _ _) as [e'|xs] eqn:Harr;
      [|discriminate].
    intros [= <-]. apply typed_array_error in Harr. tauto. }
  destruct (N.eq_dec ct 5125) as [-> | H32].
  { unfold bind, Uint32Array. destruct (typed_array _ _ _ _ _) as [e'|xs] eqn:Harr;
      [|discriminate].
    intros [= <-]. apply typed_array_error in Harr. tauto. }
  assert (Hun : unsupported_type (Some ct)) by (split; congruence).
  rewrite (component_type_match (Some ct) _ _
             (fun other => throw (Error ("Unsupported index component type: "
                                         ++ template other))) Hun).
  intros [= <-]. right. right. exists (Some ct). split; [exact Hun | reflexivity].
Qed.

(** X19. What the loader can throw: a [TypeError], a [RangeError], a
    [SyntaxError], a file-system error, or the error naming an index
    component type that is neither 5123 nor 5125, and nothing else; a
    file-system error means that one of the files the loader reads (the
    model or its payload) is missing. *)
Theorem loader_error_kinds `{Platform} (w : world) (gltfPath : option string)
    (e : js_error) :
  loadGLTF w gltfPath = inl e ->
  (e = TypeError \/ e = RangeError \/ e = SyntaxError \/ e = FsError
   \/ exists ct, unsupported_type ct
                /\ e = Error ("Unsupported index component type: " ++ template ct))
  /\ (e = FsError -> exists p, In p (files_read w gltfPath) /\ w p = None).
Proof.
  unfold loadGLTF. unfold bind at 1.
  destruct (read_gltf w gltfPath) as [e'|[dir gltf]] eqn:Hdoc.
  { intros [= <-]. destruct (read_gltf_error w gltfPath e' Hdoc) as [-> | [-> | [-> Hp]]].
    - split; [tauto | discriminate].
    - split; [tauto | discriminate].
    - split; [tauto | intros _; exact Hp]. }
  cbn [fst snd]. unfold bind.
  destruct (read_buffer w dir gltf) as [e'|buffer] eqn:Hbuf.
  { intros [= <-]. destruct (read_buffer_error w gltfPath dir gltf e' Hdoc Hbuf) as [-> | [-> Hp]].
    - split; [tauto | discriminate].
    - split; [tauto | intros _; exact Hp]. }
  unfold load_arrays, bind.
  destruct (load_positions gltf buffer) as [e'|pos] eqn:Hpos.
  { intros [= <-]. destruct (load_positions_error gltf buffer e' Hpos) as [-> | ->];
      (split; [tauto | discriminate]). }
  destruct (load_indices gltf buffer) as [e'|idx] eqn:Hidx; [|discriminate].
  intros [= <-].
  destruct (load_indices_error gltf buffer e' Hidx) as [-> | [-> | (ct & Hun & ->)]].
  - split; [tauto | discriminate].
  - split; [tauto | discriminate].
  - split; [|discriminate]. do 4 right. exists ct. split; [exact Hun | reflexivity].
Qed.

Lemma view_out_of_bounds (gltf : Gltf.t) (buffer : NodeBuffer.t)
    (acc : Accessor.t) (view : BufferView.t) :
  accessor_view gltf 0 = Some (acc, view) ->
  (view_start buffer acc view mod 4 <> 0
   \/ N.of_nat (List.length (NodeBuffer.buffer buffer))
      < view_start buffer acc view + 12 * or_zero (Accessor.count acc))%N ->
  load_positions gltf buffer = inl RangeError
  /\ load_arrays gltf buffer = inl RangeError.
Proof.
  intros Hview Hbad.
  assert (Hpos : load_positions gltf buffer = inl RangeError).
  { destruct (load_positions gltf buffer) as [e|[positions count]] eqn:Hpos.
    - f_equal. destruct (load_positions_error gltf buffer e Hpos) as [-> | ->];
        [|reflexivity].
      exfalso. revert Hpos. unfold accessor_view in Hview.
      unfold load_positions, element, property, bind, ret, throw.
      destruct (Gltf.accessors gltf) as [accessors|]; [|discriminate].
      destruct (Gltf.bufferViews gltf) as [views|]; [|discriminate].
      cbn [N.to_nat]. destruct (nth_error accessors 0) as [acc'|]; [|discriminate].
      destruct (Accessor.bufferView acc') as [i|]; [|discriminate].
      destruct (nth_error views (N.to_nat i)) as [view'|]; [|discriminate].
      destruct (Float32Array _ _ _) as [e|xs] eqn:Harr; [|discriminate].
      apply typed_array_error in Harr. congruence.
    - exfalso. destruct (load_positions_success gltf buffer _ _ Hpos)
        as (acc' & view' & Hview' & -> & Hmod & Hfit & _).
      rewrite Hview in Hview'. injection Hview' as <- <-. lia. }
  split; [exact Hpos|]. unfold load_arrays, bind. now rewrite Hpos.
Qed.

Lemma length_bytes_of (content : string) :
  List.length (bytes_of content) = String.length content.
Proof.
  unfold bytes_of. rewrite length_map.
  induction content as [|c r IH]; [reflexivity|]. cbn. now rewrite IH.
Qed.

(** X20. The bound of the position view is the [ArrayBuffer] under the
    payload's [Buffer], not the payload. With [before] and [after] the
    bytes of that [ArrayBuffer] on the two sides of the payload, a
    position view whose start, counted from the start of the
    [ArrayBuffer], is no multiple of four, or that runs past the payload
    and the bytes after it, is a [RangeError] of the typed-array
    constructor, and the load stops there whatever the index accessor
    holds. For a payload with an [ArrayBuffer] of its own the bound is
    the end of the payload. *)
Theorem positions_out_of_bounds `{Platform} (gltf : Gltf.t) (content : string)
    (acc : Accessor.t) (view : BufferView.t) :
  accessor_view gltf 0 = Some (acc, view) ->
  let before := N.of_nat (String.length (fst (Buffer_pool content))) in
  let after := N.of_nat (String.length (snd (Buffer_pool content))) in
  let start := (or_zero (BufferView.byteOffset view) + or_zero (Accessor.byteOffset acc))%N in
  ((before + start) mod 4 <> 0
   \/ N.of_nat (String.length content) + after
      < start + 12 * or_zero (Accessor.count acc))%N ->
  load_positions gltf (Buffer_of_content content) = inl RangeError
  /\ load_arrays gltf (Buffer_of_content content) = inl RangeError.
Proof.
  intros Hview before after start Hbad.
  apply (view_out_of_bounds gltf _ acc view Hview).
  subst before after start. unfold view_start, Buffer_of_content.
  destruct (Buffer_pool content) as [b a]. cbn [fst snd] in Hbad.
  cbn [NodeBuffer.buffer NodeBuffer.byteOffset].
  rewrite !length_app, !length_bytes_of.
  destruct Hbad as [Hbad | Hbad]; [left; exact Hbad | right; lia].
Qed.

(** ** The command line *)

Lemma args_ind (P : list string -> Prop) :
  P [] ->
  (forall a rest, P rest -> (forall v rest', rest = v :: rest' -> P rest') -> P (a :: rest)) ->
  forall args, P args.
Proof.
  intros Hnil Hcons args.
  enough (Hboth : P args /\ forall v rest', args = v :: rest' -> P rest') by apply Hboth.
  induction args as [|a rest [IH1 IH2]].
  - split; [exact Hnil | discriminate].
  - split; [apply Hcons; assumption|]. intros v rest' [= _ <-]. exact IH1.
Qed.

Lemma parseArgs_from_cons (a : string) (rest : list string) (opts : Opts.t) :
  parseArgs_from (a :: rest) opts =
  if takes_value a then
    let set : option string -> Opts.t -> Opts.t :=
      if a =? "--input" then Opts.set_input
      else if a =? "--output" then Opts.set_output
      else if a =? "--threshold" then fun v => Opts.set_threshold (parseFloat v)
      else if a =? "--min-length" then fun v => Opts.set_minLength (parseFloat v)
      else fun v => Opts.set_featureLength (parseFloat v) in
    match rest with
    | [] => set None opts
    | v :: rest' => parseArgs_from rest' (set (Some v) opts)
    end
  else
    parseArgs_from rest
      (if a =? "--boundary" then Opts.set_boundary true opts
       else if a =? "--no-boundary" then Opts.set_boundary false opts
       else if a =? "--no-zones" then Opts.set_zones false opts
       else if a =? "--stats" then Opts.set_stats true opts
       else opts).
Proof.
  cbn [parseArgs_from]. unfold takes_value.
  destruct (a =? "--input"); [reflexivity|].
  destruct (a =? "--output"); [reflexivity|].
  destruct (a =? "--threshold"); [reflexivity|].
  destruct (a =? "--min-length"); [reflexivity|].
  destruct (a =? "--feature-length"); [reflexivity|].
  cbn [orb].
  destruct (a =? "--boundary"); [reflexivity|].
  destruct (a =? "--no-boundary"); [reflexivity|].
  destruct (a =? "--no-zones"); [reflexivity|].
  destruct (a =? "--stats"); reflexivity.
Qed.

Lemma parseArgs_from_app (args1 args2 : list string) (opts : Opts.t) :
  dangling args1 = false ->
  parseArgs_from (args1 ++ args2) opts = parseArgs_from args2 (parseArgs_from args1 opts).
Proof.
  revert opts. induction args1 as [|a rest IH1 IH2] using args_ind; intros opts Hd.
  - reflexivity.
  - change ((a :: rest) ++ args2) with (a :: (rest ++ args2)).
    rewrite !parseArgs_from_cons. cbn [dangling] in Hd.
    destruct (takes_value a).
    + destruct rest as [|v rest']; [discriminate|].
      cbn zeta. cbn [app]. apply (IH2 v rest' eq_refl), Hd.
    + apply IH1, Hd.
Qed.

(** X21. Options are read left to right, and a later option overrides an
    earlier one: when the list before it does not end on an option
    waiting for its value, parsing a concatenation is parsing the second
    list from the options the first list gave, so a final [--threshold v]
    or [--no-boundary] sets its field whatever came before. *)
Theorem parseArgs_compose (args1 args2 : list string) (opts : Opts.t) (v : string) :
  dangling args1 = false ->
  parseArgs_from (args1 ++ args2) opts = parseArgs_from args2 (parseArgs_from args1 opts)
  /\ parseArgs_from (args1 ++ ["--threshold"; v]) opts
     = Opts.set_threshold (parseFloat_string v) (parseArgs_from args1 opts)
  /\ parseArgs_from (args1 ++ ["--no-boundary"]) opts
     = Opts.set_boundary false (parseArgs_from args1 opts).
Proof.
  intro Hd. rewrite !(parseArgs_from_app args1) by exact Hd. repeat split.
Qed.

(** X22. Two flags only go one way: no option turns zone filtering back
    on once it is off, and none turns the statistics off once they are
    on; zone filtering that is on after parsing was on before. *)
Theorem flags_one_way (args : list string) (opts : Opts.t) :
  (Opts.zones opts = false -> Opts.zones (parseArgs_from args opts) = false)
  /\ (Opts.stats opts = true -> Opts.stats (parseArgs_from args opts) = true).
Proof.
  revert opts. induction args as [|a rest IH1 IH2] using args_ind; intro opts.
  - split; trivial.
  - rewrite parseArgs_from_cons.
    destruct (takes_value a).
    + destruct rest as [|v rest'].
      * cbn zeta.
        destruct (a =? "--input"); [split; trivial|].
        destruct (a =? "--output"); [split; trivial|].
        destruct (a =? "--threshold"); [split; trivial|].
        destruct (a =? "--min-length"); split; trivial.
      * cbn zeta.
        destruct (a =? "--input"); [exact (IH2 v rest' eq_refl (Opts.set_input _ opts))|].
        destruct (a =? "--output"); [exact (IH2 v rest' eq_refl (Opts.set_output _ opts))|].
        destruct (a =? "--threshold");
          [exact (IH2 v rest' eq_refl (Opts.set_threshold _ opts))|].
        destruct (a =? "--min-length");
          [exact (IH2 v rest' eq_refl (Opts.set_minLength _ opts))|].
        exact (IH2 v rest' eq_refl (Opts.set_featureLength _ opts)).
    + destruct (a =? "--boundary"); [exact (IH1 (Opts.set_boundary true opts))|].
      destruct (a =? "--no-boundary"); [exact (IH1 (Opts.set_boundary false opts))|].
      destruct (a =? "--no-zones").
      { destruct (IH1 (Opts.set_zones false opts)) as [Hz Hs].
        split; [intros _; apply Hz; reflexivity | exact Hs]. }
      destruct (a =? "--stats"); [|apply IH1].
      destruct (IH1 (Opts.set_stats true opts)) as [Hz Hs].
      split; [exact Hz | intros _; apply Hs; reflexivity].
Qed.

(** ** Running the script *)

Lemma run_unresolved `{Platform} (args : list string) (w : world) :
  Opts.output (parseArgs args) = None ->
  run args w =
  (match extractFeatureEdges w (Opts.input (parseArgs args)) (parseArgs args) with
   | inl e => inl e
   | inr _ => inl TypeError
   end, w).
Proof.
  intro Hout. unfold run. unfold resolve_args. rewrite Hout. cbn [forallb andb].
  destruct (extractFeatureEdges _ _ _); reflexivity.
Qed.

(** X23. An option left without its value reads [undefined]. A final
    [--input] makes the run throw a [TypeError] before any file is read;
    a final [--output] lets the whole extraction run and then throws a
    [TypeError] where the path is resolved; a final [--threshold] stores
    NaN. In the two failing cases nothing is written. *)
Theorem trailing_option `{Platform} (args : list string) (w : world) :
  dangling args = false ->
  run (args ++ ["--input"]) w = (inl TypeError, w)
  /\ run (args ++ ["--output"]) w =
     (match extractFeatureEdges w (Opts.input (parseArgs args))
              (Opts.set_output None (parseArgs args)) with
      | inl e => inl e
      | inr _ => inl TypeError
      end, w)
  /\ Opts.threshold (parseArgs (args ++ ["--threshold"])) = PrimFloat.nan.
Proof.
  intro Hd. unfold parseArgs.
  assert (Hin : parseArgs (args ++ ["--input"]) = Opts.set_input None (parseArgs args))
    by (unfold parseArgs; now rewrite parseArgs_from_app).
  assert (Hout : parseArgs (args ++ ["--output"]) = Opts.set_output None (parseArgs args))
    by (unfold parseArgs; now rewrite parseArgs_from_app).
  split; [|split].
  - unfold run. rewrite Hin. reflexivity.
  - rewrite run_unresolved by (rewrite Hout; reflexivity). rewrite Hout. reflexivity.
  - now rewrite parseArgs_from_app.
Qed.


Lemma run_cases `{Platform} (args : list string) (w : world) :
  run args w =
  match extractFeatureEdges w (Opts.input (parseArgs args)) (parseArgs args) with
  | inl e => (inl e, w)
  | inr out =>
      match resolve_args [Opts.output (parseArgs args)] with
      | inl e => (inl e, w)
      | inr path =>
          match write_fails w path (JSON_stringify out) with
          | None => (inr out, set_file w path (Some (JSON_stringify out)))
          | Some remains => (inl FsError, set_file w path remains)
          end
      end
  end.
Proof.
  unfold run, writeFileSync.
  destruct (extractFeatureEdges _ _ _) as [e|out]; [reflexivity|].
  destruct (resolve_args _) as [e|path]; [reflexivity|].
  destruct (write_fails w path (JSON_stringify out)); reflexivity.
Qed.

(** X24. What a run does to the file system. A run that throws in the
    loader or where the output path is resolved leaves it as it was. A
    run whose write throws leaves at the resolved output path what the
    failed write left there. A run that returns has written the
    serialized output at the resolved output path, where it can be read
    back. In every case no path other than the resolved output path is
    changed. *)
Theorem run_footprint `{Platform} (args : list string) (w : world) :
  (forall p, resolve_args [Opts.output (parseArgs args)] <> inr p ->
             snd (run args w) p = w p)
  /\ (forall e,
        extractFeatureEdges w (Opts.input (parseArgs args)) (parseArgs args) = inl e
        \/ resolve_args [Opts.output (parseArgs args)] = inl e ->
        exists e', run args w = (inl e', w))
  /\ (forall out path remains,
        extractFeatureEdges w (Opts.input (parseArgs args)) (parseArgs args) = inr out ->
        resolve_args [Opts.output (parseArgs args)] = inr path ->
        write_fails w path (JSON_stringify out) = Some remains ->
        run args w = (inl FsError, set_file w path remains))
  /\ (forall out, fst (run args w) = inr out ->
        exists path,
          resolve_args [Opts.output (parseArgs args)] = inr path
          /\ write_fails w path (JSON_stringify out) = None
          /\ snd (run args w) = set_file w path (Some (JSON_stringify out))
          /\ readFileSync (snd (run args w)) path = inr (JSON_stringify out)).
Proof.
  rewrite run_cases.
  destruct (extractFeatureEdges w (Opts.input (parseArgs args)) (parseArgs args))
    as [e|output].
  { split; [reflexivity|]. split; [eauto|]. split; discriminate. }
  destruct (resolve_args [Opts.output (parseArgs args)]) as [e|path].
  { split; [reflexivity|]. split; [eauto|]. split; discriminate. }
  destruct (write_fails w path (JSON_stringify output)) as [remains|] eqn:Hw;
    cbn [fst snd].
  - split; [|split; [|split]].
    + intros p Hp. unfold set_file.
      destruct (p =? path) eqn:E; [|reflexivity].
      apply String.eqb_eq in E. now subst p.
    + intros e [He | He]; discriminate.
    + intros out path' remains' [= <-] [= <-]. rewrite Hw. now intros [= <-].
    + discriminate.
  - split; [|split; [|split]].
    + intros p Hp. unfold set_file.
      destruct (p =? path) eqn:E; [|reflexivity].
      apply String.eqb_eq in E. now subst p.
    + intros e [He | He]; discriminate.
    + intros out path' remains' [= <-] [= <-]. rewrite Hw. discriminate.
    + intros out [= <-]. exists path. split; [reflexivity|]. split; [exact Hw|].
      split; [reflexivity|]. unfold readFileSync, set_file.
      now rewrite String.eqb_refl.
Qed.


(** ** Numbers on the command line *)

Lemma parseFloat_digits (s : string) (v : N) (k : nat) :
  all_digits s = true ->
  read_digits digit_of_ascii 10 s 0 0 = (v, S k, EmptyString) ->
  parseFloat_string s = number_of_decimal false v 0.
Proof.
  intros Hd Hr. destruct s as [|c r]; [discriminate|].
  cbn [all_digits] in Hd.
  destruct (digit_of_ascii c) as [d|] eqn:Hc; [|discriminate].
  apply digit_cases in Hc. unfold parseFloat_string.
  assert (Hhead : read_sign (trim_start (String c r)) = (false, String c r)
                  /\ starts_with "Infinity" (String c r) = false).
  { simpl in Hc.
    repeat (destruct Hc as [<- | Hc]; [split; reflexivity|]). contradiction. }
  destruct Hhead as [-> ->]. rewrite Hr. reflexivity.
Qed.

Lemma number_of_decimal_integer (n : N) :
  (n < 2 ^ 63)%N -> number_of_decimal false n 0 = number_of_N n.
Proof.
  intro Hn. unfold number_of_decimal, number_of_N.
  destruct (n =? 0)%N eqn:E.
  - apply N.eqb_eq in E. subst n. reflexivity.
  - cbn [Z.leb Z.compare]. rewrite <- (SF2Prim_Prim2SF (of_uint63 _)).
    rewrite FloatAxioms.of_uint63_spec, Uint63.of_Z_spec.
    rewrite Z.mod_small.
    + change (10 ^ 0)%Z with 1%Z. now rewrite Z.mul_1_r.
    + change wB with (2 ^ 63)%Z. split; [lia|].
      change (2 ^ 63)%Z with (Z.of_N (2 ^ 63)). lia.
Qed.

(** X26. A decimal integer on the command line reads as the number it
    writes: for an integer below 2^63, [parseFloat] of its decimal text
    is the number the integer converts to (the integer itself below
    2^53, the nearest binary64 value above), and [--threshold] stores
    that number. *)
Theorem parseFloat_integer (n : N) (rest : list string) (opts : Opts.t) :
  (n < 2 ^ 63)%N ->
  parseFloat_string (string_of_N n) = number_of_N n
  /\ parseArgs_from ("--threshold" :: string_of_N n :: rest) opts
     = parseArgs_from rest (Opts.set_threshold (number_of_N n) opts).
Proof.
  intro Hn.
  assert (Hparse : parseFloat_string (string_of_N n) = number_of_N n).
  { destruct (string_of_N_nonempty n) as (c & r & Hs).
    pose proof (string_of_N_value n) as Hv.
    pose proof (string_of_N_digits n) as Hd.
    destruct (read_digits_all (string_of_N n) 0 0 Hd) as [v Hv'].
    rewrite Hs in Hv' at 2. cbn [String.length plus] in Hv'.
    rewrite Hv in Hv'. injection Hv' as Hv1 Hk.
    rewrite Hk in Hv.
    rewrite (parseFloat_digits (string_of_N n) n _ Hd Hv).
    apply number_of_decimal_integer, Hn. }
  split; [exact Hparse|].
  cbn [parseArgs_from]. cbn. unfold parseFloat. now rewrite Hparse.
Qed.

(** ** Splitting a key *)

(** X27. Splitting at the underscore loses nothing: joining the parts
    with underscores gives the text back, no part holds an underscore,
    and there is always a first part. *)
Theorem str_split_join (s : string) :
  String.concat "_" (str_split "_" s) = s
  /\ Forall (fun p => no_underscore p = true) (str_split "_" s)
  /\ str_split "_" s <> [].
Proof.
  induction s as [|h r (IHjoin & IHparts & IHne)].
  - repeat split; [constructor; [reflexivity | constructor] | discriminate].
  - cbn [str_split].
    destruct (str_split "_" r) as [|p ps] eqn:Hparts; [contradiction|].
    destruct (Ascii.eqb h "_") eqn:Hh.
    + apply Ascii.eqb_eq in Hh. subst h. split; [|split].
      * rewrite <- IHjoin. reflexivity.
      * constructor; [reflexivity | exact IHparts].
      * discriminate.
    + split; [|split].
      * rewrite <- IHjoin. destruct ps; reflexivity.
      * inversion IHparts as [|? ? Hp Hps]; subst.
        constructor; [|exact Hps]. cbn [no_underscore]. now rewrite Hh, Hp.
      * discriminate.
Qed.

(** ** A mesh without triangles *)

(** X28. When the triangle count gives the face loop no turn (a count
    of zero, or the NaN of an index accessor without [count], whatever
    the index array holds), the output is empty: no vertex, no index,
    no source edge, and every counter at 0. *)
Theorem no_triangle_no_output `{Platform} (zones : list Zone.t) (mesh : Mesh.t)
    (opts : Opts.t) :
  loop_trips (Mesh.triangleCount mesh) = 0 ->
  let out := extract_mesh zones mesh opts in
  Output.vertices out = []
  /\ Output.indices out = []
  /\ Meta.sourceEdges (Output.meta out) = 0
  /\ Meta.featureEdges (Output.meta out) = 0
  /\ Meta.stats (Output.meta out) = Stats.Make 0 0 0 0 0 0.
Proof.
  intro Hnone. cbn zeta.
  assert (Hedges : edgeFaces_of mesh = []).
  { unfold edgeFaces_of, faces_of. rewrite Hnone. reflexivity. }
  unfold extract_mesh. rewrite Hedges. cbn. repeat split.
Qed.

(** ** The clamp before the arc cosine *)

Lemma SFcompare_none (a b : spec_float) :
  SFcompare a b = None -> a = S754_nan \/ b = S754_nan.
Proof.
  destruct a as [s|s| |s m e], b as [s'|s'| |s' m' e']; simpl; intro Hc;
    try discriminate; tauto.
Qed.

Lemma is_nan_false (x : number) : is_nan x = false -> Prim2SF x <> S754_nan.
Proof.
  unfold is_nan. rewrite FloatAxioms.eqb_spec. intros Hx E. rewrite E in Hx. discriminate.
Qed.

Lemma is_nan_true (x : number) : is_nan x = true -> Prim2SF x = S754_nan.
Proof.
  unfold is_nan. rewrite FloatAxioms.eqb_spec. unfold SFeqb.
  destruct (Prim2SF x) as [s|s| |s m e]; simpl; try (destruct s; discriminate);
    [reflexivity|].
  rewrite Z.compare_refl, Pos.compare_cont_refl. destruct s; discriminate.
Qed.

Lemma ltb_not_nan (x y : number) :
  (x <? y)%float = true -> is_nan x = false /\ is_nan y = false.
Proof.
  rewrite FloatAxioms.ltb_spec. intro Hlt.
  split; [destruct (is_nan x) eqn:Hn | destruct (is_nan y) eqn:Hn]; try reflexivity;
    apply is_nan_true in Hn; rewrite Hn in Hlt; unfold SFltb in Hlt;
    try discriminate.
  destruct (Prim2SF x); discriminate.
Qed.

Lemma SFcompare_eq_finite (s : bool) (m : positive) (e : Z) (b : spec_float) :
  SFcompare (S754_finite s m e) b = Some Eq -> b = S754_finite s m e.
Proof.
  destruct b as [s'|s'| |s' m' e']; simpl.
  - destruct s; discriminate.
  - destruct s'; discriminate.
  - discriminate.
  - destruct s, s'; try discriminate; destruct (e ?= e')%Z eqn:He; try discriminate;
      apply Z.compare_eq in He; subst e'; intro Hc; injection Hc as Hc.
    + destruct (Pos.compare_cont Eq m m') eqn:Hm; try discriminate.
      apply Pos.compare_eq in Hm. now subst m'.
    + apply Pos.compare_eq in Hc. now subst m'.
Qed.

Lemma float_compare_eq (k x : number) (s : bool) (m : positive) (e : Z) :
  Prim2SF k = S754_finite s m e ->
  is_nan x = false ->
  (k <? x)%float = false -> (x <? k)%float = false ->
  x = k.
Proof.
  intros Hk Hx. rewrite !FloatAxioms.ltb_spec. unfold SFltb.
  rewrite (SFcompare_antisym (Prim2SF k) (Prim2SF x)).
  destruct (SFcompare (Prim2SF k) (Prim2SF x)) as [[| |]|] eqn:Hc; simpl;
    try discriminate; intros _ _.
  - rewrite Hk in Hc. apply SFcompare_eq_finite in Hc. rewrite <- Hk in Hc.
    now apply Prim2SF_inj.
  - apply SFcompare_none in Hc. destruct Hc as [Hc | Hc].
    + rewrite Hk in Hc. discriminate.
    + now apply is_nan_false in Hx.
Qed.

Lemma float_ltb_leb (x y : number) : (x <? y)%float = true -> (x <=? y)%float = true.
Proof.
  rewrite FloatAxioms.ltb_spec, FloatAxioms.leb_spec. unfold SFltb, SFleb.
  destruct (SFcompare (Prim2SF x) (Prim2SF y)) as [[| |]|]; congruence.
Qed.

Lemma ltb_asym (x y : number) : (x <? y)%float = true -> (y <? x)%float = false.
Proof.
  rewrite !FloatAxioms.ltb_spec. unfold SFltb.
  rewrite (SFcompare_antisym (Prim2SF x) (Prim2SF y)).
  destruct (SFcompare (Prim2SF x) (Prim2SF y)) as [[| |]|]; cbn [option_map CompOpp];
    congruence.
Qed.

Lemma Math_min_one (x : number) :
  is_nan x = false ->
  Math_min 1%float x = (if (1 <? x)%float then 1%float else x)
  /\ (Math_min 1%float x <=? 1)%float = true.
Proof.
  intro Hn. unfold Math_min. change (is_nan 1) with false. rewrite Hn. cbn [orb].
  change (get_sign 1) with false. cbn iota.
  destruct (1 <? x)%float eqn:H1x; [split; reflexivity|].
  destruct (x <? 1)%float eqn:Hx1; [split; [reflexivity | now apply float_ltb_leb]|].
  split; [reflexivity|].
  rewrite (float_compare_eq 1%float x false 4503599627370496 (-52) eq_refl Hn H1x Hx1).
  reflexivity.
Qed.

Lemma Math_max_minus_one (m : number) :
  is_nan m = false ->
  Math_max (-1)%float m = (if (m <? -1)%float then (-1)%float else m)
  /\ (-1 <=? Math_max (-1)%float m)%float = true.
Proof.
  intro Hn. unfold Math_max. change (is_nan (-1)) with false. rewrite Hn. cbn [orb].
  change (get_sign (-1)) with true. cbn iota.
  destruct (-1 <? m)%float eqn:Hlo.
  - rewrite (ltb_asym _ _ Hlo). split; [reflexivity | now apply float_ltb_leb].
  - destruct (m <? -1)%float eqn:Hhi; [split; reflexivity|].
    split; [reflexivity|].
    rewrite (float_compare_eq (-1)%float m true 4503599627370496 (-52) eq_refl Hn Hlo Hhi).
    reflexivity.
Qed.

(** X29. What the arc cosine is given is never out of its domain: the
    clamp of a cosine that is a number is that cosine, 1 or -1, and lies
    between -1 and 1; the clamp of NaN is NaN. A dot product of two
    unit normals that rounding took past 1 is brought back to 1. *)
Theorem clamp_in_range (x : number) :
  let c := Math_max (-1)%float (Math_min 1%float x) in
  (is_nan x = true -> c = PrimFloat.nan)
  /\ (is_nan x = false ->
      c = (if (1 <? x)%float then 1%float
           else if (x <? -1)%float then (-1)%float else x)
      /\ (-1 <=? c)%float = true /\ (c <=? 1)%float = true).
Proof.
  cbn zeta. split.
  - intro Hn. unfold Math_min. rewrite Hn, orb_true_r. reflexivity.
  - intro Hn. destruct (Math_min_one x Hn) as [Hmin Hle].
    destruct (1 <? x)%float eqn:H1x.
    + rewrite Hmin. change (Math_max (-1)%float 1%float) with 1%float.
      split; [reflexivity|]. split; reflexivity.
    + rewrite Hmin in *.
      destruct (Math_max_minus_one x Hn) as [Hmax Hge].
      split; [exact Hmax|]. split; [exact Hge|].
      rewrite Hmax. destruct (x <? -1)%float; [reflexivity | exact Hle].
Qed.


(** * The filter's verdicts, read in the output *)

(** ** Segments of the output *)

Lemma length_endpoints (edges : list (index * index)) :
  List.length (endpoints edges) = 2 * List.length edges.
Proof.
  unfold endpoints. induction edges as [|e l IH]; [reflexivity|].
  simpl in *. rewrite IH. lia.
Qed.

Lemma count_verdict_too_short `{Platform} (zones : list Zone.t) (opts : Opts.t)
    (positions : list number) (faceNormals : list vec3) (edgeFaces : edge_map) :
  count_verdict zones opts positions faceNormals TooShort edgeFaces
  = List.length (filter (fun entry => too_short zones opts positions (fst entry)) edgeFaces).
Proof.
  unfold count_verdict. f_equal. apply filter_ext. intros [ek faces].
  unfold verdict_of. cbn [fst snd].
  destruct (too_short zones opts positions ek); [reflexivity|].
  destruct (List.length faces =? 1)%nat; [destruct (Opts.boundary opts); reflexivity|].
  destruct (List.length faces =? 2)%nat; [|reflexivity].
  destruct (sharper _ _ _ _ _); [reflexivity|].
  destruct (longer _ _ _); reflexivity.
Qed.

Lemma counted_entry `{Platform} (zones : list Zone.t) (opts : Opts.t)
    (positions : list number) (faceNormals : list vec3) (edgeFaces : edge_map)
    (entry : string * list nat) (v : verdict) :
  In entry edgeFaces ->
  verdict_of zones opts positions faceNormals entry = v ->
  1 <= count_verdict zones opts positions faceNormals v edgeFaces.
Proof.
  intros Hin Hv. unfold count_verdict.
  assert (Hf : In entry (filter (fun entry0 =>
                 verdict_eqb (verdict_of zones opts positions faceNormals entry0) v) edgeFaces)).
  { apply filter_In. split; [exact Hin|]. rewrite Hv. destruct v; reflexivity. }
  destruct (filter _ edgeFaces); [destruct Hf | cbn; lia].
Qed.

Lemma too_short_coordinates `{Platform} (zones : list Zone.t) (opts : Opts.t)
    (positions : list number) (ek ek' : string) :
  end_coordinates positions (edge_ends ek') = end_coordinates positions (edge_ends ek) ->
  too_short zones opts positions ek' = too_short zones opts positions ek.
Proof.
  unfold end_coordinates. intro Hc.
  pose proof (f_equal fst Hc) as Ha. pose proof (f_equal snd Hc) as Hb.
  cbn [fst snd] in Ha, Hb.
  unfold too_short, effective_minLength, edge_zone, edge_length, edge_midpoint, getVertex.
  now rewrite Ha, Hb.
Qed.

(** The loop body, by the quantities of an entry. *)
Lemma filter_edge_step `{Platform} (zones : list Zone.t) (opts : Opts.t)
    (positions : list number) (faceNormals : list vec3) (st : Filter.t)
    (ek : string) (faces : list nat) :
  filter_edge zones opts positions faceNormals st (ek, faces) =
  let zoneName := effective_zoneName zones opts positions ek in
  let pushed := Filter.featureEdges st ++ [edge_ends ek] in
  if too_short zones opts positions ek then
    Filter.Make (Filter.featureEdges st) (st_tooShort (Filter.stats st))
      (zoneStats_bump zs_tooShort zoneName (Filter.zoneStats st))
  else if (List.length faces =? 1)%nat then
    if Opts.boundary opts
    then Filter.Make pushed (st_boundary (Filter.stats st)) (Filter.zoneStats st)
    else st
  else if (List.length faces =? 2)%nat then
    if sharper zones opts positions faceNormals (ek, faces) then
      Filter.Make pushed (st_sharp (Filter.stats st))
        (zoneStats_bump zs_sharp zoneName (Filter.zoneStats st))
    else if longer opts positions ek then
      Filter.Make pushed (st_long (Filter.stats st)) (Filter.zoneStats st)
    else
      Filter.Make (Filter.featureEdges st) (st_coplanar (Filter.stats st))
        (zoneStats_bump zs_coplanar zoneName (Filter.zoneStats st))
  else Filter.Make pushed (st_nonManifold (Filter.stats st)) (Filter.zoneStats st).
Proof.
  unfold filter_edge, too_short, sharper, longer, effective_zoneName, effective_minLength,
    effective_threshold, edge_zone, edge_length, edge_midpoint.
  cbn [fst snd]. destruct (edge_ends ek) as [a b]. reflexivity.
Qed.

Section OutputSegments.
Context `{Platform}.
Variables (zones : list Zone.t) (mesh : Mesh.t) (opts : Opts.t).

Let out := extract_mesh zones mesh opts.
Let positions := Mesh.positions mesh.
Let normals := faceNormals_of mesh.

Lemma output_stats : Meta.stats (Output.meta out) = final_stats zones mesh opts.
Proof. reflexivity. Qed.

Lemma kept_edge_segment (k : nat) (e : index * index) :
  nth_error (kept_edges zones mesh opts) k = Some e ->
  output_segment out k = Some (end_coordinates positions e).
Proof.
  intro Hk. destruct (endpoints_nth _ k e Hk) as [Ha Hb].
  destruct (output_index_at zones mesh opts _ _ Ha) as (i & Hi & Hpi).
  destruct (output_index_at zones mesh opts _ _ Hb) as (j & Hj & Hpj).
  unfold output_segment. fold out in Hpi, Hpj. rewrite Hpi, Hpj.
  subst out. rewrite (output_vertices_eq zones mesh opts).
  rewrite (nth_error_coordinates _ _ _ _ Hi), (nth_error_coordinates _ _ _ _ Hj).
  reflexivity.
Qed.

Lemma output_segment_kept (k : nat) s :
  output_segment out k = Some s ->
  exists e, nth_error (kept_edges zones mesh opts) k = Some e
            /\ s = end_coordinates positions e.
Proof.
  intro Hs.
  destruct (nth_error (kept_edges zones mesh opts) k) as [e|] eqn:Hk.
  - exists e. split; [reflexivity|]. rewrite (kept_edge_segment k e Hk) in Hs. congruence.
  - exfalso. apply nth_error_None in Hk. unfold output_segment in Hs.
    destruct (nth_error (Output.indices out) (2 * k)) eqn:Hi; [|discriminate].
    assert (Hlt : 2 * k < List.length (Output.indices out)).
    { apply nth_error_Some. congruence. }
    subst out. rewrite (output_indices_eq zones mesh opts), length_map, length_endpoints in Hlt.
    lia.
Qed.

Lemma included_kept (e : index * index) :
  included zones mesh opts e <-> In e (kept_edges zones mesh opts).
Proof.
  unfold included. split.
  - intros (k & Hk & _). eapply nth_error_In. exact Hk.
  - intro Hin. apply In_nth_error in Hin. destruct Hin as [k Hk].
    exists k. split; [exact Hk | now apply kept_edge_segment].
Qed.

Lemma included_entry (ek : string) (faces : list nat) :
  In (ek, faces) (edgeFaces_of mesh) ->
  included zones mesh opts (edge_ends ek)
  <-> kept zones opts positions normals (ek, faces) = true.
Proof.
  intro Hin. rewrite included_kept. now apply kept_edges_In.
Qed.

Lemma counted_in_output (entry : string * list nat) (v : verdict) :
  In entry (edgeFaces_of mesh) ->
  verdict_of zones opts positions normals entry = v ->
  v <> BoundaryDropped ->
  1 <= counter v (Meta.stats (Output.meta out)).
Proof.
  intros Hin Hv Hb. rewrite output_stats, (final_stats_counter zones mesh opts v Hb).
  now apply (counted_entry _ _ _ _ _ entry).
Qed.

(** C2. Hard floor. An edge of the adjacency map whose length is below
    the effective minimum length (the minimum length of the first zone
    holding its midpoint when zone filtering is on, the global one
    otherwise) is excluded from the output the extraction returns,
    whatever the number of its faces and whatever its angle: it is not
    included, no segment of the output has the coordinates of its two
    ends, the loop body does nothing for it but count it as too short,
    globally and under its zone, and the [tooShort] count of the
    output's metadata is the number of such entries, at least one. *)
Theorem hard_floor_precedence (ek : string) (faces : list nat) :
  In (ek, faces) (edgeFaces_of mesh) ->
  (edge_length positions ek <? effective_minLength zones opts positions ek)%float = true ->
  ~ included zones mesh opts (edge_ends ek)
  /\ (forall k, output_segment (extract_mesh zones mesh opts) k
                <> Some (end_coordinates positions (edge_ends ek)))
  /\ (forall st,
        filter_edge zones opts positions normals st (ek, faces)
        = Filter.Make (Filter.featureEdges st) (st_tooShort (Filter.stats st))
            (zoneStats_bump zs_tooShort (effective_zoneName zones opts positions ek)
               (Filter.zoneStats st)))
  /\ Stats.tooShort (Meta.stats (Output.meta (extract_mesh zones mesh opts)))
     = List.length (filter (fun entry => too_short zones opts positions (fst entry))
                      (edgeFaces_of mesh))
  /\ 1 <= Stats.tooShort (Meta.stats (Output.meta (extract_mesh zones mesh opts)))
  /\ effective_minLength zones opts positions ek =
     match (if useZones_of zones opts
            then findZone zones (edge_midpoint positions ek) else None) with
     | Some z => Zone.minLength z
     | None => Opts.minLength opts
     end.
Proof.
  intros Hin Hshort.
  assert (Hverdict : verdict_of zones opts positions normals (ek, faces) = TooShort).
  { unfold verdict_of, too_short. cbn [fst]. now rewrite Hshort. }
  split; [|split; [|split; [|split; [|split; [|reflexivity]]]]].
  - rewrite (included_entry ek faces Hin).
    unfold kept, too_short. cbn [fst]. rewrite Hshort. discriminate.
  - intros k Hk. apply output_segment_kept in Hk. destruct Hk as (e & Hk & Hc).
    apply nth_error_In in Hk. rewrite kept_edges_eq in Hk. apply in_map_iff in Hk.
    destruct Hk as ([ek' faces'] & <- & Hk). apply filter_In in Hk.
    destruct Hk as [_ Hk]. cbn [fst] in Hc.
    symmetry in Hc. apply (too_short_coordinates zones opts) in Hc.
    unfold kept in Hk. cbn [fst] in Hk. fold positions in Hk. rewrite Hc in Hk.
    unfold too_short in Hk. rewrite Hshort in Hk. discriminate.
  - intro st. rewrite filter_edge_step. cbv zeta. unfold too_short.
    fold positions. now rewrite Hshort.
  - change (counter TooShort (Meta.stats (Output.meta out))
            = List.length (filter (fun entry => too_short zones opts positions (fst entry))
                             (edgeFaces_of mesh))).
    rewrite output_stats, (final_stats_counter zones mesh opts TooShort) by discriminate.
    apply count_verdict_too_short.
  - apply (counted_in_output (ek, faces) TooShort Hin Hverdict). discriminate.
Qed.

(** C3. Boundary and non-manifold edges. For an edge of the adjacency
    map that passes the length floor: with exactly one face it is
    included in the output the extraction returns if and only if the
    boundary flag is set (the loop body pushes it and counts it as a
    boundary edge when the flag is set, and leaves the state as it was
    when it is not); with three faces or more it is included, whatever
    its angle, its length and the zone thresholds (the loop body pushes
    it and counts it as non-manifold, with no comparison but the
    floor). An included edge is a segment of the output with the
    coordinates of its two ends. *)
Theorem boundary_and_non_manifold (ek : string) (faces : list nat) :
  In (ek, faces) (edgeFaces_of mesh) ->
  (edge_length positions ek <? effective_minLength zones opts positions ek)%float = false ->
  (List.length faces = 1 ->
     (included zones mesh opts (edge_ends ek) <-> Opts.boundary opts = true)
     /\ (Opts.boundary opts = true ->
         forall st,
           filter_edge zones opts positions normals st (ek, faces)
           = Filter.Make (Filter.featureEdges st ++ [edge_ends ek])
               (st_boundary (Filter.stats st)) (Filter.zoneStats st))
     /\ (Opts.boundary opts = false ->
         forall st, filter_edge zones opts positions normals st (ek, faces) = st))
  /\ (3 <= List.length faces ->
      included zones mesh opts (edge_ends ek)
      /\ (forall st,
            filter_edge zones opts positions normals st (ek, faces)
            = Filter.Make (Filter.featureEdges st ++ [edge_ends ek])
                (st_nonManifold (Filter.stats st)) (Filter.zoneStats st))
      /\ 1 <= Stats.nonManifold (Meta.stats (Output.meta (extract_mesh zones mesh opts))))
  /\ (included zones mesh opts (edge_ends ek) ->
      exists k, output_segment (extract_mesh zones mesh opts) k
                = Some (end_coordinates positions (edge_ends ek))).
Proof.
  intros Hin Hfloor.
  pose proof (included_entry ek faces Hin) as Hinc.
  unfold kept, too_short in Hinc. cbn [fst snd] in Hinc. rewrite Hfloor in Hinc.
  split; [|split].
  - intros Hlen. rewrite Hlen in Hinc. cbn [Nat.eqb] in Hinc. split; [exact Hinc|].
    split; intros Hb st; rewrite filter_edge_step; cbv zeta; unfold too_short;
      fold positions; rewrite Hfloor, Hlen, Hb; reflexivity.
  - intro Hlen.
    destruct (Nat.eqb_spec (List.length faces) 1) as [E|N1]; [lia|].
    destruct (Nat.eqb_spec (List.length faces) 2) as [E|N2]; [lia|].
    split; [now apply Hinc|]. split.
    { intro st. rewrite filter_edge_step. cbv zeta. unfold too_short.
      fold positions. rewrite Hfloor.
      destruct (Nat.eqb_spec (List.length faces) 1) as [E|_]; [lia|].
      destruct (Nat.eqb_spec (List.length faces) 2) as [E|_]; [lia|]. reflexivity. }
    apply (counted_in_output (ek, faces) NonManifold Hin); [|discriminate].
    unfold positions, normals.
    rewrite (not_short_verdict zones mesh opts ek faces) by exact Hfloor.
    destruct (Nat.eqb_spec (List.length faces) 1) as [E|_]; [lia|].
    destruct (Nat.eqb_spec (List.length faces) 2) as [E|_]; [lia|]. reflexivity.
  - intros (k & _ & Hk). now exists k.
Qed.


End OutputSegments.


(** ** Two runs of the extraction

    A run is a platform: its arc cosine, its parser and serializer, its
    paths, the memory beside the payload and the outcome of its write.
    Two runs are two platforms. *)

Lemma clamp_domain (x : number) :
  let c := Math_max (-1)%float (Math_min 1%float x) in
  is_nan c = true \/ ((-1 <=? c)%float = true /\ (c <=? 1)%float = true).
Proof.
  cbn zeta. destruct (is_nan x) eqn:Hn.
  - left. unfold Math_min. rewrite Hn, orb_true_r. reflexivity.
  - right. destruct (Math_min_one x Hn) as [Hmin Hle].
    destruct (1 <? x)%float eqn:H1x.
    + rewrite Hmin. split; reflexivity.
    + rewrite Hmin in *. destruct (Math_max_minus_one x Hn) as [Hmax Hge].
      split; [exact Hge|]. rewrite Hmax.
      destruct (x <? -1)%float; [reflexivity | exact Hle].
Qed.

Section TwoRuns.
Variables (P1 P2 : Platform).
Hypothesis acos_agree :
  forall x, is_nan x = true \/ ((-1 <=? x)%float = true /\ (x <=? 1)%float = true) ->
            @Math_acos P1 x = @Math_acos P2 x.

Lemma dihedral_angle_agree (faceNormals : list vec3) (faces : list nat) :
  @dihedral_angle P1 faceNormals faces = @dihedral_angle P2 faceNormals faces.
Proof. unfold dihedral_angle. apply acos_agree, clamp_domain. Qed.

Lemma filter_edge_agree (zones : list Zone.t) (opts : Opts.t) (positions : list number)
    (faceNormals : list vec3) (st : Filter.t) (entry : string * list nat) :
  @filter_edge P1 zones opts positions faceNormals st entry
  = @filter_edge P2 zones opts positions faceNormals st entry.
Proof.
  unfold filter_edge. destruct entry as [ek faces]. destruct (edge_ends ek) as [a b].
  now rewrite dihedral_angle_agree.
Qed.

Lemma filter_edges_agree (zones : list Zone.t) (opts : Opts.t) (positions : list number)
    (faceNormals : list vec3) (edgeFaces : edge_map) :
  @filter_edges P1 zones opts positions faceNormals edgeFaces
  = @filter_edges P2 zones opts positions faceNormals edgeFaces.
Proof.
  unfold filter_edges. generalize (filter_init zones) as st.
  induction edgeFaces as [|entry l IH]; intro st; [reflexivity|].
  cbn [fold_left]. now rewrite filter_edge_agree, IH.
Qed.

Lemma extract_mesh_agree (zones : list Zone.t) (mesh : Mesh.t) (opts : Opts.t) :
  @extract_mesh P1 zones mesh opts = @extract_mesh P2 zones mesh opts.
Proof. unfold extract_mesh. now rewrite filter_edges_agree. Qed.

End TwoRuns.

(** C9. Determinism. Two runs of the extraction on the same mesh
    (positions and indices), the same zone list and the same options
    return the same output: the same vertex array, the same index array
    and the same metadata, whatever else differs between the two runs
    (the files, the paths, the memory beside the payload, the outcome of
    the write, the serializer), as long as their arc cosines agree on
    what the clamp lets through, the numbers from -1 to 1 and NaN. Two
    runs whose loaders return that mesh return equal results, and their
    output texts are the same when their serializers are. *)
Theorem extraction_deterministic (P1 P2 : Platform) (zones : list Zone.t)
    (mesh : Mesh.t) (opts : Opts.t) :
  (forall x, is_nan x = true \/ ((-1 <=? x)%float = true /\ (x <=? 1)%float = true) ->
             @Math_acos P1 x = @Math_acos P2 x) ->
  Output.vertices (@extract_mesh P1 zones mesh opts)
  = Output.vertices (@extract_mesh P2 zones mesh opts)
  /\ Output.indices (@extract_mesh P1 zones mesh opts)
     = Output.indices (@extract_mesh P2 zones mesh opts)
  /\ Output.meta (@extract_mesh P1 zones mesh opts)
     = Output.meta (@extract_mesh P2 zones mesh opts)
  /\ (forall w1 w2 path1 path2,
        @loadGLTF P1 w1 path1 = inr mesh ->
        @loadGLTF P2 w2 path2 = inr mesh ->
        @extractFeatureEdges_in P1 zones w1 path1 opts
        = @extractFeatureEdges_in P2 zones w2 path2 opts)
  /\ (@JSON_stringify P1 = @JSON_stringify P2 ->
      @JSON_stringify P1 (@extract_mesh P1 zones mesh opts)
      = @JSON_stringify P2 (@extract_mesh P2 zones mesh opts)).
Proof.
  intro Hacos.
  pose proof (extract_mesh_agree P1 P2 Hacos zones mesh opts) as Hsame.
  rewrite Hsame. split; [reflexivity|]. split; [reflexivity|]. split; [reflexivity|].
  split.
  - intros w1 w2 path1 path2 H1 H2. unfold extractFeatureEdges_in.
    rewrite H1, H2. cbn [bind ret]. now rewrite Hsame.
  - intros ->. reflexivity.
Qed.

(** * Witnesses and counterexamples *)



(** C2, witness: with the default options (minimum length 1.8) the
    edge 0-1 of the fin mesh, of length 1 and with three faces, is too
    short: it is not included, the output has no segment at all, and
    all seven edges are counted too short. *)
Lemma hard_floor_precedence_witness :
  In ("0_1", [0; 1; 2]) (edgeFaces_of fin_mesh)
  /\ (edge_length (Mesh.positions fin_mesh) "0_1"
      <? effective_minLength ZONES default_opts (Mesh.positions fin_mesh) "0_1")%float = true
  /\ ~ included (H := ref) ZONES fin_mesh default_opts (edge_ends "0_1")
  /\ (forall k, output_segment (extract_mesh (H := ref) ZONES fin_mesh default_opts) k
                <> Some (end_coordinates (Mesh.positions fin_mesh) (edge_ends "0_1")))
  /\ Output.indices (extract_mesh (H := ref) ZONES fin_mesh default_opts) = []
  /\ Stats.tooShort (Meta.stats (Output.meta
       (extract_mesh (H := ref) ZONES fin_mesh default_opts))) = 7.
Proof.
  assert (Hin : In ("0_1", [0; 1; 2]) (edgeFaces_of fin_mesh)) by (vm_compute; tauto).
  destruct (hard_floor_precedence (H := ref) ZONES fin_mesh default_opts "0_1" [0; 1; 2]
              Hin eq_refl) as (Hout & Hseg & _ & Hcount & _).
  split; [exact Hin|]. split; [reflexivity|]. split; [exact Hout|].
  split; [exact Hseg|]. split; [reflexivity|]. rewrite Hcount. reflexivity.
Defined.

(** C3, witness: on the fin mesh without a length floor the edge 0-1
    (three faces) is a segment of the output, and the boundary edge 1-2
    is included with the boundary flag and not without it. *)
Lemma boundary_and_non_manifold_witness :
  (In ("0_1", [0; 1; 2]) (edgeFaces_of fin_mesh)
   /\ included (H := ref) ZONES fin_mesh scenario_opts (edge_ends "0_1")
   /\ exists k,
        output_segment (extract_mesh (H := ref) ZONES fin_mesh scenario_opts) k
        = Some (end_coordinates (Mesh.positions fin_mesh) (edge_ends "0_1")))
  /\ (In ("1_2", [0]) (edgeFaces_of fin_mesh)
      /\ (included (H := ref) ZONES fin_mesh scenario_opts (edge_ends "1_2")
          <-> Opts.boundary scenario_opts = true)
      /\ (included (H := ref) ZONES fin_mesh (Opts.set_boundary false scenario_opts)
            (edge_ends "1_2")
          <-> Opts.boundary (Opts.set_boundary false scenario_opts) = true)).
Proof.
  assert (H3 : In ("0_1", [0; 1; 2]) (edgeFaces_of fin_mesh)) by (vm_compute; tauto).
  assert (H1 : In ("1_2", [0]) (edgeFaces_of fin_mesh)) by (vm_compute; tauto).
  destruct (boundary_and_non_manifold (H := ref) ZONES fin_mesh scenario_opts
              "0_1" [0; 1; 2] H3 eq_refl) as (_ & Hmany & Hseg).
  destruct (boundary_and_non_manifold (H := ref) ZONES fin_mesh scenario_opts
              "1_2" [0] H1 eq_refl) as (Hone & _).
  destruct (boundary_and_non_manifold (H := ref) ZONES fin_mesh
              (Opts.set_boundary false scenario_opts) "1_2" [0] H1 eq_refl) as (Hoff & _).
  split; [|split; [exact H1|split]].
  - split; [exact H3|]. destruct (Hmany (le_n 3)) as [Hinc _].
    split; [exact Hinc | exact (Hseg Hinc)].
  - exact (proj1 (Hone eq_refl)).
  - exact (proj1 (Hoff eq_refl)).
Defined.




(** C9, witness: the square read by two runs, one on the reference
    platform from the short payload in the pool, one on the other
    platform from the payload of 4096 bytes. The arc cosines agree
    where the clamp lets them be asked, both loaders return the
    square, and the two extractions return the same output, with the
    four boundary edges. *)
Lemma extraction_deterministic_witness :
  (forall x, is_nan x = true \/ ((-1 <=? x)%float = true /\ (x <=? 1)%float = true) ->
             @Math_acos (ref_platform (Some good_doc)) x
             = @Math_acos (other_platform (Some (padded_doc (Some 4%N) (Some 6%N)))) x)
  /\ @Math_acos (ref_platform (Some good_doc)) 2%float
     <> @Math_acos (other_platform (Some (padded_doc (Some 4%N) (Some 6%N)))) 2%float
  /\ loadGLTF (H := ref_platform (Some good_doc)) square_world (Some "model.gltf")
     = inr square_mesh
  /\ loadGLTF (H := other_platform (Some (padded_doc (Some 4%N) (Some 6%N))))
       padded_world (Some "model.gltf") = inr square_mesh
  /\ extractFeatureEdges_in (H := ref_platform (Some good_doc)) ZONES square_world
       (Some "model.gltf") scenario_opts
     = extractFeatureEdges_in (H := other_platform (Some (padded_doc (Some 4%N) (Some 6%N))))
         ZONES padded_world (Some "model.gltf") scenario_opts
  /\ Output.vertices (extract_mesh (H := ref_platform (Some good_doc)) ZONES square_mesh
                        scenario_opts)
     = Output.vertices (extract_mesh
                          (H := other_platform (Some (padded_doc (Some 4%N) (Some 6%N))))
                          ZONES square_mesh scenario_opts)
  /\ Output.indices (extract_mesh (H := ref_platform (Some good_doc)) ZONES square_mesh
                       scenario_opts)
     = Output.indices (extract_mesh
                         (H := other_platform (Some (padded_doc (Some 4%N) (Some 6%N))))
                         ZONES square_mesh scenario_opts)
  /\ Output.meta (extract_mesh (H := ref_platform (Some good_doc)) ZONES square_mesh
                    scenario_opts)
     = Output.meta (extract_mesh
                      (H := other_platform (Some (padded_doc (Some 4%N) (Some 6%N))))
                      ZONES square_mesh scenario_opts)
  /\ Meta.featureEdges (Output.meta
       (extract_mesh (H := other_platform (Some (padded_doc (Some 4%N) (Some 6%N))))
          ZONES square_mesh scenario_opts)) = 4.
Proof.
  assert (Hacos : forall x,
            is_nan x = true \/ ((-1 <=? x)%float = true /\ (x <=? 1)%float = true) ->
            @Math_acos (ref_platform (Some good_doc)) x
            = @Math_acos (other_platform (Some (padded_doc (Some 4%N) (Some 6%N)))) x).
  { intros x Hx. cbn [Math_acos ref_platform ref_platform_with other_platform].
    destruct Hx as [Hn | [Hlo Hhi]]; [now rewrite Hn|].
    now rewrite Hlo, Hhi, orb_true_r. }
  assert (H1 : loadGLTF (H := ref_platform (Some good_doc)) square_world (Some "model.gltf")
               = inr square_mesh) by (vm_compute; reflexivity).
  assert (H2 : loadGLTF (H := other_platform (Some (padded_doc (Some 4%N) (Some 6%N))))
                 padded_world (Some "model.gltf") = inr square_mesh)
    by (vm_compute; reflexivity).
  destruct (extraction_deterministic (ref_platform (Some good_doc))
              (other_platform (Some (padded_doc (Some 4%N) (Some 6%N))))
              ZONES square_mesh scenario_opts Hacos) as (Hv & Hi & Hm & Hrun & _).
  split; [exact Hacos|]. split; [vm_compute; discriminate|].
  split; [exact H1|]. split; [exact H2|].
  split; [exact (Hrun _ _ _ _ H1 H2)|].
  split; [exact Hv|]. split; [exact Hi|]. split; [exact Hm|].
  vm_compute. reflexivity.
Defined.

(** ** Witnesses of the further properties *)

(** X5, witness: the midpoint of an edge read from an empty position
    array. *)
Lemma nan_point_unzoned_witness :
  findZone ZONES (PrimFloat.nan, PrimFloat.nan, PrimFloat.nan) = None
  /\ effective_threshold ZONES default_opts [] "0_1" = Opts.threshold default_opts
  /\ effective_minLength ZONES default_opts [] "0_1" = Opts.minLength default_opts
  /\ effective_zoneName ZONES default_opts [] "0_1" = default_zone_name.
Proof.
  destruct (nan_point_unzoned ZONES default_opts [] "0_1"
              (PrimFloat.nan, PrimFloat.nan, PrimFloat.nan)) as [Hnone Hfall].
  { left. reflexivity. }
  split; [exact Hnone|]. apply Hfall. vm_compute. reflexivity.
Defined.

(** X6, witness: an edge of the square with an [undefined] corner. *)
Lemma edge_outside_positions_witness :
  edge_length (Mesh.positions square_mesh) "undefined_3" = PrimFloat.nan
  /\ edge_zone ZONES default_opts (Mesh.positions square_mesh) "undefined_3" = None
  /\ too_short ZONES default_opts (Mesh.positions square_mesh) "undefined_3" = false
  /\ longer default_opts (Mesh.positions square_mesh) "undefined_3" = false.
Proof.
  apply (edge_outside_positions (H := ref) ZONES default_opts
           (Mesh.positions square_mesh) "undefined_3").
  left. vm_compute. exact I.
Defined.

(** X7, witness: the square without zones and with a minimum length of 0. *)
Lemma no_length_floor_witness :
  (forall ek, too_short ZONES (Opts.set_zones false scenario_opts)
                (Mesh.positions square_mesh) ek = false)
  /\ Stats.tooShort (Meta.stats (Output.meta
       (extract_mesh (H := ref) ZONES square_mesh (Opts.set_zones false scenario_opts)))) = 0.
Proof.
  apply (no_length_floor (H := ref) ZONES square_mesh (Opts.set_zones false scenario_opts)).
  - reflexivity.
  - vm_compute. reflexivity.
Defined.

(** X9, witness: the diagonal of the square, found by face 0, then face 1. *)
Lemma face_lists_ascending_witness :
  StronglySorted le [0; 1]
  /\ Forall (fun f => f < List.length (faceNormals_of square_mesh)) [0; 1]
  /\ (forall k, k < List.length [0; 1] ->
        nth_error (faceNormals_of square_mesh) (nth k [0; 1] 0)
        = Some (face_normal square_mesh (nth k [0; 1] 0))).
Proof.
  apply (face_lists_ascending square_mesh "0_2" [0; 1]).
  vm_compute. tauto.
Defined.

(** X11, witness: the edge 0-1 of the square. *)
Lemma kept_edge_endpoints_witness :
  exists x y, Some 0%Z = Some (Z.of_N x) /\ Some 1%Z = Some (Z.of_N y)
              /\ (x <= y)%N /\ In x (Mesh.indices square_mesh)
              /\ In y (Mesh.indices square_mesh).
Proof.
  apply (kept_edge_endpoints (H := ref) ZONES square_mesh scenario_opts (Some 0%Z) (Some 1%Z)).
  - vm_compute. lia.
  - vm_compute. tauto.
Defined.

(** X14, witness: the first kept edge of the square. *)
Lemma compaction_round_trip_witness :
  exists i j,
    nth_error (Output.indices (extract_mesh (H := ref) ZONES square_mesh scenario_opts)) (2 * 0)
    = Some (Some i)
    /\ nth_error (Output.indices (extract_mesh (H := ref) ZONES square_mesh scenario_opts))
         (2 * 0 + 1) = Some (Some j)
    /\ output_vertex (Output.vertices (extract_mesh (H := ref) ZONES square_mesh scenario_opts)) i
       = Some (getVertex_raw (Mesh.positions square_mesh) (fst (Some 0%Z, Some 1%Z)))
    /\ output_vertex (Output.vertices (extract_mesh (H := ref) ZONES square_mesh scenario_opts)) j
       = Some (getVertex_raw (Mesh.positions square_mesh) (snd (Some 0%Z, Some 1%Z))).
Proof.
  apply (compaction_round_trip (H := ref) ZONES square_mesh scenario_opts 0
           (Some 0%Z, Some 1%Z)).
  vm_compute. reflexivity.
Defined.

(** X15, witness: vertex 1 of the square, the end of the first kept edge
    and the start of the second. *)
Lemma compaction_injective_witness :
  nth_error (Output.indices (extract_mesh (H := ref) ZONES square_mesh scenario_opts)) 1
  = nth_error (Output.indices (extract_mesh (H := ref) ZONES square_mesh scenario_opts)) 2
  <-> Some 1%Z = Some 1%Z.
Proof.
  apply (compaction_injective (H := ref) ZONES square_mesh scenario_opts 1 2
           (Some 1%Z) (Some 1%Z)).
  - vm_compute. reflexivity.
  - vm_compute. reflexivity.
Defined.

(** X16, witness: the second entry of the square's output index list. *)
Lemma output_indices_first_use_witness :
  exists q, q < 1
    /\ nth_error (Output.indices (extract_mesh (H := ref) ZONES square_mesh scenario_opts)) q
       = Some (Some 0).
Proof.
  apply (output_indices_first_use (H := ref) ZONES square_mesh scenario_opts 1 0).
  vm_compute. reflexivity.
Defined.

(** X17, witness: the square, loaded from its document and payload. *)
Lemma loaded_mesh_shape_witness :
  exists dir gltf pa pv ia iv,
    read_gltf (H := ref_platform (Some good_doc)) square_world (Some "model.gltf")
    = inr (dir, gltf)
    /\ accessor_view gltf 0 = Some (pa, pv)
    /\ accessor_view gltf 1 = Some (ia, iv)
    /\ (Accessor.componentType ia = Some 5123%N \/ Accessor.componentType ia = Some 5125%N)
    /\ Mesh.vertexCount square_mesh = Accessor.count pa
    /\ List.length (Mesh.positions square_mesh) = 3 * N.to_nat (or_zero (Accessor.count pa))
    /\ (forall n, Accessor.count ia = Some n ->
          List.length (Mesh.indices square_mesh) = N.to_nat n
          /\ Mesh.triangleCount square_mesh = (number_of_N n / 3)%float)
    /\ (Accessor.count ia = None -> Mesh.triangleCount square_mesh = PrimFloat.nan).
Proof.
  apply (loaded_mesh_shape (H := ref_platform (Some good_doc)) square_world
           (Some "model.gltf") square_mesh).
  vm_compute. reflexivity.
Defined.

(** X18, witness: the six 16-bit indices of the square. *)
Lemma loaded_indices_width_witness :
  exists dir gltf ia iv,
    read_gltf (H := ref_platform (Some good_doc)) square_world (Some "model.gltf")
    = inr (dir, gltf)
    /\ accessor_view gltf 1 = Some (ia, iv)
    /\ (Accessor.componentType ia = Some 5123%N
        /\ Forall (fun i => (i < 2 ^ 16)%N) (Mesh.indices square_mesh)
        \/ Accessor.componentType ia = Some 5125%N
           /\ Forall (fun i => (i < 2 ^ 32)%N) (Mesh.indices square_mesh)).
Proof.
  apply (loaded_indices_width (H := ref_platform (Some good_doc)) square_world
           (Some "model.gltf") square_mesh).
  vm_compute. reflexivity.
Defined.

(** X19, witness: a document with byte-wide indices. *)
Lemma loader_error_kinds_witness :
  (Error "Unsupported index component type: 5121" = TypeError
   \/ Error "Unsupported index component type: 5121" = RangeError
   \/ Error "Unsupported index component type: 5121" = SyntaxError
   \/ Error "Unsupported index component type: 5121" = FsError
   \/ exists ct, unsupported_type ct
                 /\ Error "Unsupported index component type: 5121"
                    = Error ("Unsupported index component type: " ++ template ct))
  /\ (Error "Unsupported index component type: 5121" = FsError ->
      exists p, In p (files_read (H := ref_platform (Some unsupported_doc)) square_world
                        (Some "model.gltf"))
                /\ square_world p = None).
Proof.
  apply (loader_error_kinds (H := ref_platform (Some unsupported_doc)) square_world
           (Some "model.gltf") (Error "Unsupported index component type: 5121")).
  vm_compute. reflexivity.
Defined.

(** X20, witness: a position accessor counting 1000 vertices over the
    payload of 4096 bytes, which has an [ArrayBuffer] of its own. *)
Lemma positions_out_of_bounds_witness :
  @Buffer_pool ref padded_payload = ("", "")
  /\ load_positions overlong_padded_doc (Buffer_of_content (H := ref) padded_payload)
     = inl RangeError
  /\ load_arrays overlong_padded_doc (Buffer_of_content (H := ref) padded_payload)
     = inl RangeError.
Proof.
  split; [vm_compute; reflexivity|].
  apply (positions_out_of_bounds (H := ref) overlong_padded_doc padded_payload
           (Accessor.Make (Some 0%N) None (Some 1000%N) (Some 5126%N))
           (BufferView.Make None)).
  - reflexivity.
  - right. vm_compute. reflexivity.
Defined.

(** X21, witness: a threshold given twice. *)
Lemma parseArgs_compose_witness :
  parseArgs_from (["--threshold"; "5"] ++ ["--stats"]) default_opts
  = parseArgs_from ["--stats"] (parseArgs_from ["--threshold"; "5"] default_opts)
  /\ parseArgs_from (["--threshold"; "5"] ++ ["--threshold"; "20"]) default_opts
     = Opts.set_threshold (parseFloat_string "20")
         (parseArgs_from ["--threshold"; "5"] default_opts)
  /\ parseArgs_from (["--threshold"; "5"] ++ ["--no-boundary"]) default_opts
     = Opts.set_boundary false (parseArgs_from ["--threshold"; "5"] default_opts).
Proof.
  apply (parseArgs_compose ["--threshold"; "5"] ["--stats"] default_opts "20").
  reflexivity.
Defined.

(** X23, witness: an option list cut after [--min-length 0]. *)
Lemma trailing_option_witness :
  run (H := ref) (["--min-length"; "0"] ++ ["--input"]) square_world
  = (inl TypeError, square_world)
  /\ run (H := ref) (["--min-length"; "0"] ++ ["--output"]) square_world =
     (match extractFeatureEdges (H := ref) square_world
              (Opts.input (parseArgs ["--min-length"; "0"]))
              (Opts.set_output None (parseArgs ["--min-length"; "0"])) with
      | inl e => inl e
      | inr _ => inl TypeError
      end, square_world)
  /\ Opts.threshold (parseArgs (["--min-length"; "0"] ++ ["--threshold"])) = PrimFloat.nan.
Proof.
  apply (trailing_option (H := ref) ["--min-length"; "0"] square_world).
  reflexivity.
Defined.


(** X26, witness: a threshold of 200. *)
Lemma parseFloat_integer_witness :
  parseFloat_string (string_of_N 200) = number_of_N 200
  /\ parseArgs_from ("--threshold" :: string_of_N 200 :: []) default_opts
     = parseArgs_from [] (Opts.set_threshold (number_of_N 200) default_opts).
Proof.
  apply (parseFloat_integer 200 [] default_opts). reflexivity.
Defined.

(** X28, witness: the square with a triangle count of NaN, as a
    document whose index accessor has no [count] gives it. *)
Lemma no_triangle_no_output_witness :
  Output.vertices (extract_mesh (H := ref) ZONES uncounted_mesh default_opts) = []
  /\ Output.indices (extract_mesh (H := ref) ZONES uncounted_mesh default_opts) = []
  /\ Meta.sourceEdges (Output.meta (extract_mesh (H := ref) ZONES uncounted_mesh default_opts)) = 0
  /\ Meta.featureEdges (Output.meta (extract_mesh (H := ref) ZONES uncounted_mesh default_opts)) = 0
  /\ Meta.stats (Output.meta (extract_mesh (H := ref) ZONES uncounted_mesh default_opts))
     = Stats.Make 0 0 0 0 0 0.
Proof.
  apply (no_triangle_no_output (H := ref) ZONES uncounted_mesh default_opts).
  reflexivity.
Defined.

(** ** Scenarios of the specification *)

(** The flat square at a threshold of 10 degrees: the diagonal is
    coplanar and left out, the four boundary edges are kept with the
    boundary flag and left out without it. *)
Example square_scenario :
  kept_edges (H := ref) ZONES square_mesh scenario_opts
    = [(Some 0, Some 1); (Some 1, Some 2); (Some 2, Some 3); (Some 0, Some 3)]%Z
  /\ final_stats (H := ref) ZONES square_mesh scenario_opts = Stats.Make 0 0 4 0 1 0
  /\ kept_edges (H := ref) ZONES square_mesh (Opts.set_boundary false scenario_opts) = [].
Proof. repeat split; vm_compute; reflexivity. Qed.

(** The cube has 18 edges, each with two faces. Under one zone over its
    bounding box, a threshold of 1 degree keeps the twelve edges at 90
    degrees as sharp and leaves the six face diagonals out; a threshold
    of 100 degrees keeps none. *)
Example cube_scenario :
  List.length (edgeFaces_of cube_mesh) = 18
  /\ forallb (fun entry => List.length (snd entry) =? 2)%nat (edgeFaces_of cube_mesh) = true
  /\ final_stats (H := ref) (cube_zone 1%float) cube_mesh scenario_opts
     = Stats.Make 12 0 0 0 6 0
  /\ final_stats (H := ref) (cube_zone 100%float) cube_mesh scenario_opts
     = Stats.Make 0 0 0 0 18 0.
Proof. repeat split; vm_compute; reflexivity. Qed.

(** A point in both "Tail / Rudders" and "Right Wing" is classified into
    the former, which comes first in [ZONES]; a point on the corner of
    the first zone is inside it. *)
Example zone_precedence :
  option_map Zone.name (findZone ZONES (10, 20, 30)%float) = Some "Tail / Rudders"
  /\ in_zone (10, 20, 30)%float
       (Zone.Make "Right Wing" 0 15 8 38 19 215 10 0x1.999999999999ap-1)%float = true
  /\ option_map Zone.name (findZone ZONES (15, 8, 95)%float)
     = Some "Engine Intakes (Right)"
  /\ findZone ZONES (49, 40, 100)%float = None.
Proof. repeat split; vm_compute; reflexivity. Qed.

(** An index array whose length is no multiple of 3: the last face reads
    [undefined] corners, whose keys parse back to NaN. *)
Example ragged_indices :
  map fst (edgeFaces_of (Mesh.Make [] [0; 1; 2; 0]%N None (4 / 3)%float))
    = ["0_1"; "1_2"; "0_2"; "undefined_0"; "undefined_undefined"; "0_undefined"]
  /\ edge_ends "undefined_0" = (None, Some 0%Z).
Proof. split; vm_compute; reflexivity. Qed.

(** [parseFloat] on some texts. *)
Example parseFloat_examples :
  parseFloat_string "13.75" = 13.75%float
  /\ parseFloat_string "  -3.5e2xyz" = (-350)%float
  /\ parseFloat_string "1e-7" = 0x1.ad7f29abcaf48p-24%float
  /\ parseFloat_string ".5" = 0.5%float
  /\ parseFloat_string "abc" = PrimFloat.nan
  /\ parseFloat_string "" = PrimFloat.nan
  /\ parseFloat_string "-Infinity" = PrimFloat.neg_infinity.
Proof. repeat split; vm_compute; reflexivity. Qed.

(** [parseFloat] skips the white space of JavaScript, not of ASCII
    only: a no-break space (U+00A0), a byte order mark (U+FEFF) and a
    thin space (U+2009) before the digits are passed over. *)
Example parseFloat_unicode_space :
  parseFloat_string (String "194"%char (String "160"%char "12")) = 12%float
  /\ parseFloat_string
       (String "239"%char (String "187"%char (String "191"%char "12"))) = 12%float
  /\ parseFloat_string
       (String "226"%char (String "128"%char (String "137"%char " 12"))) = 12%float
  /\ parseFloat_string (String "194"%char (String "161"%char "12")) = PrimFloat.nan.
Proof. repeat split; vm_compute; reflexivity. Qed.

(** The turns of a counting loop, against its test [f < bound] evaluated
    on numbers, for the first 1100 values of [f] and some bounds. *)
Example loop_trips_examples :
  forallb
    (fun bound =>
       forallb
         (fun f => Bool.eqb (number_of_N (N.of_nat f) <? bound)%float
                     (f <? loop_trips bound)%nat)
         (seq 0 1100))
    [0; 0.5; 1; 4 / 3; 2; 7 / 3; 1000.25; -3; PrimFloat.nan; 0x1p-1074]%float
  = true.
Proof. vm_compute. reflexivity. Qed.


(** ** The payload in the pool *)

(** The document without an index [count] loads: over the payload of
    4096 bytes, six indices and a triangle count of NaN; over the short
    payload, which lies in the pool, as many indices as the pool has
    room for after byte 48. *)
Example uncounted_load :
  loadGLTF (H := ref_platform (Some uncounted_doc)) padded_world (Some "model.gltf")
  = inr uncounted_mesh
  /\ match loadGLTF (H := ref_platform (Some uncounted_short_doc)) square_world
             (Some "model.gltf") with
     | inr mesh => List.length (Mesh.indices mesh) = 4072
     | inl _ => False
     end.
Proof. split; vm_compute; reflexivity. Qed.

(** A position accessor counting 100 vertices over the 60 bytes of the
    square's payload loads, the payload being in the pool: 300
    coordinates, the last 288 from the pool. *)
Example overlong_load :
  match loadGLTF (H := ref_platform (Some overlong_doc)) square_world (Some "model.gltf") with
  | inr mesh => List.length (Mesh.positions mesh) = 300
                /\ firstn 12 (Mesh.positions mesh) = Mesh.positions square_mesh
  | inl _ => False
  end.
Proof. vm_compute. split; reflexivity. Qed.

(** What lies in the pool after a short payload is read when a view
    runs past the payload: the same files give two meshes, and two
    outputs, on two platforms whose pools differ. *)
Example pool_matters :
  loadGLTF (H := ref_platform (Some nine_doc)) square_world (Some "model.gltf")
  = inr (Mesh.Make (Mesh.positions square_mesh) [0; 1; 2; 0; 2; 3; 0; 0; 0]%N
           (Some 4%N) 3%float)
  /\ loadGLTF (H := other_platform (Some nine_doc)) square_world (Some "model.gltf")
     = inr (Mesh.Make (Mesh.positions square_mesh) [0; 1; 2; 0; 2; 3; 1; 1; 1]%N
              (Some 4%N) 3%float)
  /\ match extractFeatureEdges_in (H := ref_platform (Some nine_doc)) ZONES square_world
             (Some "model.gltf") scenario_opts,
           extractFeatureEdges_in (H := other_platform (Some nine_doc)) ZONES square_world
             (Some "model.gltf") scenario_opts with
     | inr out1, inr out2 =>
         Output.indices out1
         = [Some 0; Some 1; Some 1; Some 2; Some 2; Some 3; Some 0; Some 3; Some 0; Some 0]
         /\ Output.indices out2
            = [Some 0; Some 1; Some 1; Some 2; Some 2; Some 3; Some 0; Some 3; Some 1; Some 1]
     | _, _ => False
     end.
Proof. repeat split; vm_compute; reflexivity. Qed.

(** ** A write that fails *)

(** A run whose output path is in a directory that is not there throws
    in the write, after the whole extraction, and leaves no file. *)
Example failed_write :
  run (H := ref_platform (Some good_doc))
    ["--input"; "model.gltf"; "--output"; "nodir/out.json"] square_world
  = (inl FsError, set_file square_world "nodir/out.json" None)
  /\ snd (run (H := ref_platform (Some good_doc))
            ["--input"; "model.gltf"; "--output"; "nodir/out.json"] square_world)
       "nodir/out.json" = None.
Proof. split; vm_compute; reflexivity. Qed.
